(** * The kernel-sweep helpers of the image-filtering notebook

    A shallow embedding of [iter_pixels], [bounded_slice], [iter_kernel],
    [mean_filter_demo], [mean_filter_interactive_demo] and [imshow_all],
    together with the NumPy, SciPy, Matplotlib and ipywidgets behaviour
    those helpers rely on.

    Conventions.
    - Images are two-dimensional (grey-level).  An array is its shape
      together with its rows.  A pixel value of the image is the rational
      number it stands for ([Qc]); what is computed from pixels follows
      the element type of the image ([dtype]), which rounds, and is not
      the arithmetic of the rationals.  The kernel mask is an [int16]
      array whose values stay in {0, 1, 2} and are kept as [Z].
    - Arrays live in a store ([heap]) and are named by references, because
      the helpers allocate, copy and overwrite arrays and hand out views.
    - A Python exception is a value of [exn]; a computation that may raise
      returns a [result].
    - The library functions the helpers call are written out from their
      documented behaviour: slicing and item assignment of NumPy,
      [ndimage.grey_dilation] of SciPy, [plt.subplots] of Matplotlib,
      [IntSlider] and [interact] of ipywidgets.  The colour overlay of
      [label2rgb] and the conversion [img_as_float] of scikit-image stay
      abstract. *)

From Stdlib Require Import ZArith QArith Qcanon Lia.
From Stdlib Require Import Floats.SpecFloat.
From stdpp Require Import base tactics option list numbers strings.

Set Default Proof Using "Type".

(* ===================================================================== *)
(** ** Exceptions and results                                             *)
(* ===================================================================== *)

Inductive exn :=
  | IndexError
  | StopIteration
  | ValueError
  | AttributeError
  | TypeError.

Inductive result (A : Type) :=
  | Ok (a : A)
  | Raise (e : exn).
Arguments Ok {A} a.
Arguments Raise {A} e.

Definition result_bind {A B} (m : result A) (k : A → result B) : result B :=
  match m with
  | Ok a => k a
  | Raise e => Raise e
  end.

#[global] Instance result_ret : MRet result := λ A a, Ok a.
#[global] Instance result_mbind : MBind result := λ A B k m, result_bind m k.

Definition is_ok {A} (r : result A) : bool :=
  match r with Ok _ => true | Raise _ => false end.

Fixpoint result_mapM {A B} (f : A → result B) (l : list A) : result (list B) :=
  match l with
  | [] => Ok []
  | x :: l' => y ← f x; ys ← result_mapM f l'; Ok (y :: ys)
  end.

(** [l[i]] for a Python list and an integer that may be negative. *)
Definition py_index {A} (l : list A) (i : Z) : result A :=
  let n := Z.of_nat (length l) in
  let k := if (i <? 0)%Z then (i + n)%Z else i in
  if (k <? 0)%Z then Raise IndexError
  else match l !! Z.to_nat k with
       | Some x => Ok x
       | None => Raise IndexError
       end.

(* ===================================================================== *)
(** ** Two-dimensional arrays                                             *)
(* ===================================================================== *)

Record ndarray (A : Type) := NdArray {
  nrows : nat;
  ncols : nat;
  cells : list (list A)
}.
Arguments NdArray {A} nrows ncols cells.
Arguments nrows {A} _.
Arguments ncols {A} _.
Arguments cells {A} _.

(** The rows agree with the declared shape. *)
Definition wf_ndarray {A} (a : ndarray A) : Prop :=
  length (cells a) = nrows a ∧ Forall (λ row, length row = ncols a) (cells a).

(** [a[i, j]] read as a total function, for stating results. *)
Definition at2 {A} (d : A) (a : ndarray A) (i j : nat) : A :=
  default d (cells a !! i ≫= (.!! j)).

(** [np.zeros(shape, dtype='int16')] *)
Definition np_zeros (h w : nat) : ndarray Z :=
  NdArray h w (replicate h (replicate w 0%Z)).

(** [a[i, j]] for indices produced by [range]: they are never negative. *)
Definition getitem {A} (a : ndarray A) (i j : nat) : result A :=
  match cells a !! i ≫= (.!! j) with
  | Some x => Ok x
  | None => Raise IndexError
  end.

(** [a[i, j] = v] *)
Definition setitem {A} (a : ndarray A) (i j : nat) (v : A) : result (ndarray A) :=
  if decide (i < nrows a ∧ j < ncols a)
  then Ok (NdArray (nrows a) (ncols a) (alter (<[j := v]>) i (cells a)))
  else Raise IndexError.

(** *** Slices

    [slice(start, stop)] applied to a dimension of length [n]: a negative
    bound counts from the end, and both bounds are clipped to [0, n]. *)

Record slice := Slice { start : Z; stop : Z }.

Definition slice_bound (n : nat) (x : Z) : nat :=
  Z.to_nat (if (x <? 0)%Z then Z.max 0 (x + Z.of_nat n) else Z.min x (Z.of_nat n)).

Definition slice_lo (n : nat) (s : slice) : nat := slice_bound n (start s).
Definition slice_hi (n : nat) (s : slice) : nat := slice_bound n (stop s).
Definition slice_len (n : nat) (s : slice) : nat := slice_hi n s - slice_lo n s.

Definition slice_list {A} (s : slice) (l : list A) : list A :=
  take (slice_len (length l) s) (drop (slice_lo (length l) s) l).

(** [a[index]] where [index] is a sequence of slices, which NumPy reads as
    a tuple of slices: one slice per leading axis.  The empty sequence
    selects no row; more slices than axes is an error. *)
Definition getitem_slices {A} (a : ndarray A) (index : list slice)
  : result (ndarray A) :=
  match index with
  | [] => Ok (NdArray 0 (ncols a) [])
  | [sr] => Ok (NdArray (slice_len (nrows a) sr) (ncols a)
                        (slice_list sr (cells a)))
  | [sr; sc] => Ok (NdArray (slice_len (nrows a) sr) (slice_len (ncols a) sc)
                            (slice_list sc <$> slice_list sr (cells a)))
  | _ => Raise IndexError
  end.

(** The elements of an array, row after row ([a.ravel()]). *)
Definition ravel {A} (a : ndarray A) : list A := concat (cells a).

(* ===================================================================== *)
(** ** [bounded_slice]                                                    *)
(* ===================================================================== *)

(** <<
    def bounded_slice(center, xy_max, size=1, i_min=0):
        slices = []
        for i, i_max in zip(center, xy_max):
            slices.append(slice(max(i - size, i_min), min(i + size + 1, i_max)))
        return slices
    >> *)
Definition bounded_slice (center xy_max : list Z) (size i_min : Z) : list slice :=
  zip_with (λ i i_max, Slice (Z.max (i - size) i_min) (Z.min (i + size + 1) i_max))
           center xy_max.

(* ===================================================================== *)
(** ** SciPy: [ndimage.grey_dilation(input, size=width)]                  *)
(* ===================================================================== *)

(** With only [size] given, [grey_dilation] is a maximum filter with a flat
    [size × size] footprint and the default boundary mode ['reflect'],
    which extends a line [a b c d] as [d c b a | a b c d | d c b a].  The
    filter runs along one axis after the other, skipping every axis whose
    size is not larger than 1, and writes into a new array.  For an even
    size the window is shifted by one (origin -1). *)

Definition reflect (n : nat) (x : Z) : nat :=
  let m := (x mod (2 * Z.of_nat n))%Z in
  Z.to_nat (if (m <? Z.of_nat n)%Z then m else (2 * Z.of_nat n - 1 - m)%Z).

Definition Zmax_list (d : Z) (l : list Z) : Z :=
  match l with
  | [] => d
  | x :: l' => foldr Z.max x l'
  end.

(** Offsets of the window relative to the output index. *)
Definition window_offsets (size origin : Z) : list Z :=
  (λ k, k - size / 2 - origin)%Z <$> seqZ 0 size.

Definition dilation_origin (size : Z) : Z :=
  if Z.even size then (-1)%Z else 0%Z.

Definition tabulate2 {A} (h w : nat) (f : nat → nat → A) : list (list A) :=
  (λ r, (λ c, f r c) <$> seq 0 w) <$> seq 0 h.

(** [maximum_filter1d] along axis 0 (down the columns). *)
Definition maximum_filter_axis0 (size origin : Z) (a : ndarray Z) : ndarray Z :=
  NdArray (nrows a) (ncols a)
    (tabulate2 (nrows a) (ncols a) (λ r c,
       Zmax_list 0 ((λ o, at2 0%Z a (reflect (nrows a) (Z.of_nat r + o)) c)
                    <$> window_offsets size origin))).

(** [maximum_filter1d] along axis 1 (along the rows). *)
Definition maximum_filter_axis1 (size origin : Z) (a : ndarray Z) : ndarray Z :=
  NdArray (nrows a) (ncols a)
    (tabulate2 (nrows a) (ncols a) (λ r c,
       Zmax_list 0 ((λ o, at2 0%Z a r (reflect (ncols a) (Z.of_nat c + o)))
                    <$> window_offsets size origin))).

Definition grey_dilation (input : ndarray Z) (size : Z) : ndarray Z :=
  if (1 <? size)%Z
  then maximum_filter_axis1 size (dilation_origin size)
         (maximum_filter_axis0 size (dilation_origin size) input)
  else NdArray (nrows input) (ncols input) (cells input).

(* ===================================================================== *)
(** ** Element types and their arithmetic                                 *)
(* ===================================================================== *)

(** An array has an element type, and what NumPy computes depends on it:
    the products of [k * a] and the sums of [np.sum] are rounded to the
    type of the result, and an item assignment [a[i, j] = v] converts [v]
    to the element type of [a] (an integer array drops the fraction).  A
    pixel value is the rational it stands for, and the element type of the
    image gives the operations the demo uses on pixels.  Nothing is
    assumed of them: what is proved of the demo holds for every element
    type. *)
Record dtype := Dtype {
  (* one product [k * x] of [k * a], for a Python float [k] *)
  multiply : Qc → Qc → Qc;
  (* [np.add.reduce] of the elements, taken row after row *)
  add_reduce : list Qc → Qc;
  (* the value that [a[i, j] = v] keeps of [v] *)
  astype : Qc → Qc
}.

(** *** Binary64

    A Python float, and an element of a [float64] array, is a binary64
    number of IEEE 754.  The operations are those of [SpecFloat], which
    round to nearest, ties to even.  A finite binary64 number is read as
    the rational it stands for; infinities and NaN are not pixel values
    and are read as 0. *)
Definition Qc_of_b64 (f : spec_float) : Qc :=
  match f with
  | S754_finite s m (Zneg p) => Q2Qc (cond_Zopp s (Zpos m) # Pos.pow 2 p)
  | S754_finite s m e => Q2Qc (inject_Z (cond_Zopp s (Zpos m) * 2 ^ e))
  | _ => 0%Qc
  end.

Definition b64_of_Z (z : Z) : spec_float := binary_normalize 53 1024 z 0 false.

(** The binary64 number nearest to a rational: a rational [n / 2^k], as
    every binary64 number is, is rounded as it stands; another one is the
    quotient of its numerator by its denominator. *)
Definition b64_of_Qc (q : Qc) : spec_float :=
  let k := Z.log2 (Zpos (Qden q)) in
  if decide (Zpos (Qden q) = 2 ^ k)%Z
  then binary_normalize 53 1024 (Qnum q) (- k) false
  else SFdiv 53 1024 (b64_of_Z (Qnum q)) (b64_of_Z (Zpos (Qden q))).

Definition float64_multiply (x y : Qc) : Qc :=
  Qc_of_b64 (SFmul 53 1024 (b64_of_Qc x) (b64_of_Qc y)).

Definition float64_add (x y : Qc) : Qc :=
  Qc_of_b64 (SFadd 53 1024 (b64_of_Qc x) (b64_of_Qc y)).

Definition float64_divide (x y : Qc) : Qc :=
  Qc_of_b64 (SFdiv 53 1024 (b64_of_Qc x) (b64_of_Qc y)).

(** The order in which NumPy adds the elements of a contiguous array
    ([pairwise_sum]): fewer than 8 elements one after the other, starting
    from 0; up to 128 elements in eight running sums, one for the places
    [j], [j + 8], [j + 16], ..., which are then added in pairs, and the
    elements left over are added one after the other; a longer array in
    two parts, the length of the first a multiple of 8.  [fuel] bounds the
    depth of the halving; the length of the array is enough. *)
Fixpoint pairwise_sum (add : Qc → Qc → Qc) (fuel : nat) (a : list Qc) : Qc :=
  let n := length a in
  if decide (n < 8) then foldl add 0%Qc a
  else if decide (n ≤ 128) then
    let r (j : nat) :=
      foldl add (default 0%Qc (a !! j))
        ((λ b, default 0%Qc (a !! (8 * b + j))) <$> seq 1 (n / 8 - 1)) in
    let res := add (add (add (r 0) (r 1)) (add (r 2) (r 3)))
                   (add (add (r 4) (r 5)) (add (r 6) (r 7))) in
    foldl add res (drop (n - n mod 8) a)
  else
    match fuel with
    | 0 => 0%Qc
    | S fuel' =>
        let n2 := n / 2 - (n / 2) mod 8 in
        add (pairwise_sum add fuel' (take n2 a))
            (pairwise_sum add fuel' (drop n2 a))
    end.

(** [np.sum] starts from 0 and adds the sum of the elements to it. *)
Definition float64_add_reduce (a : list Qc) : Qc :=
  float64_add 0%Qc (pairwise_sum float64_add (length a) a).

(** A [float64] array keeps the binary64 number nearest to the value
    assigned, which is the value itself when it is a binary64 number. *)
Definition float64_astype (v : Qc) : Qc := Qc_of_b64 (b64_of_Qc v).

Definition float64 : dtype :=
  Dtype float64_multiply float64_add_reduce float64_astype.

(* ===================================================================== *)
(** ** The store                                                          *)
(* ===================================================================== *)

Section Notebook.

(** [label2rgb] of scikit-image builds the colour overlay shown in the left
    panel of the demo; its result is kept abstract. *)
Context {overlay : Type}.
Variable label2rgb : ndarray Z → ndarray Qc → overlay.

(** The element type of the images in the store. *)
Variable dt : dtype.

(** What the store holds: an image, with pixels of the element type [dt];
    a kernel mask; an overlay. *)
Inductive cell :=
  | CFloat (a : ndarray Qc)
  | CInt (a : ndarray Z)
  | CRgb (o : overlay).

(** References are positions in the store. *)
Abbreviation ref := nat (only parsing).
Abbreviation heap := (list cell) (only parsing).

(** Computations on the store that may raise.  The store survives an
    exception. *)
Definition M (A : Type) : Type := heap → result A * heap.

#[global] Instance M_ret : MRet M := λ A a H, (Ok a, H).
#[global] Instance M_bind : MBind M := λ A B k m H,
  match m H with
  | (Ok a, H') => k a H'
  | (Raise e, H') => (Raise e, H')
  end.

Definition raise {A} (e : exn) : M A := λ H, (Raise e, H).
Definition lift {A} (r : result A) : M A := λ H, (r, H).

Definition alloc (c : cell) : M ref := λ H, (Ok (length H), H ++ [c]).

Definition read_cell (r : ref) : M cell := λ H,
  match H !! r with
  | Some c => (Ok c, H)
  | None => (Raise TypeError, H)
  end.

Definition read_float (r : ref) : M (ndarray Qc) :=
  c ← read_cell r;
  match c with CFloat a => mret a | _ => raise TypeError end.

Definition read_int (r : ref) : M (ndarray Z) :=
  c ← read_cell r;
  match c with CInt a => mret a | _ => raise TypeError end.

Definition store (r : ref) (c : cell) : M unit := λ H, (Ok (), <[r := c]> H).

(** [a[i, j] = v] on an array of the store *)
Definition setitem_int (r : ref) (i j : nat) (v : Z) : M unit :=
  a ← read_int r;
  a' ← lift (setitem a i j v);
  store r (CInt a').

(** The same on an image: the value is converted to the element type of
    the image before it is stored. *)
Definition setitem_float (r : ref) (i j : nat) (v : Qc) : M unit :=
  a ← read_float r;
  a' ← lift (setitem a i j (astype dt v));
  store r (CFloat a').

(** [a.copy()] *)
Definition copy (r : ref) : M ref :=
  c ← read_cell r;
  alloc c.

(** Basic slicing gives a view: it shares the data of its base array. *)
Record view := View { v_base : ref; v_index : list slice }.

Definition getitem_view (r : ref) (index : list slice) : M view :=
  a ← read_float r;
  _ ← lift (getitem_slices a index);
  mret (View r index).

Definition read_view (v : view) : M (ndarray Qc) :=
  a ← read_float (v_base v);
  lift (getitem_slices a (v_index v)).

(* ===================================================================== *)
(** ** [iter_pixels]                                                      *)
(* ===================================================================== *)

(** <<
    def iter_pixels(image):
        height, width = image.shape[:2]
        for i in range(height):
            for j in range(width):
                yield (i, j), image[i, j]
    >>
    The positions still to visit are the state of the generator; they are
    fixed when the generator is first advanced. *)
Definition pixel_positions (h w : nat) : list (nat * nat) :=
  i ← seq 0 h; (λ j, (i, j)) <$> seq 0 w.

Record pixel_iter := PixelIter {
  pi_image : ref;
  pi_todo : option (list (nat * nat))
}.

Definition iter_pixels (image : ref) : pixel_iter := PixelIter image None.

Definition pixel_iter_resume (image : ref) (todo : list (nat * nat)) (H : heap)
  : result (nat * nat * Qc) * pixel_iter :=
  match todo with
  | [] => (Raise StopIteration, PixelIter image (Some []))
  | (i, j) :: rest =>
      match (a ← read_float image; lift (getitem a i j)) H with
      | (Ok px, _) => (Ok (i, j, px), PixelIter image (Some rest))
      | (Raise e, _) => (Raise e, PixelIter image (Some []))
      end
  end.

(** [next(it)] for a generator made by [iter_pixels]; it only reads the
    store. *)
Definition pixel_iter_next (g : pixel_iter) (H : heap)
  : result (nat * nat * Qc) * pixel_iter :=
  match pi_todo g with
  | Some todo => pixel_iter_resume (pi_image g) todo H
  | None =>
      match read_float (pi_image g) H with
      | (Ok a, _) =>
          pixel_iter_resume (pi_image g) (pixel_positions (nrows a) (ncols a)) H
      | (Raise e, _) => (Raise e, PixelIter (pi_image g) (Some []))
      end
  end.

(* ===================================================================== *)
(** ** [iter_kernel]                                                      *)
(* ===================================================================== *)

(** <<
    def iter_kernel(image, size=1):
        width = 2*size + 1
        for (i, j), pixel in iter_pixels(image):
            mask = np.zeros(image.shape, dtype='int16')
            mask[i, j] = 1
            mask = ndi.grey_dilation(mask, size=width)
            mask[i, j] = 2
            subimage = image[bounded_slice((i, j), image.shape[:2], size=size)]
            yield (i, j), mask, subimage
    >> *)
Definition yielded : Type := (nat * nat) * ref * view.

Definition iter_kernel_body (image : ref) (size : Z) (i j : nat) : M yielded :=
  let width := (2 * size + 1)%Z in
  a ← read_float image;
  mask ← alloc (CInt (np_zeros (nrows a) (ncols a)));
  _ ← setitem_int mask i j 1%Z;
  m ← read_int mask;
  mask ← alloc (CInt (grey_dilation m width));
  _ ← setitem_int mask i j 2%Z;
  subimage ← getitem_view image
    (bounded_slice [Z.of_nat i; Z.of_nat j]
                   [Z.of_nat (nrows a); Z.of_nat (ncols a)] size 0);
  mret (i, j, mask, subimage).

Record kernel_iter := KernelIter {
  ki_image : ref;
  ki_size : Z;
  ki_pixels : pixel_iter;
  ki_done : bool
}.

(** Calling a generator function runs none of its body. *)
Definition iter_kernel (image : ref) (size : Z) : kernel_iter :=
  KernelIter image size (iter_pixels image) false.

(** [next(it)] for a generator made by [iter_kernel].  A generator that
    has raised is finished. *)
Definition kernel_iter_next (g : kernel_iter) (H : heap)
  : result yielded * kernel_iter * heap :=
  if ki_done g then (Raise StopIteration, g, H)
  else
    match pixel_iter_next (ki_pixels g) H with
    | (Raise e, px) => (Raise e, KernelIter (ki_image g) (ki_size g) px true, H)
    | (Ok (i, j, _), px) =>
        match iter_kernel_body (ki_image g) (ki_size g) i j H with
        | (Ok y, H') =>
            (Ok y, KernelIter (ki_image g) (ki_size g) px false, H')
        | (Raise e, H') =>
            (Raise e, KernelIter (ki_image g) (ki_size g) px true, H')
        end
    end.

(** [n] successive calls of [next], stopping at the first exception: the
    triples obtained, the exception if any, and the state reached. *)
Fixpoint pull (n : nat) (g : kernel_iter) (H : heap)
  : list yielded * option exn * kernel_iter * heap :=
  match n with
  | 0 => ([], None, g, H)
  | S n' =>
      match kernel_iter_next g H with
      | (Ok y, g', H') =>
          let '(ys, e, g'', H'') := pull n' g' H' in (y :: ys, e, g'', H'')
      | (Raise e, g', H') => ([], Some e, g', H')
      end
  end.

(** What a consumer sees in a yielded triple at a given moment. *)
Definition observe (H : heap) (y : yielded)
  : (nat * nat) * result (ndarray Z) * result (ndarray Qc) :=
  let '(pos, mask, subimage) := y in
  (pos, (read_int mask H).1, (read_view subimage H).1).

(* ===================================================================== *)
(** ** [mean_filter_demo]                                                 *)
(* ===================================================================== *)

(** <<
    def mean_filter_demo(image, vmax=1):
        mean_factor = 1.0 / 9.0  # This assumes a 3x3 kernel.
        iter_kernel_and_subimage = iter_kernel(image)

        image_cache = []

        def mean_filter_step(i_step):
            while i_step >= len(image_cache):
                filtered = image if i_step == 0 else image_cache[-1][1]
                filtered = filtered.copy()

                (i, j), mask, subimage = next(iter_kernel_and_subimage)
                filter_overlay = color.label2rgb(mask, image, bg_label=0,
                                                 colors=('yellow', 'red'))
                filtered[i, j] = np.sum(mean_factor * subimage)
                image_cache.append((filter_overlay, filtered))

            nimages = len(image_cache[i_step])
            fig, axes = plt.subplots(1, nimages, figsize=(10, 5))
            for ax, imc in zip(axes, image_cache[i_step]):
                ax.imshow(imc, vmax=vmax)
            plt.show()
        return mean_filter_step
    >> *)

(** [1.0 / 9.0] is a quotient of two Python floats: the binary64 number
    nearest to a ninth, which is not a ninth. *)
Definition mean_factor : Qc := float64_divide 1 (Qc_of_Z 9).

(** [k * a] for a scalar [k]: every product is rounded. *)
Definition np_scale (k : Qc) (a : ndarray Qc) : ndarray Qc :=
  NdArray (nrows a) (ncols a)
    ((λ row : list Qc, multiply dt k <$> row) <$> cells a).

(** [np.sum(a)]: the elements are added row after row, in the order and
    with the rounding of the element type. *)
Definition np_sum (a : ndarray Qc) : Qc := add_reduce dt (ravel a).

(** The variables the closure [mean_filter_step] captures. *)
Record demo := Demo {
  d_image : ref;
  d_iter : kernel_iter;
  d_cache : list (ref * ref)
}.

Definition mean_filter_demo (image : ref) : demo :=
  Demo image (iter_kernel image 1%Z) [].

(** One round of the [while] loop. *)
Definition mean_filter_round (i_step : Z) (d : demo) (H : heap)
  : result unit * demo * heap :=
  match (src ← (if decide (i_step = 0%Z) then mret (d_image d)
                else lift (e ← py_index (d_cache d) (-1); Ok e.2));
         copy src) H with
  | (Raise e, H1) => (Raise e, d, H1)
  | (Ok filtered, H1) =>
      match kernel_iter_next (d_iter d) H1 with
      | (Raise e, g, H2) => (Raise e, Demo (d_image d) g (d_cache d), H2)
      | (Ok (i, j, mask, subimage), g, H2) =>
          match (m ← read_int mask;
                 a ← read_float (d_image d);
                 filter_overlay ← alloc (CRgb (label2rgb m a));
                 w ← read_view subimage;
                 _ ← setitem_float filtered i j (np_sum (np_scale mean_factor w));
                 mret filter_overlay) H2 with
          | (Raise e, H3) => (Raise e, Demo (d_image d) g (d_cache d), H3)
          | (Ok filter_overlay, H3) =>
              (Ok (), Demo (d_image d) g (d_cache d ++ [(filter_overlay, filtered)]), H3)
          end
      end
  end.

(** [while i_step >= len(image_cache)].  Every round that does not raise
    appends one entry, so the loop makes at most
    [i_step + 1 - len(image_cache)] rounds; [rounds] is that bound. *)
Fixpoint mean_filter_while (rounds : nat) (i_step : Z) (d : demo) (H : heap)
  : result unit * demo * heap :=
  if decide (Z.of_nat (length (d_cache d)) ≤ i_step)%Z then
    match rounds with
    | 0 => (Ok (), d, H)
    | S rounds' =>
        match mean_filter_round i_step d H with
        | (Ok _, d', H') => mean_filter_while rounds' i_step d' H'
        | (Raise e, d', H') => (Raise e, d', H')
        end
    end
  else (Ok (), d, H).

(** [mean_filter_step(i_step)]; the result is the pair of arrays shown. *)
Definition mean_filter_step (i_step : Z) (d : demo) (H : heap)
  : result (ref * ref) * demo * heap :=
  match mean_filter_while (Z.to_nat (i_step + 1 - Z.of_nat (length (d_cache d))))
                          i_step d H with
  | (Raise e, d', H') => (Raise e, d', H')
  | (Ok _, d', H') => (py_index (d_cache d') i_step, d', H')
  end.

(** A session: the calls made on one closure, in order. *)
Fixpoint mean_filter_steps (steps : list Z) (d : demo) (H : heap) : demo * heap :=
  match steps with
  | [] => (d, H)
  | i_step :: steps' =>
      let '(_, d', H') := mean_filter_step i_step d H in
      mean_filter_steps steps' d' H'
  end.

(* ===================================================================== *)
(** ** [imshow_all]                                                       *)
(* ===================================================================== *)

(** <<
    def imshow_all( *images, titles=None):
        images = [img_as_float(img) for img in images]

        if titles is None:
            titles = [''] * len(images)
        vmin = min(map(np.min, images))
        vmax = max(map(np.max, images))
        ncols = len(images)
        height = 5
        width = height * len(images)
        fig, axes = plt.subplots(nrows=1, ncols=ncols,
                                 figsize=(width, height))
        for ax, img, label in zip(axes.ravel(), images, titles):
            ax.imshow(img, vmin=vmin, vmax=vmax)
            ax.set_title(label)
    >> *)

(** [img_as_float] of scikit-image converts an image of any element type;
    both the input type and the conversion are kept abstract. *)
Context {raw_image : Type}.
Variable img_as_float : raw_image → ndarray Qc.

Definition Qc_min (x y : Qc) : Qc := if decide (x ≤ y)%Qc then x else y.
Definition Qc_max (x y : Qc) : Qc := if decide (x ≤ y)%Qc then y else x.

(** [min] and [max] of a sequence: [ValueError] when it is empty, which is
    also what [np.min] and [np.max] raise for an array without elements. *)
Definition min_of (l : list Qc) : result Qc :=
  match l with
  | [] => Raise ValueError
  | x :: l' => Ok (foldl Qc_min x l')
  end.

Definition max_of (l : list Qc) : result Qc :=
  match l with
  | [] => Raise ValueError
  | x :: l' => Ok (foldl Qc_max x l')
  end.

Definition np_min (a : ndarray Qc) : result Qc := min_of (ravel a).
Definition np_max (a : ndarray Qc) : result Qc := max_of (ravel a).

(** One panel of a figure: the image drawn in it with its intensity
    limits, if any, and its title. *)
Record axis := Axis {
  ax_image : option (ndarray Qc * Qc * Qc);
  ax_title : string
}.

Definition empty_axis : axis := Axis None EmptyString.

(** [plt.subplots(nrows, ncols)] squeezes its result: a grid of one panel
    comes back as the panel itself and not as an array of panels. *)
Inductive axes :=
  | SingleAxes (a : axis)
  | AxesArray (l : list axis).

Definition subplots (nrows ncols : nat) : result axes :=
  if decide (nrows = 0 ∨ ncols = 0) then Raise ValueError
  else if decide (nrows * ncols = 1) then Ok (SingleAxes empty_axis)
  else Ok (AxesArray (replicate (nrows * ncols) empty_axis)).

(** [axes.ravel()]: only an array has it. *)
Definition axes_ravel (a : axes) : result (list axis) :=
  match a with
  | SingleAxes _ => Raise AttributeError
  | AxesArray l => Ok l
  end.

(** The [for] loop over [zip(axes.ravel(), images, titles)]; panels left
    over when the shortest sequence ends stay as they are. *)
Fixpoint show_panels (axs : list axis) (images : list (ndarray Qc))
    (titles : list string) (vmin vmax : Qc) : list axis :=
  match axs, images, titles with
  | _ :: axs', img :: images', label :: titles' =>
      Axis (Some (img, vmin, vmax)) label
        :: show_panels axs' images' titles' vmin vmax
  | _, _, _ => axs
  end.

(** The result is the row of panels of the figure. *)
Definition imshow_all (images : list raw_image) (titles : option (list string))
  : result (list axis) :=
  let images := img_as_float <$> images in
  let titles := match titles with
                | None => replicate (length images) EmptyString
                | Some t => t
                end in
  vmin ← result_mapM np_min images ≫= min_of;
  vmax ← result_mapM np_max images ≫= max_of;
  let ncols := length images in
  axes ← subplots 1 ncols;
  axs ← axes_ravel axes;
  Ok (show_panels axs images titles vmin vmax).

(* ===================================================================== *)
(** ** The mask as direct clamped-range assignment                        *)
(* ===================================================================== *)

(** A zero array of shape [(h, w)] in which the cells [(r, c)] with
    [max(i-size,0) ≤ r < min(i+size+1,h)] and
    [max(j-size,0) ≤ c < min(j+size+1,w)] are set to 1 and the cell
    [(i, j)] is then overwritten with 2. *)
Definition in_clamped_range (n : nat) (size : Z) (i r : nat) : bool :=
  bool_decide (Z.max (Z.of_nat i - size) 0 ≤ Z.of_nat r
               < Z.min (Z.of_nat i + size + 1) (Z.of_nat n))%Z.

Definition direct_mask (h w : nat) (size : Z) (i j : nat) : ndarray Z :=
  NdArray h w (tabulate2 h w (λ r c,
    if bool_decide (r = i ∧ c = j) then 2%Z
    else if in_clamped_range h size i r && in_clamped_range w size j c then 1%Z
    else 0%Z)).

(* ===================================================================== *)
(** ** Notions used to state the results                                  *)
(* ===================================================================== *)

(** The index built by [iter_kernel] at position [(i, j)] of an image of
    shape [(h, w)]. *)
Definition kernel_index (h w : nat) (size : Z) (i j : nat) : list slice :=
  bounded_slice [Z.of_nat i; Z.of_nat j] [Z.of_nat h; Z.of_nat w] size 0.

(** The first mask array after [mask[i, j] = 1]. *)
Definition marked_mask (h w i j : nat) : ndarray Z :=
  NdArray h w (alter (<[j := 1%Z]>) i (cells (np_zeros h w))).

(** The second mask array after [mask[i, j] = 2]. *)
Definition kernel_mask (h w : nat) (size : Z) (i j : nat) : ndarray Z :=
  let dilated := grey_dilation (marked_mask h w i j) (2 * size + 1) in
  NdArray (nrows dilated) (ncols dilated) (alter (<[j := 2%Z]>) i (cells dilated)).

(** A generator of [iter_kernel] that is suspended at its [yield] with the
    positions [todo] left, and one that has ended. *)
Definition kernel_iter_at (image : ref) (size : Z) (todo : list (nat * nat))
  : kernel_iter :=
  KernelIter image size (PixelIter image (Some todo)) false.

Definition kernel_iter_ended (image : ref) (size : Z) : kernel_iter :=
  KernelIter image size (PixelIter image (Some [])) true.

(** The [k]-th position in row-major order of an array with [w] columns. *)
Definition row_major (w k : nat) : nat * nat := (k / w, k mod w).


(** The clamped bounds [max(i - size, 0)] and [min(i + size + 1, n)]. *)
Definition clamp_lo (size : Z) (i : nat) : nat :=
  Z.to_nat (Z.max (Z.of_nat i - size) 0).
Definition clamp_hi (n : nat) (size : Z) (i : nat) : nat :=
  Z.to_nat (Z.min (Z.of_nat i + size + 1) (Z.of_nat n)).

(** The parts of a yielded triple, and of the outcome of [pull]. *)
Definition position_of (y : yielded) : nat * nat := y.1.1.
Definition mask_of (y : yielded) : ref := y.1.2.
Definition window_of (y : yielded) : view := y.2.

Definition yields_of (n : nat) (g : kernel_iter) (H : heap) : list yielded :=
  (pull n g H).1.1.1.
Definition raised_by (n : nat) (g : kernel_iter) (H : heap) : option exn :=
  (pull n g H).1.1.2.
Definition iter_after (n : nat) (g : kernel_iter) (H : heap) : kernel_iter :=
  (pull n g H).1.2.
Definition store_after (n : nat) (g : kernel_iter) (H : heap) : heap :=
  (pull n g H).2.

(** The two arrays one step of [iter_kernel] at position [p] adds to the
    store, and the triples yielded for the positions [ps] when the store
    holds [base] arrays at the start. *)
Definition step_cells (h w : nat) (size : Z) (p : nat * nat) : list cell :=
  [CInt (marked_mask h w p.1 p.2); CInt (kernel_mask h w size p.1 p.2)].

Fixpoint yields_from (image : ref) (h w : nat) (size : Z) (base : nat)
    (ps : list (nat * nat)) : list yielded :=
  match ps with
  | [] => []
  | p :: ps' =>
      (p, S base, View image (kernel_index h w size p.1 p.2))
        :: yields_from image h w size (2 + base) ps'
  end.

(** The contents of the triple for position [p] of the image [a]. *)
Definition triple_at (a : ndarray Qc) (size : Z) (p : nat * nat)
  : (nat * nat) * result (ndarray Z) * result (ndarray Qc) :=
  (p, Ok (kernel_mask (nrows a) (ncols a) size p.1 p.2),
   getitem_slices a (kernel_index (nrows a) (ncols a) size p.1 p.2)).

Definition in_range (a : ndarray Qc) (p : nat * nat) : Prop :=
  p.1 < nrows a ∧ p.2 < ncols a.

(** The window of the demo at the [k]-th position, the value the demo
    writes there, and the filtered image it stores in its [k]-th frame. *)
Definition demo_window (a : ndarray Qc) (k : nat) : ndarray Qc :=
  let p := row_major (ncols a) k in
  match getitem_slices a (kernel_index (nrows a) (ncols a) 1 p.1 p.2) with
  | Ok w => w
  | Raise _ => NdArray 0 0 []
  end.

Definition demo_value (a : ndarray Qc) (k : nat) : Qc :=
  astype dt (np_sum (np_scale mean_factor (demo_window a k))).

Fixpoint demo_frame (a : ndarray Qc) (k : nat) : ndarray Qc :=
  let prev := match k with 0 => a | S k' => demo_frame a k' end in
  let p := row_major (ncols a) k in
  NdArray (nrows prev) (ncols prev)
          (alter (<[p.2 := demo_value a k]>) p.1 (cells prev)).

(** The frame before the [k]-th one; the image itself before the first. *)
Definition demo_previous (a : ndarray Qc) (k : nat) : ndarray Qc :=
  match k with 0 => a | S k' => demo_frame a k' end.

(** The generator of a demo that holds [n] frames. *)
Definition demo_iter_ok (image : ref) (a : ndarray Qc) (n : nat)
    (g : kernel_iter) : Prop :=
  (n = 0 ∧ g = iter_kernel image 1%Z)
  ∨ (n ≤ nrows a * ncols a
     ∧ g = kernel_iter_at image 1%Z (drop n (pixel_positions (nrows a) (ncols a))))
  ∨ (n = nrows a * ncols a ∧ g = kernel_iter_ended image 1%Z).

(** The state of a demo on the image [a] stored at [image]. *)
Record demo_inv (image : ref) (a : ndarray Qc) (d : demo) (H : heap) : Prop := {
  inv_image : d_image d = image;
  inv_store : H !! image = Some (CFloat a);
  inv_iter : demo_iter_ok image a (length (d_cache d)) (d_iter d);
  inv_count : length (d_cache d) ≤ nrows a * ncols a;
  inv_frames : ∀ m e, d_cache d !! m = Some e →
      H !! e.2 = Some (CFloat (demo_frame a m))
      ∧ e.1 < length H ∧ e.2 ≠ image
      ∧ ∀ m' e', d_cache d !! m' = Some e' → e'.2 = e.2 → m' = m
}.

(** All the pixel values handed to [imshow_all], after conversion. *)
Definition all_pixels (images : list raw_image) : list Qc :=
  img ← images; ravel (img_as_float img).

(** The titles [imshow_all] uses. *)
Definition titles_used (n : nat) (titles : option (list string)) : list string :=
  match titles with
  | None => replicate n EmptyString
  | Some t => t
  end.

(** *** Sample data

    A 2 x 3 image with one bright pixel, and the [bright_square] of the
    notebook: a 7 x 7 image of zeros with a 3 x 3 block of ones. *)
Definition bright_pixel : ndarray Qc :=
  NdArray 2 3 ((λ row : list Z, Qc_of_Z <$> row) <$> [[0; 0; 0]; [0; 1; 0]]%Z).

Definition bright_square : ndarray Qc :=
  NdArray 7 7 ((λ row : list Z, Qc_of_Z <$> row) <$>
    [[0; 0; 0; 0; 0; 0; 0];
     [0; 0; 0; 0; 0; 0; 0];
     [0; 0; 1; 1; 1; 0; 0];
     [0; 0; 1; 1; 1; 0; 0];
     [0; 0; 1; 1; 1; 0; 0];
     [0; 0; 0; 0; 0; 0; 0];
     [0; 0; 0; 0; 0; 0; 0]]%Z).

(** A store that holds only the image. *)
Definition single_store (a : ndarray Qc) : heap := [CFloat a].

(** An overlay that records nothing. *)
Definition blank_overlay (m : ndarray Z) (a : ndarray Qc) : unit := tt.

(* ===================================================================== *)
(** ** Consumers of the helpers                                           *)
(* ===================================================================== *)

(** [n] successive calls of [next] on a generator made by [iter_pixels],
    stopping at the first exception: the items obtained, the exception if
    any, and the generator reached.  [iter_pixels] only reads the store. *)
Fixpoint pixel_pull (n : nat) (g : pixel_iter) (H : heap)
  : list (nat * nat * Qc) * option exn * pixel_iter :=
  match n with
  | 0 => ([], None, g)
  | S n' =>
      match pixel_iter_next g H with
      | (Ok y, g') =>
          let '(ys, e, g'') := pixel_pull n' g' H in (y :: ys, e, g'')
      | (Raise e, g') => ([], Some e, g')
      end
  end.

(** [n] successive calls of [next] on a generator made by [iter_pixels],
    going on after an exception: what each call gives. *)
Fixpoint pixel_calls (n : nat) (g : pixel_iter) (H : heap)
  : list (result (nat * nat * Qc)) :=
  match n with
  | 0 => []
  | S n' =>
      let '(r, g') := pixel_iter_next g H in r :: pixel_calls n' g' H
  end.

(** *** [mean_filter_interactive_demo]

    <<
    def mean_filter_interactive_demo(image):
        from ipywidgets import IntSlider, interact
        mean_filter_step = mean_filter_demo(image)
        step_slider = IntSlider(min=0, max=image.size-1, value=0)
        interact(mean_filter_step, i_step=step_slider)
    >>
    The two widgets are written out from the documented behaviour of
    ipywidgets.  An [IntSlider] keeps its value between [min] and [max]: a
    value outside is moved to the nearest bound, and a slider whose [max]
    is below its [min] cannot be made ([TraitError]).  [interact] shows the
    slider and calls the function with the value of the slider, once when
    the widget is shown and again each time the value changes; what the
    function raises is reported below the widget, which stays in use. *)
Record int_slider := IntSlider { sl_min : Z; sl_max : Z; sl_value : Z }.

Definition slider_bound (lo hi v : Z) : Z := Z.min (Z.max v lo) hi.

Definition new_slider (lo hi v : Z) : option int_slider :=
  if decide (hi < lo)%Z then None
  else Some (IntSlider lo hi (slider_bound lo hi v)).

(** The slider is dragged to [v]. *)
Definition slider_move (s : int_slider) (v : Z) : int_slider :=
  IntSlider (sl_min s) (sl_max s) (slider_bound (sl_min s) (sl_max s) v).

(** A widget in use: its slider, the closure it calls, and the calls made
    so far, each with the value passed and what came back. *)
Record session := Session {
  s_slider : int_slider;
  s_demo : demo;
  s_calls : list (Z * result (ref * ref))
}.

Fixpoint slider_moves (moves : list Z) (w : session) (H : heap) : session * heap :=
  match moves with
  | [] => (w, H)
  | v :: moves' =>
      let s' := slider_move (s_slider w) v in
      if decide (sl_value s' = sl_value (s_slider w)) then slider_moves moves' w H
      else
        let '(r, d', H') := mean_filter_step (sl_value s') (s_demo w) H in
        slider_moves moves' (Session s' d' (s_calls w ++ [(sl_value s', r)])) H'
  end.

(** [interact(f, i_step=slider)], followed by the moves of the user. *)
Definition interact (d : demo) (s : int_slider) (moves : list Z) (H : heap)
  : session * heap :=
  let '(r, d', H') := mean_filter_step (sl_value s) d H in
  slider_moves moves (Session s d' [(sl_value s, r)]) H'.

(** What comes of starting the interactive demo. *)
Inductive started :=
  | Running (w : session)
  | TraitError
  | Failed (e : exn).

(** [image.size] is the number of elements of the image. *)
Definition mean_filter_interactive_demo (image : ref) (moves : list Z) (H : heap)
  : started * heap :=
  let mean_filter_step := mean_filter_demo image in
  match read_float image H with
  | (Raise e, H') => (Failed e, H')
  | (Ok a, H') =>
      match new_slider 0 (Z.of_nat (nrows a * ncols a) - 1) 0 with
      | None => (TraitError, H')
      | Some step_slider =>
          let '(w, H'') := interact mean_filter_step step_slider moves H' in
          (Running w, H'')
      end
  end.

(** *** Notions used to state the further results *)

(** The overlays of a demo on the image [a]: the overlay of frame [m] is
    made from the kernel mask at the [m]-th position and from the image. *)
Definition demo_overlays (a : ndarray Qc) (d : demo) (H : heap) : Prop :=
  ∀ m e, d_cache d !! m = Some e →
    H !! e.1
    = Some (CRgb (label2rgb
                    (kernel_mask (nrows a) (ncols a) 1
                       (row_major (ncols a) m).1 (row_major (ncols a) m).2) a)).

(** The pixel of [a] at a position. *)
Definition pixel_at (a : ndarray Qc) (p : nat * nat) : Qc := at2 0%Qc a p.1 p.2.

(** A slider in use on an image of [total] pixels. *)
Definition slider_ok (total : nat) (s : int_slider) : Prop :=
  sl_min s = 0%Z ∧ sl_max s = (Z.of_nat total - 1)%Z
  ∧ (0 ≤ sl_value s < Z.of_nat total)%Z.

(** The index of the cache that a call with step [i_step] reads. *)
Definition cache_index (len : nat) (i_step : Z) : nat :=
  Z.to_nat (if decide (i_step < 0)%Z then Z.of_nat len + i_step else i_step)%Z.

(** Two closures made by two calls of [mean_filter_demo], used in turn:
    a call is marked [true] when it goes to the first closure and [false]
    when it goes to the second.  Both work on the one store. *)
Fixpoint two_demos (calls : list (bool * Z)) (d1 d2 : demo) (H : heap)
  : demo * demo * heap :=
  match calls with
  | [] => (d1, d2, H)
  | (true, i_step) :: calls' =>
      let '(_, d1', H') := mean_filter_step i_step d1 H in
      two_demos calls' d1' d2 H'
  | (false, i_step) :: calls' =>
      let '(_, d2', H') := mean_filter_step i_step d2 H in
      two_demos calls' d1 d2' H'
  end.

(** The calls that go to one of the two closures. *)
Fixpoint calls_of (b : bool) (calls : list (bool * Z)) : list Z :=
  match calls with
  | [] => []
  | (b', i_step) :: calls' =>
      if Bool.eqb b' b then i_step :: calls_of b calls' else calls_of b calls'
  end.

Definition closure_of (b : bool) (p : demo * demo) : demo :=
  if b then p.1 else p.2.

(** The number of frames in the cache after a call with step [i_step], on
    an image of [total] pixels and a cache of [len] frames. *)
Definition frames_after (total len : nat) (i_step : Z) : nat :=
  if decide (i_step < 0)%Z then len
  else if decide (len = 0 ∧ i_step ≠ 0%Z) then 0
  else if decide (i_step < Z.of_nat total)%Z then len `max` (Z.to_nat i_step + 1)
  else total.



(* ===================================================================== *)
(** * Results                                                             *)
(* ===================================================================== *)

(** ** Arrays *)

Lemma tabulate2_lookup {A} h w (f : nat → nat → A) r :
  r < h → tabulate2 h w f !! r = Some ((λ c, f r c) <$> seq 0 w).
Proof.
  intros Hr. unfold tabulate2.
  by rewrite list_lookup_fmap, lookup_seq_lt.
Qed.

Lemma at2_tabulate2 {A} (d : A) h w f r c :
  r < h → c < w → at2 d (NdArray h w (tabulate2 h w f)) r c = f r c.
Proof.
  intros Hr Hc. unfold at2; simpl.
  rewrite tabulate2_lookup by done. simpl.
  by rewrite list_lookup_fmap, lookup_seq_lt.
Qed.

Lemma wf_tabulate2 {A} h w (f : nat → nat → A) :
  wf_ndarray (NdArray h w (tabulate2 h w f)).
Proof.
  split; simpl.
  - unfold tabulate2. by rewrite length_fmap, length_seq.
  - unfold tabulate2. apply Forall_fmap, Forall_forall. intros r _. simpl.
    by rewrite length_fmap, length_seq.
Qed.

Lemma wf_lookup_row {A} (a : ndarray A) r :
  wf_ndarray a → r < nrows a →
  ∃ row, cells a !! r = Some row ∧ length row = ncols a.
Proof.
  intros [Hlen Hrows] Hr.
  destruct (lookup_lt_is_Some_2 (cells a) r) as [row Hrow]; [lia|].
  exists row. split; [done|].
  by apply (Forall_lookup_1 _ _ _ _ Hrows Hrow).
Qed.

Lemma wf_lookup_cell {A} (a : ndarray A) r c :
  wf_ndarray a → r < nrows a → c < ncols a →
  ∃ x, cells a !! r ≫= (.!! c) = Some x.
Proof.
  intros Hwf Hr Hc.
  destruct (wf_lookup_row a r Hwf Hr) as (row & Hrow & Hlen).
  destruct (lookup_lt_is_Some_2 row c) as [x Hx]; [lia|].
  exists x. by rewrite Hrow.
Qed.

(** Two arrays of the same shape with the same cells are equal. *)
Lemma ndarray_ext {A} (d : A) (a b : ndarray A) :
  wf_ndarray a → wf_ndarray b →
  nrows a = nrows b → ncols a = ncols b →
  (∀ r c, r < nrows a → c < ncols a → at2 d a r c = at2 d b r c) →
  a = b.
Proof.
  destruct a as [h w la], b as [h' w' lb]; simpl.
  intros Hwa Hwb -> -> Heq. f_equal.
  apply list_eq. intros r.
  destruct (decide (r < h')) as [Hr|Hr].
  - destruct (wf_lookup_row _ r Hwa Hr) as (ra & Hra & Hla).
    destruct (wf_lookup_row _ r Hwb Hr) as (rb & Hrb & Hlb).
    simpl in *. rewrite Hra, Hrb. f_equal.
    apply list_eq. intros c.
    destruct (decide (c < w')) as [Hc|Hc].
    + specialize (Heq r c Hr Hc). unfold at2 in Heq; simpl in Heq.
      rewrite Hra, Hrb in Heq; simpl in Heq.
      destruct (lookup_lt_is_Some_2 ra c) as [x Hx]; [lia|].
      destruct (lookup_lt_is_Some_2 rb c) as [y Hy]; [lia|].
      rewrite Hx, Hy in *. simpl in Heq. by subst.
    + rewrite !lookup_ge_None_2 by lia. done.
  - destruct Hwa as [Ha _], Hwb as [Hb _]; simpl in *.
    rewrite !lookup_ge_None_2 by lia. done.
Qed.

Lemma wf_alter {A} h w (l : list (list A)) i j v :
  wf_ndarray (NdArray h w l) →
  wf_ndarray (NdArray h w (alter (<[j := v]>) i l)).
Proof.
  intros [Hlen Hrows]; simpl in *. split; simpl.
  - by rewrite length_alter.
  - apply Forall_alter; [done|]. intros row _ Hrow. by rewrite length_insert.
Qed.

Lemma at2_alter {A} (d : A) h w (l : list (list A)) i j v r c :
  wf_ndarray (NdArray h w l) → i < h → j < w →
  at2 d (NdArray h w (alter (<[j := v]>) i l)) r c
  = if decide (r = i ∧ c = j) then v else at2 d (NdArray h w l) r c.
Proof.
  intros Hwf Hi Hj. unfold at2; simpl.
  destruct (wf_lookup_row _ i Hwf Hi) as (row & Hrow & Hlen); simpl in *.
  destruct (decide (r = i)) as [->|Hne].
  - rewrite list_lookup_alter_eq, Hrow. simpl.
    destruct (decide (c = j)) as [->|Hcj].
    + rewrite list_lookup_insert_eq by lia. by rewrite decide_True.
    + rewrite list_lookup_insert_ne by done. rewrite decide_False by tauto. done.
  - rewrite list_lookup_alter_ne by done. rewrite decide_False by tauto. done.
Qed.

Lemma setitem_ok {A} (a : ndarray A) i j v :
  i < nrows a → j < ncols a →
  setitem a i j v = Ok (NdArray (nrows a) (ncols a) (alter (<[j := v]>) i (cells a))).
Proof. intros. unfold setitem. by rewrite decide_True. Qed.

Lemma getitem_ok {A} (d : A) (a : ndarray A) i j :
  wf_ndarray a → i < nrows a → j < ncols a →
  getitem a i j = Ok (at2 d a i j).
Proof.
  intros Hwf Hi Hj. unfold getitem, at2.
  destruct (wf_lookup_cell a i j Hwf Hi Hj) as [x ->]. done.
Qed.

Lemma wf_np_zeros h w : wf_ndarray (np_zeros h w).
Proof.
  split; simpl.
  - by rewrite length_replicate.
  - apply Forall_replicate. by rewrite length_replicate.
Qed.

Lemma at2_np_zeros h w r c : at2 0%Z (np_zeros h w) r c = 0%Z.
Proof.
  unfold at2; simpl.
  destruct (decide (r < h)).
  - rewrite lookup_replicate_2 by done. simpl.
    destruct (decide (c < w)).
    + by rewrite lookup_replicate_2.
    + by rewrite lookup_ge_None_2 by (rewrite length_replicate; lia).
  - by rewrite lookup_ge_None_2 by (rewrite length_replicate; lia).
Qed.

Lemma wf_marked_mask h w i j : wf_ndarray (marked_mask h w i j).
Proof. apply wf_alter, wf_np_zeros. Qed.

Lemma at2_marked_mask h w i j r c :
  i < h → j < w →
  at2 0%Z (marked_mask h w i j) r c = if decide (r = i ∧ c = j) then 1%Z else 0%Z.
Proof.
  intros Hi Hj. unfold marked_mask.
  rewrite at2_alter by (done || apply wf_np_zeros).
  case_decide; [done|]. apply at2_np_zeros.
Qed.

(** ** The boundary mode of the filter *)

Lemma reflect_lt n x : 0 < n → reflect n x < n.
Proof.
  intros Hn. unfold reflect.
  pose proof (Z.mod_pos_bound x (2 * Z.of_nat n) ltac:(lia)) as Hm.
  destruct (Z.ltb_spec (x mod (2 * Z.of_nat n)) (Z.of_nat n)); lia.
Qed.

Lemma reflect_inside n (x : nat) : x < n → reflect n (Z.of_nat x) = x.
Proof.
  intros Hx. unfold reflect.
  rewrite Z.mod_small by lia.
  destruct (Z.ltb_spec (Z.of_nat x) (Z.of_nat n)); lia.
Qed.

(** Reflection never moves a point away from a point of the line. *)
Lemma reflect_near n (x : nat) (y : Z) :
  x < n →
  (Z.abs (Z.of_nat (reflect n y) - Z.of_nat x) ≤ Z.abs (y - Z.of_nat x))%Z.
Proof.
  intros Hx. unfold reflect.
  pose proof (Z.mod_pos_bound y (2 * Z.of_nat n) ltac:(lia)) as Hm.
  pose proof (Z.div_mod y (2 * Z.of_nat n) ltac:(lia)) as Hdm.
  set (m := (y mod (2 * Z.of_nat n))%Z) in *.
  set (q := (y / (2 * Z.of_nat n))%Z) in *.
  clearbody m q.
  destruct (Z.ltb_spec m (Z.of_nat n)); rewrite Z2Nat.id by lia.
  - assert (q = 0 ∨ q ≤ -1 ∨ 1 ≤ q)%Z as [->|[Hq|Hq]] by lia; [lia|nia..].
  - assert (q = 0 ∨ q = -1 ∨ q ≤ -2 ∨ 1 ≤ q)%Z as [->|[->|[Hq|Hq]]] by lia;
      [lia|lia|nia..].
Qed.

(** ** The maximum over a window *)

Lemma foldr_Zmax_two (v x : Z) (l : list Z) :
  (0 ≤ v)%Z →
  Forall (λ y, y = 0%Z ∨ y = v) (x :: l) →
  (foldr Z.max x l = v ∧ v ∈ x :: l) ∨ (foldr Z.max x l = 0%Z ∧ Forall (λ y, y = 0%Z) (x :: l)).
Proof.
  intros Hv. induction l as [|y l IH]; intros Hall; simpl.
  - apply Forall_cons in Hall as [[->| ->] _].
    + right. split; [done|]. by constructor.
    + left. split; [done|]. by left.
  - apply Forall_cons in Hall as [Hx Hall].
    apply Forall_cons in Hall as [Hy Hall].
    destruct (IH (Forall_cons_2 _ _ _ Hx Hall)) as [[Heq Hin]|[Heq Hz]]; rewrite Heq.
    + left. split; [destruct Hy; lia|].
      apply elem_of_cons in Hin as [->|Hin]; [by left|]. by do 2 right.
    + apply Forall_cons in Hz as [Hx0 Hz].
      destruct Hy as [->| ->].
      * right. split; [lia|]. by repeat constructor.
      * left. split; [lia|]. right; by left.
Qed.

Lemma Zmax_list_hit (v : Z) (l : list Z) :
  (0 ≤ v)%Z → Forall (λ y, y = 0%Z ∨ y = v) l → v ∈ l → Zmax_list 0 l = v.
Proof.
  intros Hv Hall Hin. destruct l as [|x l]; [by apply elem_of_nil in Hin|].
  simpl. destruct (foldr_Zmax_two v x l Hv Hall) as [[-> _]|[-> Hz]]; [done|].
  symmetry. by apply (proj1 (Forall_forall _ _) Hz v).
Qed.

Lemma Zmax_list_miss (l : list Z) :
  Forall (λ y, y = 0%Z) l → Zmax_list 0 l = 0%Z.
Proof.
  intros Hall. destruct l as [|x l]; [done|]. simpl.
  destruct (foldr_Zmax_two 0 x l ltac:(lia)) as [[-> _]|[-> _]]; [|done..].
  eapply Forall_impl; [exact Hall|]. simpl. tauto.
Qed.

Lemma window_offsets_odd (s o : Z) :
  (0 ≤ s)%Z → o ∈ window_offsets (2 * s + 1) 0 ↔ (- s ≤ o ≤ s)%Z.
Proof.
  intros Hs. unfold window_offsets.
  replace ((2 * s + 1) / 2)%Z with s
    by (apply (Z.div_unique _ _ _ 1); lia).
  rewrite list_elem_of_fmap. split.
  - intros (k & -> & Hk). apply elem_of_seqZ in Hk. lia.
  - intros Ho. exists (o + s)%Z. split; [lia|]. apply elem_of_seqZ. lia.
Qed.

(** A line that is [v] at [i] and 0 elsewhere, filtered with half-width
    [s]: the result is [v] within distance [s] of [i] and 0 elsewhere. *)
Lemma dilate_line n (s : Z) (i x : nat) (v : Z) (f : nat → Z) :
  (0 ≤ s)%Z → i < n → x < n → (0 ≤ v)%Z →
  (∀ y, y < n → f y = if decide (y = i) then v else 0%Z) →
  Zmax_list 0 ((λ o, f (reflect n (Z.of_nat x + o))) <$> window_offsets (2 * s + 1) 0)
  = if decide (Z.abs (Z.of_nat x - Z.of_nat i) ≤ s)%Z then v else 0%Z.
Proof.
  intros Hs Hi Hx Hv Hf.
  assert (∀ o, f (reflect n (Z.of_nat x + o)) = 0%Z ∨ f (reflect n (Z.of_nat x + o)) = v)
    as Htwo.
  { intros o. rewrite Hf by (apply reflect_lt; lia). case_decide; tauto. }
  case_decide as Hd.
  - apply Zmax_list_hit; [done| |].
    + apply Forall_fmap, Forall_forall. intros o _. apply Htwo.
    + apply list_elem_of_fmap. exists (Z.of_nat i - Z.of_nat x)%Z. split.
      * replace (Z.of_nat x + (Z.of_nat i - Z.of_nat x))%Z with (Z.of_nat i) by lia.
        rewrite reflect_inside, Hf by done. by rewrite decide_True.
      * apply window_offsets_odd; lia.
  - apply Zmax_list_miss, Forall_fmap, Forall_forall. intros o Ho. simpl.
    apply window_offsets_odd in Ho; [|done].
    rewrite Hf by (apply reflect_lt; lia).
    case_decide as Heq; [|done]. exfalso.
    pose proof (reflect_near n x (Z.of_nat x + o) Hx) as Hnear.
    rewrite Heq in Hnear. lia.
Qed.

(** ** The dilated mask *)

Lemma ndarray_eta {A} (a : ndarray A) : NdArray (nrows a) (ncols a) (cells a) = a.
Proof. by destruct a. Qed.

Lemma grey_dilation_shape a size :
  nrows (grey_dilation a size) = nrows a ∧ ncols (grey_dilation a size) = ncols a.
Proof. unfold grey_dilation. by destruct (1 <? size)%Z. Qed.

Lemma wf_grey_dilation a size : wf_ndarray a → wf_ndarray (grey_dilation a size).
Proof.
  intros Hwf. unfold grey_dilation. destruct (1 <? size)%Z.
  - apply wf_tabulate2.
  - by rewrite ndarray_eta.
Qed.

Lemma odd_width_origin (s : Z) : dilation_origin (2 * s + 1) = 0%Z.
Proof.
  unfold dilation_origin.
  by rewrite Z.add_comm, Z.even_add_mul_2.
Qed.

Lemma grey_dilation_marked h w (s : Z) i j r c :
  (0 ≤ s)%Z → i < h → j < w → r < h → c < w →
  at2 0%Z (grey_dilation (marked_mask h w i j) (2 * s + 1)) r c
  = if decide (Z.abs (Z.of_nat r - Z.of_nat i) ≤ s
               ∧ Z.abs (Z.of_nat c - Z.of_nat j) ≤ s)%Z
    then 1%Z else 0%Z.
Proof.
  intros Hs Hi Hj Hr Hc. unfold grey_dilation.
  destruct (Z.ltb_spec 1 (2 * s + 1)) as [Hbig|Hsmall].
  - rewrite odd_width_origin.
    unfold maximum_filter_axis1. simpl nrows. simpl ncols.
    rewrite at2_tabulate2 by done.
    rewrite (dilate_line w s j c
               (if decide (Z.abs (Z.of_nat r - Z.of_nat i) ≤ s)%Z then 1 else 0)%Z);
      [|done..| |].
    + repeat case_decide; done || lia.
    + case_decide; lia.
    + intros y Hy. unfold maximum_filter_axis0. simpl nrows. simpl ncols.
      rewrite at2_tabulate2 by done.
      rewrite (dilate_line h s i r (if decide (y = j) then 1 else 0)%Z
                 (λ r', at2 0%Z (marked_mask h w i j) r' y));
        [|done..| |].
      * repeat case_decide; done.
      * case_decide; lia.
      * intros r' Hr'. rewrite at2_marked_mask by done.
        repeat case_decide; done || tauto.
  - assert (s = 0%Z) as -> by lia.
    change (NdArray (nrows (marked_mask h w i j)) (ncols (marked_mask h w i j))
                    (cells (marked_mask h w i j)))
      with (marked_mask h w i j).
    rewrite at2_marked_mask by done.
    repeat case_decide; done || lia.
Qed.

Lemma grey_dilation_narrow a (size : Z) :
  (size ≤ 1)%Z → grey_dilation a size = a.
Proof.
  intros Hs. unfold grey_dilation.
  destruct (Z.ltb_spec 1 size); [lia|]. apply ndarray_eta.
Qed.

Lemma kernel_mask_shape h w size i j :
  nrows (kernel_mask h w size i j) = h ∧ ncols (kernel_mask h w size i j) = w.
Proof.
  unfold kernel_mask; simpl.
  destruct (grey_dilation_shape (marked_mask h w i j) (2 * size + 1)) as [-> ->].
  done.
Qed.

Lemma wf_kernel_mask h w size i j : wf_ndarray (kernel_mask h w size i j).
Proof.
  unfold kernel_mask. apply wf_alter. rewrite ndarray_eta.
  apply wf_grey_dilation, wf_marked_mask.
Qed.

Lemma kernel_mask_at_dilated h w size i j r c :
  i < h → j < w →
  at2 0%Z (kernel_mask h w size i j) r c
  = if decide (r = i ∧ c = j) then 2%Z
    else at2 0%Z (grey_dilation (marked_mask h w i j) (2 * size + 1)) r c.
Proof.
  intros Hi Hj. unfold kernel_mask.
  pose proof (wf_grey_dilation _ (2 * size + 1) (wf_marked_mask h w i j)) as Hwf.
  destruct (grey_dilation_shape (marked_mask h w i j) (2 * size + 1)) as [Hh Hw].
  simpl in Hh, Hw.
  destruct (grey_dilation (marked_mask h w i j) (2 * size + 1)) as [h' w' l].
  simpl in *. subst h' w'. by apply at2_alter.
Qed.

(** The cells of the mask for a half-width that is not negative. *)
Lemma kernel_mask_at h w (size : Z) i j r c :
  (0 ≤ size)%Z → i < h → j < w → r < h → c < w →
  at2 0%Z (kernel_mask h w size i j) r c
  = if decide (r = i ∧ c = j) then 2%Z
    else if decide (Z.abs (Z.of_nat r - Z.of_nat i) ≤ size
                    ∧ Z.abs (Z.of_nat c - Z.of_nat j) ≤ size)%Z
         then 1%Z else 0%Z.
Proof.
  intros. rewrite kernel_mask_at_dilated by done.
  by rewrite grey_dilation_marked.
Qed.

(** The cells of the mask for a half-width that is not positive: the
    filter copies its input. *)
Lemma kernel_mask_at_nonpos h w (size : Z) i j r c :
  (size ≤ 0)%Z → i < h → j < w →
  at2 0%Z (kernel_mask h w size i j) r c
  = if decide (r = i ∧ c = j) then 2%Z else 0%Z.
Proof.
  intros Hs Hi Hj. rewrite kernel_mask_at_dilated by done.
  rewrite grey_dilation_narrow by lia.
  rewrite at2_marked_mask by done.
  repeat case_decide; done.
Qed.

Lemma in_clamped_range_near n (size : Z) (i r : nat) :
  (0 ≤ size)%Z → i < n → r < n →
  in_clamped_range n size i r
  = bool_decide (Z.abs (Z.of_nat r - Z.of_nat i) ≤ size)%Z.
Proof.
  intros. unfold in_clamped_range. apply bool_decide_ext. lia.
Qed.

Lemma wf_direct_mask h w size i j : wf_ndarray (direct_mask h w size i j).
Proof. apply wf_tabulate2. Qed.

Lemma direct_mask_at h w size i j r c :
  r < h → c < w →
  at2 0%Z (direct_mask h w size i j) r c
  = if bool_decide (r = i ∧ c = j) then 2%Z
    else if in_clamped_range h size i r && in_clamped_range w size j c
         then 1%Z else 0%Z.
Proof. intros. unfold direct_mask. by rewrite at2_tabulate2. Qed.

(** The mask built with the dilation is the mask built by assigning the
    clamped ranges. *)
Lemma kernel_mask_direct h w (size : Z) i j :
  (0 ≤ size)%Z → i < h → j < w →
  kernel_mask h w size i j = direct_mask h w size i j.
Proof.
  intros Hs Hi Hj.
  destruct (kernel_mask_shape h w size i j) as [Hh Hw].
  apply (ndarray_ext 0%Z).
  - apply wf_kernel_mask.
  - apply wf_direct_mask.
  - by rewrite Hh.
  - by rewrite Hw.
  - rewrite Hh, Hw. intros r c Hr Hc.
    rewrite kernel_mask_at, direct_mask_at by done.
    rewrite !in_clamped_range_near by done.
    repeat (case_decide || case_bool_decide); simpl; done || tauto.
Qed.

(** ** Computations on the store *)

Lemma bind_ok {A B} (m : M A) (k : A → M B) H a H' :
  m H = (Ok a, H') → (m ≫= k) H = k a H'.
Proof. intros E. unfold mbind, M_bind. by rewrite E. Qed.

Lemma bind_raise {A B} (m : M A) (k : A → M B) H e H' :
  m H = (Raise e, H') → (m ≫= k) H = (Raise e, H').
Proof. intros E. unfold mbind, M_bind. by rewrite E. Qed.

Lemma read_cell_eq H r c : H !! r = Some c → read_cell r H = (Ok c, H).
Proof. intros E. unfold read_cell. by rewrite E. Qed.

Lemma read_float_eq H r a : H !! r = Some (CFloat a) → read_float r H = (Ok a, H).
Proof.
  intros E. unfold read_float. by rewrite (bind_ok _ _ _ _ _ (read_cell_eq _ _ _ E)).
Qed.

Lemma read_int_eq H r a : H !! r = Some (CInt a) → read_int r H = (Ok a, H).
Proof.
  intros E. unfold read_int. by rewrite (bind_ok _ _ _ _ _ (read_cell_eq _ _ _ E)).
Qed.

Lemma setitem_int_eq H r a i j v :
  H !! r = Some (CInt a) → i < nrows a → j < ncols a →
  setitem_int r i j v H
  = (Ok (), <[r := CInt (NdArray (nrows a) (ncols a)
                                 (alter (<[j := v]>) i (cells a)))]> H).
Proof.
  intros E Hi Hj. unfold setitem_int.
  rewrite (bind_ok _ _ _ _ _ (read_int_eq _ _ _ E)).
  unfold lift. erewrite bind_ok; [|by rewrite setitem_ok]. done.
Qed.

Lemma setitem_float_eq H r a i j v :
  H !! r = Some (CFloat a) → i < nrows a → j < ncols a →
  setitem_float r i j v H
  = (Ok (), <[r := CFloat (NdArray (nrows a) (ncols a)
                                   (alter (<[j := astype dt v]>) i (cells a)))]> H).
Proof.
  intros E Hi Hj. unfold setitem_float.
  rewrite (bind_ok _ _ _ _ _ (read_float_eq _ _ _ E)).
  unfold lift. erewrite bind_ok; [|by rewrite setitem_ok]. done.
Qed.

Lemma lookup_app_new {A} (l : list A) x k n :
  n = length l → (l ++ x :: k) !! n = Some x.
Proof. intros ->. by rewrite lookup_app_r, Nat.sub_diag. Qed.

Lemma insert_app_new {A} (l : list A) x y k n :
  n = length l → <[n := y]> (l ++ x :: k) = l ++ y :: k.
Proof.
  intros ->. rewrite <-(Nat.add_0_r (length l)). by rewrite insert_app_r.
Qed.

Lemma kernel_index_ok {A} (a : ndarray A) h w size i j :
  getitem_slices a (kernel_index h w size i j)
  = Ok (NdArray
          (slice_len (nrows a)
             (Slice (Z.max (Z.of_nat i - size) 0) (Z.min (Z.of_nat i + size + 1) (Z.of_nat h))))
          (slice_len (ncols a)
             (Slice (Z.max (Z.of_nat j - size) 0) (Z.min (Z.of_nat j + size + 1) (Z.of_nat w))))
          (slice_list
             (Slice (Z.max (Z.of_nat j - size) 0) (Z.min (Z.of_nat j + size + 1) (Z.of_nat w)))
           <$> slice_list
                 (Slice (Z.max (Z.of_nat i - size) 0) (Z.min (Z.of_nat i + size + 1) (Z.of_nat h)))
                 (cells a))).
Proof. done. Qed.

Lemma getitem_view_eq H r a index x :
  H !! r = Some (CFloat a) → getitem_slices a index = Ok x →
  getitem_view r index H = (Ok (View r index), H).
Proof.
  intros E Hx. unfold getitem_view.
  rewrite (bind_ok _ _ _ _ _ (read_float_eq _ _ _ E)).
  unfold lift. erewrite bind_ok; [|by rewrite Hx]. done.
Qed.

Lemma read_view_eq H v a :
  H !! v_base v = Some (CFloat a) →
  read_view v H = (getitem_slices a (v_index v), H).
Proof.
  intros E. unfold read_view.
  by rewrite (bind_ok _ _ _ _ _ (read_float_eq _ _ _ E)).
Qed.

(** One run of the loop body of [iter_kernel]. *)
Lemma iter_kernel_body_ok H image a size i j :
  H !! image = Some (CFloat a) → i < nrows a → j < ncols a →
  iter_kernel_body image size i j H
  = (Ok (i, j, S (length H),
         View image (kernel_index (nrows a) (ncols a) size i j)),
     H ++ step_cells (nrows a) (ncols a) size (i, j)).
Proof.
  intros E Hi Hj. unfold iter_kernel_body.
  rewrite (bind_ok _ _ _ _ _ (read_float_eq _ _ _ E)).
  unfold alloc. erewrite bind_ok; [|done].
  erewrite bind_ok; [|by apply setitem_int_eq; [apply lookup_app_new|..]].
  rewrite insert_app_new by done.
  change (NdArray _ _ _) with (marked_mask (nrows a) (ncols a) i j).
  erewrite bind_ok; [|by apply read_int_eq, lookup_app_new].
  erewrite bind_ok; [|done].
  destruct (grey_dilation_shape (marked_mask (nrows a) (ncols a) i j) (2 * size + 1))
    as [Hh Hw]. change (nrows (marked_mask _ _ _ _)) with (nrows a) in Hh.
  change (ncols (marked_mask _ _ _ _)) with (ncols a) in Hw.
  erewrite bind_ok; cycle 1.
  { apply setitem_int_eq.
    - apply lookup_app_new. done.
    - by rewrite Hh.
    - by rewrite Hw. }
  rewrite insert_app_new by done.
  erewrite bind_ok; cycle 1.
  { eapply getitem_view_eq; [|apply kernel_index_ok].
    by rewrite <-app_assoc; apply lookup_app_l_Some. }
  unfold mret, M_ret. f_equal.
  - rewrite length_app, Nat.add_1_r. done.
  - by rewrite <-app_assoc.
Qed.

(** ** The positions visited by [iter_pixels] *)

Lemma pixel_positions_S h w :
  pixel_positions (S h) w = pixel_positions h w ++ ((λ j, (h, j)) <$> seq 0 w).
Proof.
  unfold pixel_positions. rewrite seq_S, bind_app. simpl.
  by rewrite app_nil_r.
Qed.

Lemma length_pixel_positions h w : length (pixel_positions h w) = h * w.
Proof.
  induction h as [|h IH]; [done|].
  rewrite pixel_positions_S, length_app, IH, length_fmap, length_seq. lia.
Qed.

Lemma pixel_positions_lookup h w k :
  k < h * w → pixel_positions h w !! k = Some (row_major w k).
Proof.
  induction h as [|h IH]; intros Hk; [lia|].
  rewrite pixel_positions_S.
  destruct (decide (k < h * w)) as [Hlt|Hge].
  - rewrite lookup_app_l by (by rewrite length_pixel_positions). by apply IH.
  - rewrite lookup_app_r by (rewrite length_pixel_positions; lia).
    rewrite length_pixel_positions.
    rewrite list_lookup_fmap, lookup_seq_lt by lia. simpl.
    unfold row_major. f_equal. f_equal.
    + apply (Nat.div_unique _ _ _ (k - h * w)); lia.
    + apply (Nat.mod_unique _ _ h); lia.
Qed.

Lemma row_major_in_range h w k :
  k < h * w → (row_major w k).1 < h ∧ (row_major w k).2 < w.
Proof.
  intros Hk. unfold row_major; simpl.
  assert (w ≠ 0) by (intros ->; lia). split.
  - apply Nat.Div0.div_lt_upper_bound; lia.
  - by apply Nat.mod_upper_bound.
Qed.

Lemma row_major_inj w k k' : w ≠ 0 → row_major w k = row_major w k' → k = k'.
Proof.
  intros Hw [= Hd Hm].
  rewrite (Nat.div_mod_eq k w), (Nat.div_mod_eq k' w). by rewrite Hd, Hm.
Qed.

Lemma row_major_index w i j : j < w → row_major w (i * w + j) = (i, j).
Proof.
  intros Hj. unfold row_major. f_equal.
  - symmetry. apply (Nat.div_unique _ _ _ j); lia.
  - symmetry. apply (Nat.mod_unique _ _ i); lia.
Qed.

Lemma pixel_positions_in_range (a : ndarray Qc) :
  Forall (in_range a) (pixel_positions (nrows a) (ncols a)).
Proof.
  apply Forall_lookup. intros k p Hp.
  pose proof (lookup_lt_Some _ _ _ Hp) as Hk.
  rewrite length_pixel_positions in Hk.
  rewrite pixel_positions_lookup in Hp by done. injection Hp as <-.
  by apply row_major_in_range.
Qed.

Lemma NoDup_pixel_positions h w : NoDup (pixel_positions h w).
Proof.
  apply NoDup_alt. intros k k' p Hk Hk'.
  pose proof (lookup_lt_Some _ _ _ Hk) as Hlt.
  pose proof (lookup_lt_Some _ _ _ Hk') as Hlt'.
  rewrite length_pixel_positions in Hlt, Hlt'.
  rewrite pixel_positions_lookup in Hk, Hk' by done.
  apply (row_major_inj w); [intros ->; lia|]. congruence.
Qed.

Lemma elem_of_pixel_positions h w i j :
  i < h → j < w → (i, j) ∈ pixel_positions h w.
Proof.
  intros Hi Hj. apply list_elem_of_lookup. exists (i * w + j).
  rewrite pixel_positions_lookup by nia. by rewrite row_major_index.
Qed.

(** ** Advancing the generators *)

Lemma pixel_iter_next_at H image a i j rest :
  H !! image = Some (CFloat a) → wf_ndarray a → in_range a (i, j) →
  pixel_iter_next (PixelIter image (Some ((i, j) :: rest))) H
  = (Ok (i, j, at2 0%Qc a i j), PixelIter image (Some rest)).
Proof.
  intros E Hwf [Hi Hj]. unfold pixel_iter_next, pixel_iter_resume. simpl.
  rewrite (bind_ok _ _ _ _ _ (read_float_eq _ _ _ E)).
  unfold lift. by rewrite (getitem_ok 0%Qc).
Qed.

Lemma kernel_iter_next_at H image a size i j rest :
  H !! image = Some (CFloat a) → wf_ndarray a → in_range a (i, j) →
  kernel_iter_next (kernel_iter_at image size ((i, j) :: rest)) H
  = (Ok (i, j, S (length H),
         View image (kernel_index (nrows a) (ncols a) size i j)),
     kernel_iter_at image size rest,
     H ++ step_cells (nrows a) (ncols a) size (i, j)).
Proof.
  intros E Hwf Hin. unfold kernel_iter_next, kernel_iter_at. simpl ki_done.
  cbv iota. simpl ki_pixels.
  rewrite (pixel_iter_next_at _ _ a) by done.
  simpl ki_image. simpl ki_size.
  destruct Hin as [Hi Hj]. simpl in Hi, Hj.
  by rewrite (iter_kernel_body_ok _ _ a).
Qed.

Lemma kernel_iter_next_nil H image size :
  kernel_iter_next (kernel_iter_at image size []) H
  = (Raise StopIteration, kernel_iter_ended image size, H).
Proof. done. Qed.

Lemma kernel_iter_next_ended H image size :
  kernel_iter_next (kernel_iter_ended image size) H
  = (Raise StopIteration, kernel_iter_ended image size, H).
Proof. done. Qed.

(** The first [next] fixes the positions to visit. *)
Lemma kernel_iter_next_new H image a size :
  H !! image = Some (CFloat a) →
  kernel_iter_next (iter_kernel image size) H
  = kernel_iter_next
      (kernel_iter_at image size (pixel_positions (nrows a) (ncols a))) H.
Proof.
  intros E. unfold kernel_iter_next, iter_kernel, kernel_iter_at, iter_pixels.
  simpl. unfold pixel_iter_next. simpl.
  by rewrite (read_float_eq _ _ _ E).
Qed.

Lemma pull_S_new H image a size n :
  H !! image = Some (CFloat a) →
  pull (S n) (iter_kernel image size) H
  = pull (S n) (kernel_iter_at image size (pixel_positions (nrows a) (ncols a))) H.
Proof. intros E. simpl. by rewrite (kernel_iter_next_new _ _ a). Qed.

(** [n] calls of [next] on a suspended generator. *)
Lemma pull_at H image a size ps n :
  H !! image = Some (CFloat a) → wf_ndarray a → Forall (in_range a) ps →
  pull n (kernel_iter_at image size ps) H
  = (yields_from image (nrows a) (ncols a) size (length H) (take n ps),
     if decide (n ≤ length ps) then None else Some StopIteration,
     if decide (n ≤ length ps) then kernel_iter_at image size (drop n ps)
     else kernel_iter_ended image size,
     H ++ (take n ps ≫= step_cells (nrows a) (ncols a) size)).
Proof.
  intros E Hwf. revert H ps E.
  induction n as [|n IH]; intros H ps E Hps.
  - simpl. rewrite ?take_0, ?drop_0. simpl. by rewrite app_nil_r.
  - destruct ps as [|[i j] ps].
    + simpl. by rewrite app_nil_r.
    + apply Forall_cons in Hps as [Hp Hps].
      cbn [pull]. rewrite (kernel_iter_next_at _ _ a) by done.
      rewrite IH; [|by apply lookup_app_l_Some|done].
      rewrite length_app. simpl length.
      replace (length H + 2) with (2 + length H) by lia.
      cbn [take yields_from drop]. rewrite bind_cons, <-app_assoc.
      repeat case_decide; done || lia.
Qed.

(** What the triples hold once the [ps] steps have run. *)
Lemma observe_yields Hpre Hpost image a size ps :
  Hpre !! image = Some (CFloat a) →
  observe (Hpre ++ (ps ≫= step_cells (nrows a) (ncols a) size) ++ Hpost)
    <$> yields_from image (nrows a) (ncols a) size (length Hpre) ps
  = triple_at a size <$> ps.
Proof.
  revert Hpre. induction ps as [|p ps IH]; intros Hpre E; [done|].
  cbn [yields_from fmap list_fmap]. f_equal.
  - unfold observe, triple_at. f_equal; [f_equal|].
    + rewrite bind_cons. unfold step_cells at 1.
      erewrite read_int_eq; [done|].
      rewrite lookup_app_r by lia.
      by replace (S (length Hpre) - length Hpre) with 1 by lia.
    + erewrite read_view_eq; [done|]. simpl. by apply lookup_app_l_Some.
  - specialize (IH (Hpre ++ step_cells (nrows a) (ncols a) size p)).
    rewrite length_app in IH. simpl length in IH.
    replace (length Hpre + 2) with (2 + length Hpre) in IH by lia.
    rewrite bind_cons, <-app_assoc.
    rewrite <-app_assoc in IH. apply IH. by apply lookup_app_l_Some.
Qed.

(** ** Runs of [iter_kernel] *)

Lemma pull_ended H image size n :
  pull n (kernel_iter_ended image size) H
  = ([], if decide (n = 0) then None else Some StopIteration,
     kernel_iter_ended image size, H).
Proof. by destruct n. Qed.

(** [n] calls of [next] on a new generator. *)
Lemma pull_iter_kernel H image a size n :
  H !! image = Some (CFloat a) → wf_ndarray a →
  pull n (iter_kernel image size) H
  = (yields_from image (nrows a) (ncols a) size (length H)
       (take n (pixel_positions (nrows a) (ncols a))),
     if decide (n ≤ nrows a * ncols a) then None else Some StopIteration,
     if decide (n = 0) then iter_kernel image size
     else if decide (n ≤ nrows a * ncols a)
          then kernel_iter_at image size (drop n (pixel_positions (nrows a) (ncols a)))
          else kernel_iter_ended image size,
     H ++ (take n (pixel_positions (nrows a) (ncols a))
           ≫= step_cells (nrows a) (ncols a) size)).
Proof.
  intros E Hwf. destruct n as [|n].
  - simpl. rewrite app_nil_r. repeat case_decide; done || lia.
  - rewrite (pull_S_new _ _ a) by done.
    rewrite (pull_at _ _ a) by (done || apply pixel_positions_in_range).
    rewrite length_pixel_positions. repeat case_decide; done || lia.
Qed.

Lemma length_yields_from image h w size base ps :
  length (yields_from image h w size base ps) = length ps.
Proof.
  revert base. induction ps as [|p ps IH]; intros base; [done|].
  simpl. by rewrite IH.
Qed.

Lemma yields_from_lookup image h w size base ps k p :
  ps !! k = Some p →
  yields_from image h w size base ps !! k
  = Some (p, S (base + 2 * k), View image (kernel_index h w size p.1 p.2)).
Proof.
  revert base k. induction ps as [|q ps IH]; intros base k Hk; [done|].
  destruct k as [|k]; simpl in *.
  - injection Hk as ->. do 3 f_equal. lia.
  - rewrite (IH _ _ Hk). do 3 f_equal. lia.
Qed.

Lemma yields_from_lookup_inv image h w size base ps k y :
  yields_from image h w size base ps !! k = Some y →
  ∃ p, ps !! k = Some p
       ∧ y = (p, S (base + 2 * k), View image (kernel_index h w size p.1 p.2)).
Proof.
  intros Hy. pose proof (lookup_lt_Some _ _ _ Hy) as Hk.
  rewrite length_yields_from in Hk.
  destruct (lookup_lt_is_Some_2 ps k Hk) as [p Hp].
  exists p. split; [done|].
  rewrite (yields_from_lookup _ _ _ _ _ _ _ _ Hp) in Hy. congruence.
Qed.

Lemma yields_from_positions image h w size base ps :
  position_of <$> yields_from image h w size base ps = ps.
Proof.
  revert base. induction ps as [|p ps IH]; intros base; [done|].
  simpl. by rewrite IH.
Qed.

(** The arrays added for [ps] hold the masks at the references yielded. *)
Lemma step_cells_lookup H h w size ps k p :
  ps !! k = Some p →
  (H ++ (ps ≫= step_cells h w size)) !! S (length H + 2 * k)
  = Some (CInt (kernel_mask h w size p.1 p.2)).
Proof.
  revert H k. induction ps as [|q ps IH]; intros H k Hk; [done|].
  rewrite bind_cons. destruct k as [|k]; simpl in Hk.
  - injection Hk as ->. rewrite lookup_app_r by lia.
    by replace (S (length H + 2 * 0) - length H) with 1 by lia.
  - rewrite app_assoc.
    specialize (IH (H ++ step_cells h w size q) k Hk).
    rewrite length_app in IH. simpl length in IH.
    by replace (S (length H + 2 * S k)) with (S (length H + 2 + 2 * k)) by lia.
Qed.

(** A mask yielded earlier can be overwritten without any effect on the
    other triples. *)
Lemma observe_insert_ne (H : heap) r c (y : yielded) :
  mask_of y ≠ r → v_base (window_of y) ≠ r →
  observe (<[r := c]> H) y = observe H y.
Proof.
  destruct y as [[pos mask] sub]. unfold mask_of, window_of; simpl.
  intros Hm Hs. unfold observe, read_int, read_view, read_float, read_cell.
  unfold mbind, M_bind.
  rewrite !list_lookup_insert_ne by done.
  f_equal; [f_equal|].
  - destruct (H !! mask) as [[]|]; done.
  - destruct (H !! v_base sub) as [[]|]; done.
Qed.

(** ** Windows *)

Lemma slice_bound_inside n (x : Z) :
  (0 ≤ x ≤ Z.of_nat n)%Z → slice_bound n x = Z.to_nat x.
Proof.
  intros Hx. unfold slice_bound.
  destruct (Z.ltb_spec x 0); [lia|]. by rewrite Z.min_l by lia.
Qed.

Lemma length_slice_list {A} (l : list A) (lo hi : Z) :
  (0 ≤ lo)%Z → (0 ≤ hi ≤ Z.of_nat (length l))%Z →
  length (slice_list (Slice lo hi) l) = Z.to_nat hi - Z.to_nat lo.
Proof.
  intros Hlo Hhi. unfold slice_list, slice_len, slice_lo, slice_hi. simpl.
  rewrite length_take, length_drop.
  rewrite (slice_bound_inside _ hi) by done.
  unfold slice_bound. destruct (Z.ltb_spec lo 0); lia.
Qed.

Lemma slice_list_lookup {A} (l : list A) (lo hi : Z) k :
  (0 ≤ lo ≤ hi)%Z → (hi ≤ Z.of_nat (length l))%Z →
  k < Z.to_nat hi - Z.to_nat lo →
  slice_list (Slice lo hi) l !! k = l !! (Z.to_nat lo + k).
Proof.
  intros Hlo Hhi Hk. unfold slice_list, slice_len, slice_lo, slice_hi. simpl.
  rewrite !slice_bound_inside by lia.
  rewrite lookup_take_lt by done. by rewrite lookup_drop.
Qed.

(** The window cut out at an inner position, for a half-width that is not
    negative. *)
Lemma window_spec (a : ndarray Qc) (size : Z) i j :
  wf_ndarray a → (0 ≤ size)%Z → i < nrows a → j < ncols a →
  ∃ win,
    getitem_slices a (kernel_index (nrows a) (ncols a) size i j) = Ok win
    ∧ nrows win = clamp_hi (nrows a) size i - clamp_lo size i
    ∧ ncols win = clamp_hi (ncols a) size j - clamp_lo size j
    ∧ wf_ndarray win
    ∧ ∀ r c, r < nrows win → c < ncols win →
        at2 0%Qc win r c = at2 0%Qc a (clamp_lo size i + r) (clamp_lo size j + c).
Proof.
  intros [Hlen Hrows] Hs Hi Hj. rewrite kernel_index_ok.
  eexists. split; [done|]. unfold clamp_hi, clamp_lo. simpl.
  set (lo_r := Z.max (Z.of_nat i - size) 0).
  set (hi_r := Z.min (Z.of_nat i + size + 1) (Z.of_nat (nrows a))).
  set (lo_c := Z.max (Z.of_nat j - size) 0).
  set (hi_c := Z.min (Z.of_nat j + size + 1) (Z.of_nat (ncols a))).
  assert (0 ≤ lo_r ≤ hi_r ∧ hi_r ≤ Z.of_nat (nrows a))%Z as [Hr1 Hr2] by lia.
  assert (0 ≤ lo_c ≤ hi_c ∧ hi_c ≤ Z.of_nat (ncols a))%Z as [Hc1 Hc2] by lia.
  assert (slice_len (nrows a) (Slice lo_r hi_r) = Z.to_nat hi_r - Z.to_nat lo_r)
    as Hnr.
  { unfold slice_len, slice_hi, slice_lo. simpl.
    by rewrite !slice_bound_inside by lia. }
  assert (slice_len (ncols a) (Slice lo_c hi_c) = Z.to_nat hi_c - Z.to_nat lo_c)
    as Hnc.
  { unfold slice_len, slice_hi, slice_lo. simpl.
    by rewrite !slice_bound_inside by lia. }
  assert (∀ r row, slice_list (Slice lo_r hi_r) (cells a) !! r = Some row →
                   length row = ncols a) as Hrow.
  { intros r row Hlk. apply (Forall_lookup_1 _ _ (Z.to_nat lo_r + r) _ Hrows).
    rewrite <-Hlk. symmetry. apply slice_list_lookup; [lia..|].
    apply lookup_lt_Some in Hlk.
    rewrite length_slice_list in Hlk by lia. done. }
  split_and!; [done|done| |].
  - split; simpl.
    + rewrite length_fmap, length_slice_list by lia. by rewrite Hnr.
    + apply Forall_fmap, Forall_lookup. intros r row Hlk. simpl.
      rewrite length_slice_list by (rewrite ?(Hrow _ _ Hlk); lia).
      by rewrite Hnc.
  - rewrite Hnr, Hnc. intros r c Hr Hc. unfold at2; simpl.
    rewrite list_lookup_fmap, slice_list_lookup by lia.
    destruct (cells a !! (Z.to_nat lo_r + r)) as [row|] eqn:Hlk; [|done].
    simpl. rewrite slice_list_lookup; [done|lia| |done].
    rewrite (Forall_lookup_1 _ _ _ _ Hrows Hlk). lia.
Qed.

(** ** The triples of a run *)

Lemma yields_of_lookup H image a size n k y :
  H !! image = Some (CFloat a) → wf_ndarray a →
  yields_of n (iter_kernel image size) H !! k = Some y →
  let p := row_major (ncols a) k in
  k < n ∧ k < nrows a * ncols a ∧ in_range a p
  ∧ y = (p, S (length H + 2 * k),
         View image (kernel_index (nrows a) (ncols a) size p.1 p.2))
  ∧ store_after n (iter_kernel image size) H !! S (length H + 2 * k)
    = Some (CInt (kernel_mask (nrows a) (ncols a) size p.1 p.2))
  ∧ store_after n (iter_kernel image size) H !! image = Some (CFloat a).
Proof.
  intros E Hwf. unfold yields_of, store_after.
  rewrite (pull_iter_kernel _ _ a) by done. cbn [fst snd]. intros Hy.
  apply yields_from_lookup_inv in Hy as (p & Hp & ->).
  apply lookup_take_Some in Hp as [Hp Hk].
  pose proof (lookup_lt_Some _ _ _ Hp) as Hlt.
  rewrite length_pixel_positions in Hlt.
  rewrite pixel_positions_lookup in Hp by done. injection Hp as <-.
  split_and!; [done|done|by apply row_major_in_range|done| |].
  - apply step_cells_lookup. rewrite lookup_take_lt by done.
    by apply pixel_positions_lookup.
  - by apply lookup_app_l_Some.
Qed.

Lemma yields_of_positions H image a size n :
  H !! image = Some (CFloat a) → wf_ndarray a →
  position_of <$> yields_of n (iter_kernel image size) H
  = take n (pixel_positions (nrows a) (ncols a)).
Proof.
  intros E Hwf. unfold yields_of.
  rewrite (pull_iter_kernel _ _ a) by done. cbn [fst snd].
  apply yields_from_positions.
Qed.

Lemma raised_by_iter_kernel H image a size n :
  H !! image = Some (CFloat a) → wf_ndarray a →
  raised_by n (iter_kernel image size) H
  = if decide (n ≤ nrows a * ncols a) then None else Some StopIteration.
Proof.
  intros E Hwf. unfold raised_by.
  by rewrite (pull_iter_kernel _ _ a) by done.
Qed.

(** ** The sum of NumPy *)

Lemma pairwise_sum_unfold add fuel a :
  pairwise_sum add fuel a
  = let n := length a in
    if decide (n < 8) then foldl add 0%Qc a
    else if decide (n ≤ 128) then
      let r (j : nat) :=
        foldl add (default 0%Qc (a !! j))
          ((λ b, default 0%Qc (a !! (8 * b + j))) <$> seq 1 (n / 8 - 1)) in
      let res := add (add (add (r 0) (r 1)) (add (r 2) (r 3)))
                     (add (add (r 4) (r 5)) (add (r 6) (r 7))) in
      foldl add res (drop (n - n mod 8) a)
    else
      match fuel with
      | 0 => 0%Qc
      | S fuel' =>
          let n2 := n / 2 - (n / 2) mod 8 in
          add (pairwise_sum add fuel' (take n2 a))
              (pairwise_sum add fuel' (drop n2 a))
      end.
Proof. by destruct fuel. Qed.

(** The halving ends before the fuel does: with the length of the array as
    fuel, or more, the sum does not depend on the fuel. *)
Lemma pairwise_sum_fuel add f1 f2 a :
  length a ≤ f1 → length a ≤ f2 →
  pairwise_sum add f1 a = pairwise_sum add f2 a.
Proof.
  revert f2 a. induction f1 as [|f1 IH]; intros f2 a H1 H2.
  - rewrite !pairwise_sum_unfold. cbv zeta.
    destruct (decide (length a < 8)); [done|lia].
  - rewrite !pairwise_sum_unfold. cbv zeta.
    case_decide; [done|]. case_decide; [done|].
    destruct f2 as [|f2]; [lia|].
    assert (1 ≤ length a / 2 - (length a / 2) mod 8 < length a) as Hhalf.
    { pose proof (Nat.div_mod_eq (length a) 2).
      pose proof (Nat.mod_upper_bound (length a) 2).
      pose proof (Nat.mod_upper_bound (length a / 2) 8). lia. }
    f_equal; apply IH; rewrite ?length_take, ?length_drop; lia.
Qed.

(** ** The frames of the demo *)

Lemma demo_frame_unfold a k :
  demo_frame a k
  = NdArray (nrows (demo_previous a k)) (ncols (demo_previous a k))
      (alter (<[(row_major (ncols a) k).2 := demo_value a k]>)
             (row_major (ncols a) k).1 (cells (demo_previous a k))).
Proof. by destruct k. Qed.

Lemma demo_frame_shape a k :
  nrows (demo_frame a k) = nrows a ∧ ncols (demo_frame a k) = ncols a.
Proof.
  induction k as [|k IH]; [done|].
  rewrite demo_frame_unfold. cbn [nrows ncols demo_previous]. exact IH.
Qed.

Lemma demo_previous_shape a k :
  nrows (demo_previous a k) = nrows a ∧ ncols (demo_previous a k) = ncols a.
Proof. destruct k; [done|]. apply demo_frame_shape. Qed.

Lemma wf_demo_frame a k : wf_ndarray a → wf_ndarray (demo_frame a k).
Proof.
  intros Hwf. induction k as [|k IH].
  - rewrite demo_frame_unfold. apply wf_alter. by rewrite ndarray_eta.
  - rewrite demo_frame_unfold. apply wf_alter. by rewrite ndarray_eta.
Qed.

Lemma wf_demo_previous a k : wf_ndarray a → wf_ndarray (demo_previous a k).
Proof. intros Hwf. destruct k; [done|]. by apply wf_demo_frame. Qed.

(** A frame is the frame before it with one pixel replaced. *)
Lemma demo_frame_at a k r c :
  wf_ndarray a → k < nrows a * ncols a →
  at2 0%Qc (demo_frame a k) r c
  = if decide (r = (row_major (ncols a) k).1 ∧ c = (row_major (ncols a) k).2)
    then demo_value a k
    else at2 0%Qc (demo_previous a k) r c.
Proof.
  intros Hwf Hk. rewrite demo_frame_unfold.
  destruct (demo_previous_shape a k) as [Hh Hw].
  destruct (row_major_in_range _ _ _ Hk) as [Hi Hj].
  rewrite at2_alter; [|by rewrite ndarray_eta; apply wf_demo_previous|lia..].
  by rewrite ndarray_eta.
Qed.

(** ** Python indexing *)

Lemma py_index_inside {A} (l : list A) (i : Z) x :
  (0 ≤ i)%Z → l !! Z.to_nat i = Some x → py_index l i = Ok x.
Proof.
  intros Hi Hx. unfold py_index.
  destruct (Z.ltb_spec i 0); [lia|].
  destruct (Z.ltb_spec i 0); [lia|]. by rewrite Hx.
Qed.

Lemma py_index_last {A} (l : list A) x :
  l !! (length l - 1) = Some x → py_index l (-1) = Ok x.
Proof.
  intros Hx. pose proof (lookup_lt_Some _ _ _ Hx) as Hlt.
  unfold py_index.
  destruct (Z.ltb_spec (-1) 0); [|lia].
  destruct (Z.ltb_spec (-1 + Z.of_nat (length l)) 0); [lia|].
  replace (Z.to_nat (-1 + Z.of_nat (length l))) with (length l - 1) by lia.
  by rewrite Hx.
Qed.

Lemma py_index_nil {A} (i : Z) : py_index (@nil A) i = Raise IndexError.
Proof.
  unfold py_index. cbn [length].
  destruct (Z.ltb_spec i 0).
  - destruct (Z.ltb_spec (i + Z.of_nat 0) 0); [done|lia].
  - destruct (Z.ltb_spec i 0); [lia|]. done.
Qed.

(** ** One round of the demo *)

Lemma demo_next Hx image a n g i j :
  demo_iter_ok image a n g → Hx !! image = Some (CFloat a) → wf_ndarray a →
  n < nrows a * ncols a → row_major (ncols a) n = (i, j) →
  kernel_iter_next g Hx
  = (Ok (i, j, S (length Hx),
         View image (kernel_index (nrows a) (ncols a) 1 i j)),
     kernel_iter_at image 1 (drop (S n) (pixel_positions (nrows a) (ncols a))),
     Hx ++ step_cells (nrows a) (ncols a) 1 (i, j)).
Proof.
  intros Hg E Hwf Hn Hp.
  set (ps := pixel_positions (nrows a) (ncols a)).
  assert (drop n ps = (i, j) :: drop (S n) ps) as Hdrop.
  { apply drop_S. unfold ps. rewrite pixel_positions_lookup by done. by rewrite Hp. }
  assert (in_range a (i, j)) as Hin.
  { rewrite <-Hp. by apply row_major_in_range. }
  destruct Hg as [[-> ->]|[[_ ->]|[-> _]]]; [| |lia].
  - rewrite (kernel_iter_next_new _ _ a) by done. fold ps.
    rewrite <-(drop_0 ps), Hdrop. by apply kernel_iter_next_at.
  - fold ps. rewrite Hdrop. by apply kernel_iter_next_at.
Qed.

Lemma demo_next_end Hx image a n g :
  demo_iter_ok image a n g → Hx !! image = Some (CFloat a) →
  n = nrows a * ncols a →
  kernel_iter_next g Hx = (Raise StopIteration, kernel_iter_ended image 1, Hx).
Proof.
  intros Hg E Hn.
  set (ps := pixel_positions (nrows a) (ncols a)).
  assert (drop n ps = []) as Hdrop.
  { apply drop_ge. unfold ps. rewrite length_pixel_positions. lia. }
  destruct Hg as [[Hn0 ->]|[[_ ->]|[_ ->]]].
  - rewrite (kernel_iter_next_new _ _ a) by done. fold ps.
    rewrite <-(drop_0 ps), <-Hn0, Hdrop. apply kernel_iter_next_nil.
  - fold ps. rewrite Hdrop. apply kernel_iter_next_nil.
  - apply kernel_iter_next_ended.
Qed.

(** The statements of a round before [next]. *)
Lemma round_source_ok image a d H (k : Z) :
  demo_inv image a d H →
  (k = 0%Z ∧ length (d_cache d) = 0) ∨ (k ≠ 0%Z ∧ 1 ≤ length (d_cache d)) →
  (src ← (if decide (k = 0%Z) then mret (d_image d)
          else lift (e ← py_index (d_cache d) (-1); Ok e.2));
   copy src) H
  = (Ok (length H), H ++ [CFloat (demo_previous a (length (d_cache d)))]).
Proof.
  intros [Himg Hst Hit Hcnt Hfr] [[-> Hn]|[Hk Hn]].
  - rewrite decide_True by done. rewrite Hn.
    erewrite bind_ok; [|done]. unfold copy.
    erewrite bind_ok; [|by apply read_cell_eq; rewrite Himg]. done.
  - rewrite decide_False by done.
    destruct (lookup_lt_is_Some_2 (d_cache d) (length (d_cache d) - 1))
      as [e He]; [lia|].
    rewrite (py_index_last _ _ He).
    erewrite bind_ok; [|done]. unfold copy.
    destruct (Hfr _ _ He) as (Hf & _).
    erewrite bind_ok; [|by apply read_cell_eq]. unfold alloc.
    by replace (length (d_cache d)) with (S (length (d_cache d) - 1)) at 2 by lia.
Qed.

Lemma round_source_empty d H (k : Z) :
  k ≠ 0%Z → d_cache d = [] →
  (src ← (if decide (k = 0%Z) then mret (d_image d)
          else lift (e ← py_index (d_cache d) (-1); Ok e.2));
   copy src) H
  = (Raise IndexError, H).
Proof.
  intros Hk ->. rewrite decide_False by done. rewrite py_index_nil.
  by erewrite bind_raise.
Qed.

(** The statements of a round after [next]. *)
Lemma round_finish_ok Hx image a filtered i j mask sub m prev win :
  Hx !! mask = Some (CInt m) → Hx !! image = Some (CFloat a) →
  Hx !! filtered = Some (CFloat prev) →
  v_base sub = image → getitem_slices a (v_index sub) = Ok win →
  i < nrows prev → j < ncols prev →
  (m ← read_int mask;
   a ← read_float image;
   filter_overlay ← alloc (CRgb (label2rgb m a));
   w ← read_view sub;
   _ ← setitem_float filtered i j (np_sum (np_scale mean_factor w));
   mret filter_overlay) Hx
  = (Ok (length Hx),
     <[filtered := CFloat (NdArray (nrows prev) (ncols prev)
          (alter (<[j := astype dt (np_sum (np_scale mean_factor win))]>) i
                 (cells prev)))]>
       (Hx ++ [CRgb (label2rgb m a)])).
Proof.
  intros Em Ea Ef Hb Hw Hi Hj.
  erewrite bind_ok; [|by apply read_int_eq].
  erewrite bind_ok; [|by apply read_float_eq].
  unfold alloc. erewrite bind_ok; [|done].
  erewrite bind_ok; cycle 1.
  { rewrite (read_view_eq _ _ a) by (rewrite Hb; by apply lookup_app_l_Some).
    by rewrite Hw. }
  erewrite bind_ok; [|by apply setitem_float_eq; [apply lookup_app_l_Some|..]].
  done.
Qed.

Lemma demo_window_eq a n i j win :
  row_major (ncols a) n = (i, j) →
  getitem_slices a (kernel_index (nrows a) (ncols a) 1 i j) = Ok win →
  demo_window a n = win.
Proof. intros Hp Hw. unfold demo_window. rewrite Hp. cbn [fst snd]. by rewrite Hw. Qed.

(** A round that adds a frame. *)
Lemma mean_filter_round_ok image a d H (k : Z) i j :
  demo_inv image a d H → wf_ndarray a →
  (k = 0%Z ∧ length (d_cache d) = 0) ∨ (k ≠ 0%Z ∧ 1 ≤ length (d_cache d)) →
  length (d_cache d) < nrows a * ncols a →
  row_major (ncols a) (length (d_cache d)) = (i, j) →
  mean_filter_round k d H
  = (Ok (),
     Demo image
       (kernel_iter_at image 1
          (drop (S (length (d_cache d))) (pixel_positions (nrows a) (ncols a))))
       (d_cache d ++ [(length H + 3, length H)]),
     H ++ [CFloat (demo_frame a (length (d_cache d)));
           CInt (marked_mask (nrows a) (ncols a) i j);
           CInt (kernel_mask (nrows a) (ncols a) 1 i j);
           CRgb (label2rgb (kernel_mask (nrows a) (ncols a) 1 i j) a)]).
Proof.
  intros Hinv Hwf Hcase Hn Hp.
  pose proof Hinv as [Himg Hst Hit Hcnt Hfr].
  set (n := length (d_cache d)) in *.
  unfold mean_filter_round.
  rewrite (round_source_ok image a) by done. fold n.
  set (H1 := H ++ [CFloat (demo_previous a n)]).
  assert (H1 !! image = Some (CFloat a)) as E1 by (by apply lookup_app_l_Some).
  rewrite (demo_next H1 image a n _ i j) by done.
  cbv beta iota. rewrite Himg.
  set (H2 := H1 ++ step_cells (nrows a) (ncols a) 1 (i, j)).
  destruct (demo_previous_shape a n) as [Hh Hw].
  assert (in_range a (i, j)) as [Hi Hj].
  { rewrite <-Hp. by apply row_major_in_range. }
  cbn [fst snd] in Hi, Hj.
  rewrite (round_finish_ok H2 image a (length H) i j (S (length H1))
             _ (kernel_mask (nrows a) (ncols a) 1 i j) (demo_previous a n)
             (demo_window a n)); cycle 1.
  - unfold H2, step_cells. cbn [fst snd].
    rewrite lookup_app_r by lia.
    by replace (S (length H1) - length H1) with 1 by lia.
  - by apply lookup_app_l_Some.
  - unfold H2, H1. rewrite <-app_assoc. by apply lookup_app_new.
  - done.
  - cbn [v_index]. rewrite kernel_index_ok.
    unfold demo_window. rewrite Hp. cbn [fst snd]. by rewrite kernel_index_ok.
  - by rewrite Hh.
  - by rewrite Hw.
  - assert (length H2 = length H + 3) as ->.
    { unfold H2, H1, step_cells. rewrite !length_app. simpl. lia. }
    f_equal. unfold H2, H1, step_cells. cbn [fst snd].
    rewrite <-!app_assoc. cbn [app].
    rewrite insert_app_new by done.
    do 2 f_equal. rewrite demo_frame_unfold, Hp. done.
Qed.

(** ** The state of the demo *)

Lemma demo_inv_new H image a :
  H !! image = Some (CFloat a) → demo_inv image a (mean_filter_demo image) H.
Proof.
  intros E. split; simpl; [done|done| |lia|done].
  left. done.
Qed.

Lemma demo_inv_frame_lt image a d H m e :
  demo_inv image a d H → d_cache d !! m = Some e →
  e.1 < length H ∧ e.2 < length H.
Proof.
  intros [_ _ _ _ Hfr] He. destruct (Hfr _ _ He) as (Hf & Ho & _).
  split; [done|]. by eapply lookup_lt_Some.
Qed.

(** A round that raises before or in [next] leaves the frames alone. *)
Lemma demo_inv_raise image a d H K g :
  demo_inv image a d H →
  demo_iter_ok image a (length (d_cache d)) g →
  demo_inv image a (Demo (d_image d) g (d_cache d)) (H ++ K).
Proof.
  intros [Himg Hst Hit Hcnt Hfr] Hg. split; simpl; [done| |done|done|].
  - by apply lookup_app_l_Some.
  - intros m e He. destruct (Hfr _ _ He) as (Hf & Ho & Hne & Hinj).
    split_and!; [by apply lookup_app_l_Some| |done|done].
    rewrite length_app. lia.
Qed.

(** A round that adds a frame. *)
Lemma demo_inv_push image a d H K :
  demo_inv image a d H → length (d_cache d) < nrows a * ncols a →
  (H ++ K) !! length H = Some (CFloat (demo_frame a (length (d_cache d)))) →
  length H + 3 < length (H ++ K) →
  demo_inv image a
    (Demo image
       (kernel_iter_at image 1
          (drop (S (length (d_cache d))) (pixel_positions (nrows a) (ncols a))))
       (d_cache d ++ [(length H + 3, length H)]))
    (H ++ K).
Proof.
  intros Hinv Hn HK Hlen. pose proof Hinv as [Himg Hst Hit Hcnt Hfr].
  assert (image < length H) as Hlt by (by eapply lookup_lt_Some).
  split; simpl.
  - done.
  - by apply lookup_app_l_Some.
  - right; left. rewrite length_app. simpl.
    rewrite Nat.add_1_r. split; [lia|done].
  - rewrite length_app. simpl. lia.
  - intros m e He. apply lookup_app_Some in He as [He|[Hm He]].
    + destruct (Hfr _ _ He) as (Hf & Ho & Hne & Hinj).
      split_and!; [by apply lookup_app_l_Some|rewrite length_app; lia|done|].
      intros m' e' He' Heq. apply lookup_app_Some in He' as [He'|[Hm' He']].
      * by eapply Hinj.
      * apply list_lookup_singleton_Some in He' as [_ <-]. simpl in Heq.
        apply lookup_lt_Some in Hf. lia.
    + apply list_lookup_singleton_Some in He as [Hm0 <-]. simpl.
      assert (m = length (d_cache d)) as -> by lia.
      split_and!; [done|lia|lia|].
      intros m' e' He' Heq. apply lookup_app_Some in He' as [He'|[Hm' He']].
      * destruct (demo_inv_frame_lt _ _ _ _ _ _ Hinv He') as [_ Hlt']. lia.
      * apply list_lookup_singleton_Some in He' as [? _]. lia.
Qed.

Lemma mean_filter_round_spec image a d H (k : Z) :
  demo_inv image a d H → wf_ndarray a →
  (Z.of_nat (length (d_cache d)) ≤ k)%Z →
  ∃ res d' K,
    mean_filter_round k d H = (res, d', H ++ K)
    ∧ demo_inv image a d' (H ++ K)
    ∧ ((res = Ok () ∧ d_cache d' = d_cache d ++ [(length H + 3, length H)])
       ∨ (∃ x, res = Raise x ∧ d_cache d' = d_cache d))
    ∧ (length (d_cache d) < nrows a * ncols a →
       k = 0%Z ∨ 1 ≤ length (d_cache d) → res = Ok ()).
Proof.
  intros Hinv Hwf Hk. pose proof Hinv as [Himg Hst Hit Hcnt Hfr].
  destruct (decide (k ≠ 0%Z ∧ length (d_cache d) = 0)) as [[Hk0 Hn0]|Hcase].
  - exists (Raise IndexError), d, []. rewrite app_nil_r.
    split_and!; [|done|right; by eexists|lia].
    unfold mean_filter_round.
    rewrite round_source_empty; [done|done|].
    by destruct (d_cache d).
  - assert ((k = 0%Z ∧ length (d_cache d) = 0)
            ∨ (k ≠ 0%Z ∧ 1 ≤ length (d_cache d))) as Hsrc by lia.
    destruct (decide (length (d_cache d) < nrows a * ncols a)) as [Hn|Hn].
    + destruct (row_major (ncols a) (length (d_cache d))) as [i j] eqn:Hp.
      eexists _, _, _. split; [by apply (mean_filter_round_ok image a)|].
      split; [|split; [left|]; done].
      apply demo_inv_push; [done|done| |].
      * by apply lookup_app_new.
      * rewrite length_app. simpl. lia.
    + eexists (Raise StopIteration), _, [_]. split_and!; [| | |lia].
      * unfold mean_filter_round.
        rewrite (round_source_ok image a) by done.
        rewrite (demo_next_end _ image a (length (d_cache d)));
          [done|done|by apply lookup_app_l_Some|lia].
      * apply demo_inv_raise; [done|]. right; right. split; [lia|done].
      * right. by eexists.
Qed.

(** ** The loop and the step function *)

Lemma mean_filter_while_spec image a rounds (k : Z) d H :
  demo_inv image a d H → wf_ndarray a →
  ∃ res d' K new,
    mean_filter_while rounds k d H = (res, d', H ++ K)
    ∧ demo_inv image a d' (H ++ K)
    ∧ d_cache d' = d_cache d ++ new
    ∧ length new ≤ rounds
    ∧ (Z.of_nat (length new) ≤ Z.max 0 (k + 1 - Z.of_nat (length (d_cache d))))%Z
    ∧ (res = Ok () → (k + 1 - Z.of_nat (length (d_cache d)) ≤ Z.of_nat rounds)%Z →
       (k < Z.of_nat (length (d_cache d')))%Z)
    ∧ ((k < Z.of_nat (length (d_cache d)))%Z → res = Ok () ∧ d' = d ∧ K = [])
    ∧ ((k < Z.of_nat (nrows a * ncols a))%Z →
       k = 0%Z ∨ 1 ≤ length (d_cache d) → res = Ok ()).
Proof.
  intros Hinv Hwf. revert d H Hinv.
  induction rounds as [|rounds IH]; intros d H Hinv.
  - exists (Ok ()), d, [], []. rewrite !app_nil_r.
    split_and!; [|done|done|done|simpl; lia| | |].
    + simpl. by case_decide.
    + simpl. lia.
    + done.
    + done.
  - cbn [mean_filter_while]. case_decide as Hcond.
    + destruct (mean_filter_round_spec image a d H k Hinv Hwf Hcond)
        as (res1 & d1 & K1 & -> & Hinv1 & [[-> Hc1]|[x [-> Hc1]]] & Hgo).
      * destruct (IH d1 (H ++ K1) Hinv1)
          as (res & d' & K & new & -> & Hinv' & Hc' & Hlen & Hbound & Hok & _ & Hgo').
        exists res, d', (K1 ++ K), ((length H + 3, length H) :: new).
        rewrite app_assoc.
        split_and!; [done|done| |simpl; lia| | |lia|].
        -- rewrite Hc', Hc1. by rewrite <-app_assoc.
        -- rewrite Hc1, length_app in Hbound. simpl in *. lia.
        -- intros Hres Hr. apply Hok; [done|].
           rewrite Hc1, length_app. simpl. lia.
        -- intros Hk _. apply Hgo'; [done|].
           right. rewrite Hc1, length_app. simpl. lia.
      * exists (Raise x), d1, K1, []. rewrite app_nil_r.
        split_and!; [done|done|done|simpl; lia|simpl; lia|done|lia|].
        intros Hk Hfirst. apply Hgo; [lia|done].
    + exists (Ok ()), d, [], []. rewrite !app_nil_r.
      split_and!; [done|done|done|simpl; lia|simpl; lia|lia|done|done].
Qed.

Lemma mean_filter_step_spec image a (k : Z) d H :
  demo_inv image a d H → wf_ndarray a →
  ∃ res d' K new,
    mean_filter_step k d H = (res, d', H ++ K)
    ∧ demo_inv image a d' (H ++ K)
    ∧ d_cache d' = d_cache d ++ new
    ∧ (Z.of_nat (length new) ≤ Z.max 0 (k + 1 - Z.of_nat (length (d_cache d))))%Z
    ∧ ((0 ≤ k < Z.of_nat (length (d_cache d)))%Z →
       res = py_index (d_cache d) k ∧ d' = d ∧ K = [])
    ∧ ((0 ≤ k < Z.of_nat (nrows a * ncols a))%Z →
       k = 0%Z ∨ 1 ≤ length (d_cache d) →
       ∃ e, res = Ok e ∧ d_cache d' !! Z.to_nat k = Some e).
Proof.
  intros Hinv Hwf. unfold mean_filter_step.
  destruct (mean_filter_while_spec image a
              (Z.to_nat (k + 1 - Z.of_nat (length (d_cache d)))) k d H Hinv Hwf)
    as (res & d' & K & new & -> & Hinv' & Hc & _ & Hbound & Hok & Hrev & Hgo).
  destruct res as [[]|x].
  - exists (py_index (d_cache d') k), d', K, new.
    split_and!; [done..| |].
    + intros Hk. destruct Hrev as (_ & -> & ->); [lia|done].
    + intros Hk _.
      destruct (lookup_lt_is_Some_2 (d_cache d') (Z.to_nat k)) as [e He].
      { specialize (Hok eq_refl). lia. }
      exists e. split; [|done]. apply py_index_inside; [lia|done].
  - exists (Raise x), d', K, new.
    split_and!; [done..| |].
    + intros Hk. destruct Hrev as (? & _); [lia|done].
    + intros Hk Hfirst. specialize (Hgo ltac:(lia) Hfirst). done.
Qed.

Lemma mean_filter_steps_inv image a steps d H :
  demo_inv image a d H → wf_ndarray a →
  demo_inv image a (mean_filter_steps steps d H).1 (mean_filter_steps steps d H).2.
Proof.
  intros Hinv Hwf. revert d H Hinv.
  induction steps as [|k steps IH]; intros d H Hinv; [done|].
  cbn [mean_filter_steps].
  destruct (mean_filter_step_spec image a k d H Hinv Hwf)
    as (res & d' & K & new & -> & Hinv' & _).
  by apply IH.
Qed.

(** ** Extremes of a sequence *)

Lemma Qc_min_le_l (x y : Qc) : (Qc_min x y ≤ x)%Qc.
Proof.
  unfold Qc_min. case_decide as Hle; [apply Qcle_refl|].
  by apply Qclt_le_weak, Qcnot_le_lt.
Qed.

Lemma Qc_min_le_r (x y : Qc) : (Qc_min x y ≤ y)%Qc.
Proof. unfold Qc_min. case_decide; [done|apply Qcle_refl]. Qed.

Lemma Qc_max_ge_l (x y : Qc) : (x ≤ Qc_max x y)%Qc.
Proof. unfold Qc_max. case_decide; [done|apply Qcle_refl]. Qed.

Lemma Qc_max_ge_r (x y : Qc) : (y ≤ Qc_max x y)%Qc.
Proof.
  unfold Qc_max. case_decide as Hle; [apply Qcle_refl|].
  by apply Qclt_le_weak, Qcnot_le_lt.
Qed.

Lemma foldl_Qc_min_spec (x : Qc) (l : list Qc) :
  foldl Qc_min x l ∈ x :: l
  ∧ ∀ y, y ∈ x :: l → (foldl Qc_min x l ≤ y)%Qc.
Proof.
  revert x. induction l as [|z l IH]; intros x; simpl.
  - split; [by left|]. intros y Hy. apply list_elem_of_singleton in Hy as ->.
    apply Qcle_refl.
  - destruct (IH (Qc_min x z)) as [Hin Hle]. split.
    + apply elem_of_cons in Hin as [->|Hin].
      * unfold Qc_min. case_decide; [by left|right; by left].
      * by do 2 right.
    + intros y Hy.
      assert (foldl Qc_min (Qc_min x z) l ≤ Qc_min x z)%Qc as Hm
        by (apply Hle; by left).
      apply elem_of_cons in Hy as [->|Hy].
      * eapply Qcle_trans; [exact Hm|apply Qc_min_le_l].
      * apply elem_of_cons in Hy as [->|Hy].
        -- eapply Qcle_trans; [exact Hm|apply Qc_min_le_r].
        -- apply Hle. by right.
Qed.

Lemma foldl_Qc_max_spec (x : Qc) (l : list Qc) :
  foldl Qc_max x l ∈ x :: l
  ∧ ∀ y, y ∈ x :: l → (y ≤ foldl Qc_max x l)%Qc.
Proof.
  revert x. induction l as [|z l IH]; intros x; simpl.
  - split; [by left|]. intros y Hy. apply list_elem_of_singleton in Hy as ->.
    apply Qcle_refl.
  - destruct (IH (Qc_max x z)) as [Hin Hle]. split.
    + apply elem_of_cons in Hin as [->|Hin].
      * unfold Qc_max. case_decide; [right; by left|by left].
      * by do 2 right.
    + intros y Hy.
      assert (Qc_max x z ≤ foldl Qc_max (Qc_max x z) l)%Qc as Hm
        by (apply Hle; by left).
      apply elem_of_cons in Hy as [->|Hy].
      * eapply Qcle_trans; [apply Qc_max_ge_l|exact Hm].
      * apply elem_of_cons in Hy as [->|Hy].
        -- eapply Qcle_trans; [apply Qc_max_ge_r|exact Hm].
        -- apply Hle. by right.
Qed.

Lemma min_of_spec (l : list Qc) v :
  min_of l = Ok v → v ∈ l ∧ ∀ y, y ∈ l → (v ≤ y)%Qc.
Proof.
  destruct l as [|x l]; [done|]. intros [= <-]. apply foldl_Qc_min_spec.
Qed.

Lemma max_of_spec (l : list Qc) v :
  max_of l = Ok v → v ∈ l ∧ ∀ y, y ∈ l → (y ≤ v)%Qc.
Proof.
  destruct l as [|x l]; [done|]. intros [= <-]. apply foldl_Qc_max_spec.
Qed.

Lemma min_of_ok (l : list Qc) : l ≠ [] → ∃ v, min_of l = Ok v.
Proof. destruct l; [done|]. by eexists. Qed.

Lemma max_of_ok (l : list Qc) : l ≠ [] → ∃ v, max_of l = Ok v.
Proof. destruct l; [done|]. by eexists. Qed.

(** The extreme of the extremes of the images is the extreme of all
    their pixels. *)
Lemma result_mapM_ok {A B} (f : A → result B) (l : list A) :
  Forall (λ x, ∃ y, f x = Ok y) l →
  ∃ ys, result_mapM f l = Ok ys ∧ length ys = length l
        ∧ ∀ k x, l !! k = Some x → ∃ y, ys !! k = Some y ∧ f x = Ok y.
Proof.
  induction 1 as [|x l [y Hy] _ (ys & Hys & Hlen & Hall)].
  - exists []. by split_and!.
  - exists (y :: ys). simpl. rewrite Hy. simpl. rewrite Hys. simpl.
    split_and!; [done|by rewrite Hlen|].
    intros [|k] x' Hk; simpl in *.
    + injection Hk as <-. by exists y.
    + by apply Hall.
Qed.

Lemma global_min images :
  images ≠ [] → Forall (λ img, ravel (img_as_float img) ≠ []) images →
  ∃ v, result_mapM np_min (img_as_float <$> images) ≫= min_of = Ok v
       ∧ v ∈ all_pixels images
       ∧ ∀ y, y ∈ all_pixels images → (v ≤ y)%Qc.
Proof.
  intros Hne Hall.
  destruct (result_mapM_ok np_min (img_as_float <$> images))
    as (mins & -> & Hlen & Hmins).
  { apply Forall_fmap. eapply Forall_impl; [exact Hall|].
    intros img Himg. by apply min_of_ok. }
  rewrite length_fmap in Hlen.
  destruct (min_of_ok mins) as [v Hv].
  { intros ->. destruct images; done. }
  exists v. split; [done|].
  apply min_of_spec in Hv as [Hin Hle]. split.
  - apply list_elem_of_lookup in Hin as [k Hk].
    destruct (lookup_lt_is_Some_2 images k) as [img Himg].
    { apply lookup_lt_Some in Hk. lia. }
    destruct (Hmins k (img_as_float img)) as (m & Hm & Hmin).
    { by rewrite list_lookup_fmap, Himg. }
    assert (m = v) as -> by congruence.
    apply min_of_spec in Hmin as [Hvin _].
    apply list_elem_of_bind. exists img. split; [done|].
    by eapply list_elem_of_lookup_2.
  - intros y Hy. apply list_elem_of_bind in Hy as (img & Hy & Himg).
    apply list_elem_of_lookup in Himg as [k Himg].
    destruct (Hmins k (img_as_float img)) as (m & Hm & Hmin).
    { by rewrite list_lookup_fmap, Himg. }
    apply min_of_spec in Hmin as [_ Hmle].
    eapply Qcle_trans; [|by apply Hmle].
    apply Hle. by eapply list_elem_of_lookup_2.
Qed.

Lemma global_max images :
  images ≠ [] → Forall (λ img, ravel (img_as_float img) ≠ []) images →
  ∃ v, result_mapM np_max (img_as_float <$> images) ≫= max_of = Ok v
       ∧ v ∈ all_pixels images
       ∧ ∀ y, y ∈ all_pixels images → (y ≤ v)%Qc.
Proof.
  intros Hne Hall.
  destruct (result_mapM_ok np_max (img_as_float <$> images))
    as (maxs & -> & Hlen & Hmaxs).
  { apply Forall_fmap. eapply Forall_impl; [exact Hall|].
    intros img Himg. by apply max_of_ok. }
  rewrite length_fmap in Hlen.
  destruct (max_of_ok maxs) as [v Hv].
  { intros ->. destruct images; done. }
  exists v. split; [done|].
  apply max_of_spec in Hv as [Hin Hle]. split.
  - apply list_elem_of_lookup in Hin as [k Hk].
    destruct (lookup_lt_is_Some_2 images k) as [img Himg].
    { apply lookup_lt_Some in Hk. lia. }
    destruct (Hmaxs k (img_as_float img)) as (m & Hm & Hmax).
    { by rewrite list_lookup_fmap, Himg. }
    assert (m = v) as -> by congruence.
    apply max_of_spec in Hmax as [Hvin _].
    apply list_elem_of_bind. exists img. split; [done|].
    by eapply list_elem_of_lookup_2.
  - intros y Hy. apply list_elem_of_bind in Hy as (img & Hy & Himg).
    apply list_elem_of_lookup in Himg as [k Himg].
    destruct (Hmaxs k (img_as_float img)) as (m & Hm & Hmax).
    { by rewrite list_lookup_fmap, Himg. }
    apply max_of_spec in Hmax as [_ Hmle].
    eapply Qcle_trans; [by apply Hmle|].
    apply Hle. by eapply list_elem_of_lookup_2.
Qed.

(** ** The panels *)

Lemma show_panels_lookup n (images : list (ndarray Qc)) titles vmin vmax k img t :
  length images ≤ n → length images ≤ length titles →
  images !! k = Some img → titles !! k = Some t →
  show_panels (replicate n empty_axis) images titles vmin vmax !! k
  = Some (Axis (Some (img, vmin, vmax)) t).
Proof.
  revert n titles k.
  induction images as [|i images IH]; intros n titles k Hn Ht Hi Hk; [done|].
  destruct n as [|n]; [simpl in Hn; lia|].
  destruct titles as [|t' titles]; [done|].
  destruct k as [|k]; simpl in *.
  - by simplify_eq.
  - apply IH; [lia|lia|done|done].
Qed.

Lemma length_show_panels axs (images : list (ndarray Qc)) titles vmin vmax :
  length (show_panels axs images titles vmin vmax) = length axs.
Proof.
  revert images titles.
  induction axs as [|ax axs IH]; intros images titles; [done|].
  destruct images, titles; simpl; by rewrite ?IH.
Qed.

(** With two images or more, none of them empty, and titles for all of
    them (or none given), [imshow_all] draws every image in its own panel
    of a single row, all with the least and the greatest of all pixel
    values as limits. *)
Lemma imshow_all_row images titles :
  2 ≤ length images →
  Forall (λ img, ravel (img_as_float img) ≠ []) images →
  length images ≤ length (titles_used (length images) titles) →
  ∃ vmin vmax panels,
    imshow_all images titles = Ok panels
    ∧ length panels = length images
    ∧ vmin ∈ all_pixels images ∧ (∀ y, y ∈ all_pixels images → (vmin ≤ y)%Qc)
    ∧ vmax ∈ all_pixels images ∧ (∀ y, y ∈ all_pixels images → (y ≤ vmax)%Qc)
    ∧ ∀ k img t, images !! k = Some img →
        titles_used (length images) titles !! k = Some t →
        panels !! k = Some (Axis (Some (img_as_float img, vmin, vmax)) t).
Proof.
  intros Hlen Hall Ht.
  assert (images ≠ []) as Hne by (intros ->; simpl in Hlen; lia).
  destruct (global_min images Hne Hall) as (vmin & Hmin & Hmin1 & Hmin2).
  destruct (global_max images Hne Hall) as (vmax & Hmax & Hmax1 & Hmax2).
  exists vmin, vmax. eexists. unfold imshow_all.
  rewrite Hmin. cbn [mbind result_mbind result_bind].
  rewrite Hmax. cbn [mbind result_mbind result_bind].
  rewrite length_fmap. unfold subplots.
  rewrite decide_False by lia. rewrite decide_False by lia.
  cbn [axes_ravel]. split; [done|].
  split_and!; [|done..|].
  - by rewrite length_show_panels, length_replicate, Nat.mul_1_l.
  - intros k img t Hk Htk. rewrite Nat.mul_1_l.
    apply show_panels_lookup.
    + by rewrite length_fmap.
    + by rewrite length_fmap.
    + by rewrite list_lookup_fmap, Hk.
    + done.
Qed.

(** C9.  Called with a single image, [imshow_all] draws nothing: it
    raises [AttributeError], because the grid of one panel that
    [plt.subplots] returns has no [ravel] (or [ValueError] before that,
    when the image has no pixel).  The row of panels with the shared
    limits is only drawn for two images or more. *)
Theorem imshow_all_single_image img titles :
  imshow_all [img] titles
  = match ravel (img_as_float img) with
    | [] => Raise ValueError
    | _ :: _ => Raise AttributeError
    end.
Proof.
  unfold imshow_all, np_min, np_max. simpl.
  destruct (ravel (img_as_float img)) as [|x l]; simpl; done.
Qed.

(* ===================================================================== *)
(** ** Properties of [iter_kernel]                                        *)
(* ===================================================================== *)

(** C1.  For an image with at least one row and one column and a
    half-width that is not negative, the mask of every triple yielded by
    [iter_kernel] is a new array of the shape of the image, it holds 2 at
    the position of the triple, 1 at the other cells of the clamped square
    neighbourhood of that position and 0 everywhere else; the mask built
    with [grey_dilation] is the mask built by direct assignment of the
    clamped ranges. *)
Theorem iter_kernel_mask H image a (size : Z) n k i j mask sub :
  H !! image = Some (CFloat a) → wf_ndarray a →
  1 ≤ nrows a → 1 ≤ ncols a → (0 ≤ size)%Z →
  yields_of n (iter_kernel image size) H !! k = Some (i, j, mask, sub) →
  ∃ m,
    store_after n (iter_kernel image size) H !! mask = Some (CInt m)
    ∧ length H ≤ mask
    ∧ (∀ k' y, yields_of n (iter_kernel image size) H !! k' = Some y →
               mask_of y = mask → k' = k)
    ∧ wf_ndarray m ∧ nrows m = nrows a ∧ ncols m = ncols a
    ∧ at2 0%Z m i j = 2%Z
    ∧ (∀ r c, r < nrows a → c < ncols a → (r, c) ≠ (i, j) →
         at2 0%Z m r c
         = if in_clamped_range (nrows a) size i r
              && in_clamped_range (ncols a) size j c
           then 1%Z else 0%Z)
    ∧ m = direct_mask (nrows a) (ncols a) size i j.
Proof.
  intros E Hwf _ _ Hs Hy.
  destruct (yields_of_lookup _ _ _ _ _ _ _ E Hwf Hy)
    as (Hkn & Hk & [Hi Hj] & Heq & Hmask & _).
  assert (row_major (ncols a) k = (i, j) ∧ mask = S (length H + 2 * k))
    as [Hpos ->] by (split; congruence).
  rewrite Hpos in *. cbn [fst snd] in Hi, Hj, Hmask.
  exists (kernel_mask (nrows a) (ncols a) size i j).
  destruct (kernel_mask_shape (nrows a) (ncols a) size i j) as [Hh Hw].
  split_and!; [done|lia| |apply wf_kernel_mask|done|done| | |].
  - intros k' y Hy' Hm.
    destruct (yields_of_lookup _ _ _ _ _ _ _ E Hwf Hy') as (_ & _ & _ & -> & _).
    unfold mask_of in Hm; simpl in Hm. lia.
  - rewrite kernel_mask_at by done. by rewrite decide_True.
  - intros r c Hr Hc Hne.
    rewrite kernel_mask_direct, direct_mask_at by done.
    rewrite bool_decide_eq_false_2; [done|]. intros [-> ->]. done.
  - by apply kernel_mask_direct.
Qed.

(** C2.  For an image with at least one row and one column and a
    half-width that is not negative, the window yielded at position
    [(i, j)] is the image restricted to the rows
    [max(i-size,0) .. min(i+size+1,height) - 1] and the columns
    [max(j-size,0) .. min(j+size+1,width) - 1]; its shape is
    [(min(i+size+1,height) - max(i-size,0),
      min(j+size+1,width) - max(j-size,0))]. *)
Theorem iter_kernel_window H image a (size : Z) n k i j mask sub :
  H !! image = Some (CFloat a) → wf_ndarray a →
  1 ≤ nrows a → 1 ≤ ncols a → (0 ≤ size)%Z →
  yields_of n (iter_kernel image size) H !! k = Some (i, j, mask, sub) →
  ∃ win,
    (read_view sub (store_after n (iter_kernel image size) H)).1 = Ok win
    ∧ v_base sub = image
    ∧ wf_ndarray win
    ∧ Z.of_nat (nrows win)
      = (Z.min (Z.of_nat i + size + 1) (Z.of_nat (nrows a))
         - Z.max (Z.of_nat i - size) 0)%Z
    ∧ Z.of_nat (ncols win)
      = (Z.min (Z.of_nat j + size + 1) (Z.of_nat (ncols a))
         - Z.max (Z.of_nat j - size) 0)%Z
    ∧ ∀ r c, r < nrows win → c < ncols win →
        at2 0%Qc win r c
        = at2 0%Qc a (Z.to_nat (Z.max (Z.of_nat i - size) 0) + r)
                     (Z.to_nat (Z.max (Z.of_nat j - size) 0) + c).
Proof.
  intros E Hwf _ _ Hs Hy.
  destruct (yields_of_lookup _ _ _ _ _ _ _ E Hwf Hy)
    as (Hkn & Hk & [Hi Hj] & Heq & _ & Himg).
  assert (row_major (ncols a) k = (i, j)) as Hpos by congruence.
  rewrite Hpos in *. cbn [fst snd] in Hi, Hj, Heq.
  assert (sub = View image (kernel_index (nrows a) (ncols a) size i j))
    as -> by congruence.
  destruct (window_spec a size i j Hwf Hs Hi Hj)
    as (win & Hwin & Hnr & Hnc & Hwfw & Hat).
  exists win. rewrite (read_view_eq _ _ a) by done. cbn [fst v_index v_base].
  split_and!; [done|done|done| | |done].
  - rewrite Hnr. unfold clamp_hi, clamp_lo. lia.
  - rewrite Hnc. unfold clamp_hi, clamp_lo. lia.
Qed.

(** C3.  For an image with at least one row and one column and a
    half-width that is not negative, [iter_kernel] yields exactly
    [height * width] triples and then stops; their positions are pairwise
    distinct and run through all of [{0..height-1} x {0..width-1}] in
    row-major order. *)
Theorem iter_kernel_row_major H image a (size : Z) :
  H !! image = Some (CFloat a) → wf_ndarray a →
  1 ≤ nrows a → 1 ≤ ncols a → (0 ≤ size)%Z →
  let total := nrows a * ncols a in
  let positions n := position_of <$> yields_of n (iter_kernel image size) H in
  (∀ n, length (positions n) = n `min` total)
  ∧ (∀ n, raised_by n (iter_kernel image size) H
          = if decide (n ≤ total) then None else Some StopIteration)
  ∧ (∀ n k, k < n `min` total →
            positions n !! k = Some (k / ncols a, k `mod` ncols a))
  ∧ NoDup (positions total)
  ∧ (∀ i j, (i, j) ∈ positions total ↔ i < nrows a ∧ j < ncols a).
Proof.
  intros E Hwf _ _ _ total positions. unfold positions, total.
  split_and!.
  - intros n. rewrite (yields_of_positions _ _ a) by done.
    by rewrite length_take, length_pixel_positions.
  - intros n. by apply raised_by_iter_kernel.
  - intros n k Hk. rewrite (yields_of_positions _ _ a) by done.
    rewrite lookup_take_lt by lia. apply pixel_positions_lookup. lia.
  - rewrite (yields_of_positions _ _ a) by done.
    rewrite take_ge by (by rewrite length_pixel_positions).
    apply NoDup_pixel_positions.
  - intros i j. rewrite (yields_of_positions _ _ a) by done.
    rewrite take_ge by (by rewrite length_pixel_positions). split.
    + intros Hin.
      apply (proj1 (Forall_forall _ _) (pixel_positions_in_range a) _ Hin).
    + intros [Hi Hj]. by apply elem_of_pixel_positions.
Qed.

(** C5.  With half-width 0 every window has shape [(1, 1)] and holds the
    pixel at its position, and every mask holds 2 at that position and 0
    in every other cell, so no cell holds 1. *)
Theorem iter_kernel_size_zero H image a n k i j mask sub :
  H !! image = Some (CFloat a) → wf_ndarray a →
  1 ≤ nrows a → 1 ≤ ncols a →
  yields_of n (iter_kernel image 0%Z) H !! k = Some (i, j, mask, sub) →
  (read_view sub (store_after n (iter_kernel image 0%Z) H)).1
  = Ok (NdArray 1 1 [[at2 0%Qc a i j]])
  ∧ ∃ m,
      store_after n (iter_kernel image 0%Z) H !! mask = Some (CInt m)
      ∧ wf_ndarray m ∧ nrows m = nrows a ∧ ncols m = ncols a
      ∧ ∀ r c, r < nrows a → c < ncols a →
          at2 0%Z m r c = if decide ((r, c) = (i, j)) then 2%Z else 0%Z.
Proof.
  intros E Hwf _ _ Hy.
  destruct (yields_of_lookup _ _ _ _ _ _ _ E Hwf Hy)
    as (Hkn & Hk & [Hi Hj] & Heq & Hmask & Himg).
  assert (row_major (ncols a) k = (i, j)) as Hpos by congruence.
  rewrite Hpos in *. cbn [fst snd] in Hi, Hj, Hmask, Heq.
  assert (mask = S (length H + 2 * k)
          ∧ sub = View image (kernel_index (nrows a) (ncols a) 0%Z i j))
    as [-> ->] by (split; congruence).
  split.
  - rewrite (read_view_eq _ _ a) by done. cbn [fst v_index].
    destruct (window_spec a 0%Z i j Hwf ltac:(lia) Hi Hj)
      as (win & -> & Hnr & Hnc & Hwfw & Hat).
    unfold clamp_hi, clamp_lo in *. f_equal.
    apply (ndarray_ext 0%Qc); [done| |simpl; lia|simpl; lia|].
    + split; simpl; [done|]. by repeat constructor.
    + intros r c Hr Hc. rewrite Hat by done.
      assert (r = 0 ∧ c = 0) as [-> ->] by lia.
      unfold at2 at 2; simpl. f_equal; lia.
  - exists (kernel_mask (nrows a) (ncols a) 0%Z i j).
    destruct (kernel_mask_shape (nrows a) (ncols a) 0%Z i j) as [Hh Hw].
    split_and!; [done|apply wf_kernel_mask|done|done|].
    intros r c Hr Hc. rewrite kernel_mask_at_nonpos by (done || lia).
    destruct (decide (r = i ∧ c = j)) as [[-> ->]|Hne]; [by rewrite decide_True|].
    rewrite decide_False; [done|]. intros [= -> ->]. by apply Hne.
Qed.

(** C7.  Two runs of [iter_kernel] on images with the same contents and
    with the same half-width, in any two stores, yield the same sequence:
    the same positions, the same mask contents and the same window
    contents, and they end the same way. *)
Theorem iter_kernel_deterministic H1 H2 image1 image2 a (size : Z) n :
  H1 !! image1 = Some (CFloat a) → H2 !! image2 = Some (CFloat a) →
  wf_ndarray a →
  observe (store_after n (iter_kernel image1 size) H1)
    <$> yields_of n (iter_kernel image1 size) H1
  = observe (store_after n (iter_kernel image2 size) H2)
      <$> yields_of n (iter_kernel image2 size) H2
  ∧ raised_by n (iter_kernel image1 size) H1
    = raised_by n (iter_kernel image2 size) H2.
Proof.
  intros E1 E2 Hwf. unfold yields_of, store_after, raised_by.
  rewrite !(pull_iter_kernel _ _ a) by done. cbn [fst snd]. split; [|done].
  pose proof (observe_yields H1 [] image1 a size) as O1.
  pose proof (observe_yields H2 [] image2 a size) as O2.
  setoid_rewrite app_nil_r in O1. setoid_rewrite app_nil_r in O2.
  by rewrite O1, O2.
Qed.

(** ** Independence of the yielded arrays *)

Lemma length_step_cells h w size (ps : list (nat * nat)) :
  length (ps ≫= step_cells h w size) = 2 * length ps.
Proof.
  induction ps as [|p ps IH]; [done|].
  rewrite bind_cons, length_app, IH. simpl. lia.
Qed.

Lemma yields_from_app image h w size base ps qs :
  yields_from image h w size base (ps ++ qs)
  = yields_from image h w size base ps
    ++ yields_from image h w size (base + 2 * length ps) qs.
Proof.
  revert base. induction ps as [|p ps IH]; intros base; simpl.
  - by rewrite Nat.add_0_r.
  - rewrite IH. do 3 f_equal. lia.
Qed.

Lemma elem_of_yields_from image h w size base ps y :
  y ∈ yields_from image h w size base ps →
  ∃ t, t < length ps ∧ mask_of y = S (base + 2 * t)
       ∧ v_base (window_of y) = image.
Proof.
  intros Hy. apply list_elem_of_lookup in Hy as [t Ht].
  apply yields_from_lookup_inv in Ht as (p & Hp & ->).
  exists t. split; [by eapply lookup_lt_Some|done].
Qed.

Lemma NoDup_yields_from image h w size base ps :
  NoDup (mask_of <$> yields_from image h w size base ps).
Proof.
  apply NoDup_alt. intros t t' r Ht Ht'.
  apply list_lookup_fmap_Some in Ht as (y & -> & Ht).
  apply list_lookup_fmap_Some in Ht' as (y' & Heq & Ht').
  apply yields_from_lookup_inv in Ht as (p & _ & ->).
  apply yields_from_lookup_inv in Ht' as (p' & _ & ->).
  unfold mask_of in Heq; simpl in Heq. lia.
Qed.

Lemma observe_app (H K : heap) (y : yielded) :
  mask_of y < length H → v_base (window_of y) < length H →
  observe (H ++ K) y = observe H y.
Proof.
  destruct y as [[pos mask] sub]. unfold mask_of, window_of; simpl.
  intros Hm Hs. unfold observe, read_int, read_view, read_float, read_cell.
  unfold mbind, M_bind.
  rewrite !lookup_app_l by done.
  f_equal; [f_equal|].
  - destruct (H !! mask) as [[]|]; done.
  - destruct (H !! v_base sub) as [[]|]; done.
Qed.

(** A generator that has been advanced [k ≥ 1] times, run on any store
    that still holds the image. *)
Lemma pull_resumed H0 Hx image a size k n :
  H0 !! image = Some (CFloat a) → Hx !! image = Some (CFloat a) →
  wf_ndarray a → 1 ≤ k →
  let g := iter_after k (iter_kernel image size) H0 in
  let todo := drop k (pixel_positions (nrows a) (ncols a)) in
  yields_of n g Hx
  = yields_from image (nrows a) (ncols a) size (length Hx) (take n todo)
  ∧ store_after n g Hx
    = Hx ++ (take n todo ≫= step_cells (nrows a) (ncols a) size)
  ∧ raised_by n g Hx
    = if decide (n = 0 ∨ k + n ≤ nrows a * ncols a) then None
      else Some StopIteration.
Proof.
  intros E0 Ex Hwf Hk g todo. unfold g, iter_after.
  rewrite (pull_iter_kernel _ _ a) by done. cbn [fst snd].
  rewrite decide_False by lia.
  unfold yields_of, store_after, raised_by.
  destruct (decide (k ≤ nrows a * ncols a)) as [Hle|Hgt].
  - rewrite (pull_at _ _ a);
      [|done|done|apply Forall_drop, pixel_positions_in_range].
    cbn [fst snd]. fold todo. split_and!; [done|done|].
    unfold todo. rewrite length_drop, length_pixel_positions.
    repeat case_decide; done || lia.
  - rewrite pull_ended. cbn [fst snd].
    unfold todo. rewrite drop_ge by (rewrite length_pixel_positions; lia).
    rewrite take_nil. simpl. rewrite app_nil_r.
    split_and!; [done|done|]. repeat case_decide; done || lia.
Qed.

(** C8.  [iter_kernel] never changes the image, and every mask it yields
    is a new array: when a consumer overwrites a mask yielded earlier with
    anything at all, the run goes on exactly as it would have, the later
    triples hold the same masks and windows, and the other triples yielded
    before are unchanged; nor does advancing the generator change a triple
    yielded before. *)
Theorem iter_kernel_independent H0 image a (size : Z) k n mask c :
  H0 !! image = Some (CFloat a) → wf_ndarray a →
  let g0 := iter_kernel image size in
  let past := yields_of k g0 H0 in
  let g := iter_after k g0 H0 in
  let H := store_after k g0 H0 in
  mask ∈ mask_of <$> past →
  let H' := <[mask := c]> H in
  H !! image = Some (CFloat a)
  ∧ store_after n g H !! image = Some (CFloat a)
  ∧ store_after n g H' !! image = Some (CFloat a)
  ∧ NoDup (mask_of <$> (past ++ yields_of n g H))
  ∧ Forall (λ y, length H0 ≤ mask_of y ∧ v_base (window_of y) = image)
           (past ++ yields_of n g H)
  ∧ yields_of n g H' = yields_of n g H
  ∧ raised_by n g H' = raised_by n g H
  ∧ store_after n g H' = <[mask := c]> (store_after n g H)
  ∧ (∀ y, y ∈ past ++ yields_of n g H → mask_of y ≠ mask →
          observe (store_after n g H') y = observe (store_after n g H) y)
  ∧ (∀ y, y ∈ past → observe (store_after n g H) y = observe H y).
Proof.
  intros E0 Hwf g0 past g H Hin H'.
  set (ps := pixel_positions (nrows a) (ncols a)).
  assert (past = yields_from image (nrows a) (ncols a) size (length H0) (take k ps)
          ∧ H = H0 ++ (take k ps ≫= step_cells (nrows a) (ncols a) size))
    as [Hpast HH].
  { unfold past, H, g0, yields_of, store_after.
    by rewrite (pull_iter_kernel _ _ a) by done. }
  assert (1 ≤ k) as Hk.
  { destruct k; [|lia]. rewrite Hpast in Hin. by apply elem_of_nil in Hin. }
  assert (length H = length H0 + 2 * length (take k ps)) as HlenH.
  { by rewrite HH, length_app, length_step_cells. }
  assert (image < length H0) as Himage by (by eapply lookup_lt_Some).
  assert (length H0 < mask < length H) as Hmask.
  { apply list_elem_of_fmap in Hin as (y & -> & Hy). rewrite Hpast in Hy.
    apply elem_of_yields_from in Hy as (t & Ht & -> & _). lia. }
  assert (H !! image = Some (CFloat a)) as EH.
  { rewrite HH. by apply lookup_app_l_Some. }
  assert (H' !! image = Some (CFloat a)) as EH'.
  { unfold H'. rewrite list_lookup_insert_ne by lia. done. }
  destruct (pull_resumed H0 H image a size k n E0 EH Hwf Hk) as (Hy & Hs & Hr).
  destruct (pull_resumed H0 H' image a size k n E0 EH' Hwf Hk) as (Hy' & Hs' & Hr').
  fold g0 g ps in Hy, Hs, Hr, Hy', Hs', Hr'.
  assert (length H' = length H) as Hlen' by apply length_insert.
  assert (past ++ yields_of n g H
          = yields_from image (nrows a) (ncols a) size (length H0)
              (take k ps ++ take n (drop k ps))) as Hall.
  { rewrite yields_from_app, Hy, Hpast, HlenH. done. }
  assert (∀ y, y ∈ past ++ yields_of n g H →
               length H0 < mask_of y ∧ v_base (window_of y) = image) as Hys.
  { intros y Hyin. rewrite Hall in Hyin.
    apply elem_of_yields_from in Hyin as (t & _ & -> & ->). split; [lia|done]. }
  split_and!.
  - done.
  - rewrite Hs. by apply lookup_app_l_Some.
  - rewrite Hs'. by apply lookup_app_l_Some.
  - rewrite Hall. apply NoDup_yields_from.
  - apply Forall_forall. intros y Hyin.
    destruct (Hys y Hyin). split; [lia|done].
  - by rewrite Hy, Hy', Hlen'.
  - by rewrite Hr, Hr'.
  - rewrite Hs, Hs'. unfold H'. by rewrite insert_app_l by lia.
  - intros y Hyin Hne. destruct (Hys y Hyin) as [Hm Hb].
    rewrite Hs', Hs. unfold H'. rewrite <-insert_app_l by lia.
    apply observe_insert_ne; [done|]. rewrite Hb. lia.
  - intros y Hyin. rewrite Hs. apply observe_app.
    + rewrite Hpast in Hyin.
      apply elem_of_yields_from in Hyin as (t & Ht & -> & _). lia.
    + destruct (Hys y) as [_ ->]; [|lia]. apply elem_of_app. by left.
Qed.

(** ** Arguments that the specification rejects *)

Lemma negative_one_window (a : ndarray Qc) i j :
  wf_ndarray a →
  getitem_slices a (kernel_index (nrows a) (ncols a) (-1) i j)
  = Ok (NdArray 0 0 []).
Proof.
  intros [Hlen _]. rewrite kernel_index_ok.
  assert (∀ n n' (x : nat),
            slice_len n (Slice (Z.max (Z.of_nat x - -1) 0)
                               (Z.min (Z.of_nat x + -1 + 1) (Z.of_nat n'))) = 0)
    as Hzero.
  { intros n n' x. unfold slice_len, slice_hi, slice_lo, slice_bound. simpl.
    destruct (Z.ltb_spec (Z.min (Z.of_nat x + -1 + 1) (Z.of_nat n')) 0);
      destruct (Z.ltb_spec (Z.max (Z.of_nat x - -1) 0) 0); lia. }
  rewrite !Hzero. do 2 f_equal.
  unfold slice_list at 2. rewrite Hzero. by rewrite take_0.
Qed.

(** C4, as the code has it.  [iter_kernel] checks none of its arguments
    and raises nothing for a negative half-width or for an image without
    rows or without columns: it yields [height * width] triples, which is
    none when a dimension is zero, and then ends like any exhausted
    generator; with half-width -1 every window is empty. *)
Theorem iter_kernel_no_validation H image a (size : Z) n :
  H !! image = Some (CFloat a) → wf_ndarray a →
  (size < 0)%Z ∨ nrows a = 0 ∨ ncols a = 0 →
  let g := iter_kernel image size in
  raised_by n g H
  = (if decide (n ≤ nrows a * ncols a) then None else Some StopIteration)
  ∧ length (yields_of n g H) = n `min` (nrows a * ncols a)
  ∧ (nrows a = 0 ∨ ncols a = 0 → yields_of n g H = [])
  ∧ (size = (-1)%Z → ∀ y, y ∈ yields_of n g H →
       (read_view (window_of y) (store_after n g H)).1 = Ok (NdArray 0 0 [])).
Proof.
  intros E Hwf _ g. unfold g. split_and!.
  - by apply raised_by_iter_kernel.
  - rewrite <-(length_fmap position_of), (yields_of_positions _ _ a) by done.
    by rewrite length_take, length_pixel_positions.
  - intros Hzero. apply length_zero_iff_nil.
    rewrite <-(length_fmap position_of), (yields_of_positions _ _ a) by done.
    rewrite length_take, length_pixel_positions. lia.
  - intros -> y Hy. apply list_elem_of_lookup in Hy as [k Hk].
    destruct (yields_of_lookup _ _ _ _ _ _ _ E Hwf Hk)
      as (_ & _ & _ & -> & _ & Himg).
    unfold window_of. cbn [snd].
    rewrite (read_view_eq _ _ a) by done. cbn [fst v_index].
    by apply negative_one_window.
Qed.

(* ===================================================================== *)
(** ** Properties of [mean_filter_demo]                                   *)
(* ===================================================================== *)





(** C10.  However the step function has been called before, a call with
    step index [i_step] only appends frames to the cache, up to
    [i_step + 1] of them at most, and changes no array that existed
    before the call; a call for a step that is already in the cache
    changes nothing at all, so the generator is not advanced; a call for
    a step of the sweep that is not yet in the cache, made on a cache that
    is not empty or for step 0, shows that step.  The image
    is never changed, and the filtered image of every frame is a new
    array that agrees with the filtered image of the frame before it
    (with the image, for the first frame) in every pixel but the one at
    the position of that frame in row-major order; that pixel holds what
    the demo computes from the window of the image at that position. *)
Theorem mean_filter_step_frames H0 image a steps (i_step : Z) :
  H0 !! image = Some (CFloat a) → wf_ndarray a →
  let s := mean_filter_steps steps (mean_filter_demo image) H0 in
  let r := mean_filter_step i_step s.1 s.2 in
  let cache := d_cache s.1 in
  let cache' := d_cache r.1.2 in
  cache `prefix_of` cache'
  ∧ length cache' ≤ length cache `max` Z.to_nat (i_step + 1)
  ∧ s.2 `prefix_of` r.2
  ∧ (∀ m e, cache !! m = Some e → e.1 < length s.2 ∧ e.2 < length s.2)
  ∧ ((0 ≤ i_step < Z.of_nat (length cache))%Z →
       r.1.2 = s.1 ∧ r.2 = s.2 ∧ r.1.1 = py_index cache i_step
       ∧ is_ok r.1.1 = true)
  ∧ ((0 ≤ i_step < Z.of_nat (nrows a * ncols a))%Z →
       i_step = 0%Z ∨ 1 ≤ length cache →
       ∃ e, r.1.1 = Ok e ∧ cache' !! Z.to_nat i_step = Some e
            ∧ length cache' = length cache `max` Z.to_nat (i_step + 1))
  ∧ r.2 !! image = Some (CFloat a)
  ∧ (∀ m e, cache' !! m = Some e →
       ∃ fr prev,
         r.2 !! e.2 = Some (CFloat fr)
         ∧ match m with
           | 0 => prev = a ∧ e.2 ≠ image
           | S m' => ∃ e', cache' !! m' = Some e'
                           ∧ r.2 !! e'.2 = Some (CFloat prev) ∧ e'.2 ≠ e.2
           end
         ∧ nrows fr = nrows prev ∧ ncols fr = ncols prev
         ∧ (∀ x y, (x, y) ≠ row_major (ncols a) m →
              at2 0%Qc fr x y = at2 0%Qc prev x y)
         ∧ ∃ win,
             getitem_slices a
               (kernel_index (nrows a) (ncols a) 1
                  (row_major (ncols a) m).1 (row_major (ncols a) m).2)
             = Ok win
             ∧ at2 0%Qc fr (row_major (ncols a) m).1 (row_major (ncols a) m).2
               = astype dt (np_sum (np_scale mean_factor win))).
Proof.
  intros E Hwf s r cache cache'.
  pose proof (mean_filter_steps_inv image a steps _ _ (demo_inv_new _ _ _ E) Hwf)
    as Hinv. fold s in Hinv.
  destruct (mean_filter_step_spec image a i_step _ _ Hinv Hwf)
    as (res & d' & K & new & Hr & Hinv' & Hc & Hb & Hrev & Hgo).
  fold r in Hr. unfold cache'. rewrite Hr. cbn [fst snd].
  fold cache in Hc, Hb, Hrev, Hgo.
  pose proof Hinv' as [_ Hst' _ Hcnt' Hfr'].
  split_and!.
  - rewrite Hc. by apply prefix_app_r.
  - rewrite Hc, length_app. lia.
  - by apply prefix_app_r.
  - intros m e He. by apply (demo_inv_frame_lt image a s.1 s.2 m).
  - intros Hk. destruct (Hrev Hk) as (-> & -> & ->).
    rewrite app_nil_r. split_and!; [done..|].
    destruct (lookup_lt_is_Some_2 cache (Z.to_nat i_step)) as [e He]; [lia|].
    by rewrite (py_index_inside _ _ e) by (done || lia).
  - intros Hk Hfirst. destruct (Hgo Hk Hfirst) as (e & -> & He).
    exists e. split_and!; [done|done|].
    apply lookup_lt_Some in He. rewrite Hc, length_app in *. lia.
  - done.
  - intros m e He.
    destruct (Hfr' _ _ He) as (Hf & _ & Hne & Hinj).
    assert (m < nrows a * ncols a) as Hm.
    { apply lookup_lt_Some in He. lia. }
    destruct (demo_frame_shape a m) as [Hh Hw].
    destruct (demo_previous_shape a m) as [Hh' Hw'].
    exists (demo_frame a m), (demo_previous a m).
    split_and!; [done| |by rewrite Hh, Hh'|by rewrite Hw, Hw'| |].
    + destruct m as [|m']; [done|].
      destruct (lookup_lt_is_Some_2 (d_cache d') m') as [e' He'].
      { apply lookup_lt_Some in He. lia. }
      exists e'. destruct (Hfr' _ _ He') as (Hf' & _).
      split_and!; [done|done|].
      intros Heq. specialize (Hinj _ _ He' Heq). lia.
    + intros x y Hxy. rewrite demo_frame_at by done.
      rewrite decide_False; [done|]. intros [-> ->]. apply Hxy.
      by destruct (row_major (ncols a) m).
    + destruct (row_major_in_range _ _ _ Hm) as [Hi Hj].
      destruct (window_spec a 1 _ _ Hwf ltac:(lia) Hi Hj) as (win & Hwin & _).
      exists win. split; [done|].
      rewrite demo_frame_at by done. rewrite decide_True by done.
      unfold demo_value.
      rewrite (demo_window_eq a m (row_major (ncols a) m).1
                 (row_major (ncols a) m).2 win); [done| |done].
      by destruct (row_major (ncols a) m).
Qed.

(* ===================================================================== *)
(** ** Further properties of the iterators                                *)
(* ===================================================================== *)

(** *** [iter_pixels] *)

Lemma ravel_tabulate2 {A} h w (f : nat → nat → A) :
  ravel (NdArray h w (tabulate2 h w f))
  = (λ p, f p.1 p.2) <$> pixel_positions h w.
Proof.
  unfold ravel, tabulate2, pixel_positions. cbn [cells].
  induction (seq 0 h) as [|r rs IH]; [done|].
  rewrite fmap_cons, bind_cons, fmap_app. cbn [concat]. rewrite IH. f_equal.
  rewrite <-list_fmap_compose. by apply list_fmap_ext.
Qed.

Lemma ndarray_tabulate2 {A} (d : A) (a : ndarray A) :
  wf_ndarray a →
  a = NdArray (nrows a) (ncols a) (tabulate2 (nrows a) (ncols a) (at2 d a)).
Proof.
  intros Hwf. apply (ndarray_ext d); [done|apply wf_tabulate2|done|done|].
  intros r c Hr Hc. by rewrite at2_tabulate2.
Qed.

(** The elements of an array are its cells in row-major order. *)
Lemma ravel_positions (a : ndarray Qc) :
  wf_ndarray a → ravel a = pixel_at a <$> pixel_positions (nrows a) (ncols a).
Proof.
  intros Hwf. rewrite (ndarray_tabulate2 0%Qc a Hwf) at 1.
  by rewrite ravel_tabulate2.
Qed.

Lemma pixel_iter_next_new H image a :
  H !! image = Some (CFloat a) →
  pixel_iter_next (iter_pixels image) H
  = pixel_iter_next
      (PixelIter image (Some (pixel_positions (nrows a) (ncols a)))) H.
Proof.
  intros E. unfold pixel_iter_next, iter_pixels. simpl.
  by rewrite (read_float_eq _ _ _ E).
Qed.

Lemma pixel_pull_at H image a ps n :
  H !! image = Some (CFloat a) → wf_ndarray a → Forall (in_range a) ps →
  pixel_pull n (PixelIter image (Some ps)) H
  = ((λ p, (p, pixel_at a p)) <$> take n ps,
     if decide (n ≤ length ps) then None else Some StopIteration,
     PixelIter image (Some (drop n ps))).
Proof.
  intros E Hwf. revert ps.
  induction n as [|n IH]; intros ps Hps.
  - cbn [pixel_pull]. rewrite take_0, drop_0. by rewrite decide_True by lia.
  - destruct ps as [|[i j] ps]; [done|].
    apply Forall_cons in Hps as [Hp Hps].
    cbn [pixel_pull]. rewrite (pixel_iter_next_at _ _ a) by done.
    rewrite IH by done. cbn [take drop fmap list_fmap length].
    repeat case_decide; done || lia.
Qed.

Lemma pixel_pull_new H image a n :
  H !! image = Some (CFloat a) → wf_ndarray a →
  (pixel_pull n (iter_pixels image) H).1
  = ((λ p, (p, pixel_at a p)) <$> take n (pixel_positions (nrows a) (ncols a)),
     if decide (n ≤ nrows a * ncols a) then None else Some StopIteration).
Proof.
  intros E Hwf. destruct n as [|n].
  - cbn [pixel_pull fst]. rewrite take_0. by rewrite decide_True by lia.
  - cbn [pixel_pull]. rewrite (pixel_iter_next_new _ _ a) by done.
    change (match pixel_iter_next ?g H with
            | (Ok y, g') => let '(ys, e, g'') := pixel_pull n g' H in (y :: ys, e, g'')
            | (Raise e, g') => ([], Some e, g')
            end) with (pixel_pull (S n) g H).
    rewrite (pixel_pull_at _ _ a) by (done || apply pixel_positions_in_range).
    by rewrite length_pixel_positions.
Qed.

(** Calls that go on after the end of the sweep. *)
Lemma pixel_calls_at H image a ps n :
  H !! image = Some (CFloat a) → wf_ndarray a → Forall (in_range a) ps →
  pixel_calls n (PixelIter image (Some ps)) H
  = ((λ p, Ok (p, pixel_at a p)) <$> take n ps)
    ++ replicate (n - length ps) (Raise StopIteration).
Proof.
  intros E Hwf. revert ps.
  induction n as [|n IH]; intros ps Hps.
  - cbn [pixel_calls]. by rewrite take_0.
  - destruct ps as [|[i j] ps].
    + cbn [pixel_calls]. change (pixel_iter_next (PixelIter image (Some [])) H)
        with (@Raise (nat * nat * Qc) StopIteration, PixelIter image (Some [])).
      cbv beta iota. rewrite IH by done.
      rewrite !take_nil. cbn [length]. by rewrite !Nat.sub_0_r.
    + apply Forall_cons in Hps as [Hp Hps].
      cbn [pixel_calls]. rewrite (pixel_iter_next_at _ _ a) by done.
      cbv beta iota. rewrite IH by done. done.
Qed.

Lemma pixel_calls_new H image a n :
  H !! image = Some (CFloat a) → wf_ndarray a →
  pixel_calls n (iter_pixels image) H
  = ((λ p, Ok (p, pixel_at a p)) <$> take n (pixel_positions (nrows a) (ncols a)))
    ++ replicate (n - nrows a * ncols a) (Raise StopIteration).
Proof.
  intros E Hwf. destruct n as [|n].
  - cbn [pixel_calls]. by rewrite take_0.
  - cbn [pixel_calls]. rewrite (pixel_iter_next_new _ _ a) by done.
    change (let '(r, g') := pixel_iter_next ?g H in r :: pixel_calls n g' H)
      with (pixel_calls (S n) g H).
    rewrite (pixel_calls_at _ _ a) by (done || apply pixel_positions_in_range).
    by rewrite length_pixel_positions.
Qed.

(** X1.  A generator of [iter_pixels] on an image of shape [(h, w)] gives
    [h * w] items and then raises [StopIteration] at every further call,
    however many calls are made after the first one that raises; item [k]
    is the position [(k / w, k mod w)] with the pixel of the image there,
    so the intensities, in the order they come, are the elements of the
    flattened image. *)
Theorem iter_pixels_row_major H image a :
  H !! image = Some (CFloat a) → wf_ndarray a →
  let total := nrows a * ncols a in
  let items n := (pixel_pull n (iter_pixels image) H).1.1 in
  let raised n := (pixel_pull n (iter_pixels image) H).1.2 in
  (∀ n, length (items n) = n `min` total)
  ∧ (∀ n, raised n = if decide (n ≤ total) then None else Some StopIteration)
  ∧ (∀ n k, k < n `min` total →
       items n !! k
       = Some (k / ncols a, k `mod` ncols a,
               at2 0%Qc a (k / ncols a) (k `mod` ncols a)))
  ∧ snd <$> items total = ravel a
  ∧ (∀ n, length (pixel_calls n (iter_pixels image) H) = n)
  ∧ (∀ n k, k < n →
       pixel_calls n (iter_pixels image) H !! k
       = Some (if decide (k < total)
               then Ok (k / ncols a, k `mod` ncols a,
                        at2 0%Qc a (k / ncols a) (k `mod` ncols a))
               else Raise StopIteration)).
Proof.
  intros E Hwf total items raised. unfold items, raised, total.
  split_and!; cycle 4.
  - intros n. rewrite (pixel_calls_new _ _ a) by done.
    rewrite length_app, length_fmap, length_take, length_replicate.
    rewrite length_pixel_positions. lia.
  - intros n k Hk. rewrite (pixel_calls_new _ _ a) by done.
    case_decide as Hlt.
    + rewrite lookup_app_l
        by (rewrite length_fmap, length_take, length_pixel_positions; lia).
      rewrite list_lookup_fmap, lookup_take_lt by lia.
      by rewrite pixel_positions_lookup by lia.
    + rewrite lookup_app_r
        by (rewrite length_fmap, length_take, length_pixel_positions; lia).
      apply lookup_replicate_2.
      rewrite length_fmap, length_take, length_pixel_positions. lia.
  - intros n. rewrite (pixel_pull_new _ _ a) by done. cbn [fst].
    by rewrite length_fmap, length_take, length_pixel_positions.
  - intros n. by rewrite (pixel_pull_new _ _ a) by done.
  - intros n k Hk. rewrite (pixel_pull_new _ _ a) by done. cbn [fst].
    rewrite list_lookup_fmap, lookup_take_lt by lia.
    rewrite pixel_positions_lookup by lia. done.
  - rewrite (pixel_pull_new _ _ a) by done. cbn [fst].
    rewrite take_ge by (by rewrite length_pixel_positions).
    rewrite <-list_fmap_compose, ravel_positions by done.
    by apply list_fmap_ext.
Qed.

(** *** [bounded_slice] *)



(** *** The mask and the window of one triple *)

(** The clamped bounds along one axis. *)
Lemma clamp_lo_le (size : Z) i : (0 ≤ size)%Z → clamp_lo size i ≤ i.
Proof. unfold clamp_lo. lia. Qed.

Lemma clamp_hi_gt n (size : Z) i : (0 ≤ size)%Z → i < n → i < clamp_hi n size i.
Proof. unfold clamp_hi. lia. Qed.

Lemma clamp_hi_le n (size : Z) i : clamp_hi n size i ≤ n.
Proof. unfold clamp_hi. lia. Qed.

Lemma clamp_near n (size : Z) i r :
  (0 ≤ size)%Z → i < n → r < n →
  (Z.abs (Z.of_nat r - Z.of_nat i) ≤ size)%Z
  ↔ clamp_lo size i ≤ r < clamp_hi n size i.
Proof. unfold clamp_lo, clamp_hi. lia. Qed.


Lemma clamp_lo_whole (size : Z) i : (Z.of_nat i ≤ size)%Z → clamp_lo size i = 0.
Proof. unfold clamp_lo. lia. Qed.

Lemma clamp_hi_whole n (size : Z) i :
  (Z.of_nat n ≤ Z.of_nat i + size + 1)%Z → clamp_hi n size i = n.
Proof. unfold clamp_hi. lia. Qed.

(** The cells of the mask that are not 0 are those of the clamped
    square. *)
Lemma kernel_mask_marked h w (size : Z) i j r c :
  (0 ≤ size)%Z → i < h → j < w → r < h → c < w →
  at2 0%Z (kernel_mask h w size i j) r c ≠ 0%Z
  ↔ (clamp_lo size i ≤ r < clamp_hi h size i)
    ∧ (clamp_lo size j ≤ c < clamp_hi w size j).
Proof.
  intros Hs Hi Hj Hr Hc. rewrite kernel_mask_at by done.
  rewrite <-(clamp_near h size i r), <-(clamp_near w size j c) by done.
  destruct (decide (r = i ∧ c = j)) as [[-> ->]|Hne].
  - split; [intros _|done]. rewrite !Z.sub_diag. simpl. lia.
  - case_decide; split; done.
Qed.

Lemma kernel_mask_centre h w (size : Z) i j r c :
  (0 ≤ size)%Z → i < h → j < w → r < h → c < w →
  at2 0%Z (kernel_mask h w size i j) r c = 2%Z ↔ (r, c) = (i, j).
Proof.
  intros Hs Hi Hj Hr Hc. rewrite kernel_mask_at by done.
  destruct (decide (r = i ∧ c = j)) as [[-> ->]|Hne]; [done|].
  split.
  - case_decide; done.
  - intros [= -> ->]. tauto.
Qed.

(** X3.  In every triple of [iter_kernel], for a half-width that is not
    negative, the mask marks the cells of the window and no other: a cell
    of the image is not 0 in the mask exactly when it lies in the
    rectangle the window is cut from, whose first row is
    [max(i - size, 0)] and whose first column is [max(j - size, 0)]; the
    window holds the pixels of that rectangle, among them the pixel at the
    position of the triple, and that position is the only cell marked
    2. *)
Theorem iter_kernel_mask_marks_window H image a (size : Z) n k i j mask sub :
  H !! image = Some (CFloat a) → wf_ndarray a → (0 ≤ size)%Z →
  yields_of n (iter_kernel image size) H !! k = Some (i, j, mask, sub) →
  let H' := store_after n (iter_kernel image size) H in
  let r0 := clamp_lo size i in
  let c0 := clamp_lo size j in
  ∃ m win,
    H' !! mask = Some (CInt m) ∧ (read_view sub H').1 = Ok win
    ∧ (∀ r c, r < nrows a → c < ncols a →
         at2 0%Z m r c ≠ 0%Z
         ↔ (r0 ≤ r < r0 + nrows win) ∧ (c0 ≤ c < c0 + ncols win))
    ∧ (∀ r c, r < nrows win → c < ncols win →
         at2 0%Qc win r c = at2 0%Qc a (r0 + r) (c0 + c))
    ∧ (r0 ≤ i < r0 + nrows win) ∧ (c0 ≤ j < c0 + ncols win)
    ∧ at2 0%Qc win (i - r0) (j - c0) = at2 0%Qc a i j
    ∧ (∀ r c, r < nrows a → c < ncols a →
         at2 0%Z m r c = 2%Z ↔ (r, c) = (i, j)).
Proof.
  intros E Hwf Hs Hy H' r0 c0.
  destruct (yields_of_lookup _ _ _ _ _ _ _ E Hwf Hy)
    as (Hkn & Hk & [Hi Hj] & Heq & Hmask & Himg).
  assert (row_major (ncols a) k = (i, j)) as Hpos by congruence.
  rewrite Hpos in *. cbn [fst snd] in Hi, Hj, Hmask, Heq.
  assert (mask = S (length H + 2 * k)
          ∧ sub = View image (kernel_index (nrows a) (ncols a) size i j))
    as [-> ->] by (split; congruence).
  destruct (window_spec a size i j Hwf Hs Hi Hj)
    as (win & Hwin & Hnr & Hnc & Hwfw & Hat).
  fold r0 c0 in Hnr, Hnc, Hat.
  pose proof (clamp_lo_le size i Hs) as Hr0. fold r0 in Hr0.
  pose proof (clamp_lo_le size j Hs) as Hc0. fold c0 in Hc0.
  pose proof (clamp_hi_gt (nrows a) size i Hs Hi) as Hr1.
  pose proof (clamp_hi_gt (ncols a) size j Hs Hj) as Hc1.
  assert (r0 + nrows win = clamp_hi (nrows a) size i) as Hr2 by lia.
  assert (c0 + ncols win = clamp_hi (ncols a) size j) as Hc2 by lia.
  clear Hkn Hk Heq Hpos Hy.
  exists (kernel_mask (nrows a) (ncols a) size i j), win.
  unfold H'. rewrite (read_view_eq _ _ a) by done. cbn [fst v_index].
  split; [done|]. split; [done|].
  split; [|split; [done|split; [lia|split; [lia|split]]]].
  - intros r c Hr Hc. rewrite Hr2, Hc2. by apply kernel_mask_marked.
  - replace i with (r0 + (i - r0)) at 2 by lia.
    replace j with (c0 + (j - c0)) at 2 by lia.
    apply Hat; lia.
  - intros r c Hr Hc. by apply kernel_mask_centre.
Qed.

(** X4.  When the half-width is at least the height and the width of the
    image less one, the kernel covers the image from every position:
    every window is the whole image, and every mask is 1 in all cells but
    the one at the position of the triple, which is 2. *)
Theorem iter_kernel_covers_image H image a (size : Z) n k i j mask sub :
  H !! image = Some (CFloat a) → wf_ndarray a →
  (Z.of_nat (nrows a) ≤ size + 1)%Z → (Z.of_nat (ncols a) ≤ size + 1)%Z →
  yields_of n (iter_kernel image size) H !! k = Some (i, j, mask, sub) →
  let H' := store_after n (iter_kernel image size) H in
  (read_view sub H').1 = Ok a
  ∧ ∃ m, H' !! mask = Some (CInt m)
         ∧ nrows m = nrows a ∧ ncols m = ncols a
         ∧ ∀ r c, r < nrows a → c < ncols a →
             at2 0%Z m r c = if decide ((r, c) = (i, j)) then 2%Z else 1%Z.
Proof.
  intros E Hwf Hh Hw Hy H'.
  destruct (yields_of_lookup _ _ _ _ _ _ _ E Hwf Hy)
    as (Hkn & Hk & [Hi Hj] & Heq & Hmask & Himg).
  assert (row_major (ncols a) k = (i, j)) as Hpos by congruence.
  rewrite Hpos in *. cbn [fst snd] in Hi, Hj, Hmask, Heq.
  assert (mask = S (length H + 2 * k)
          ∧ sub = View image (kernel_index (nrows a) (ncols a) size i j))
    as [-> ->] by (split; congruence).
  assert (0 ≤ size)%Z as Hs by lia.
  clear Hkn Hk Heq Hpos Hy.
  destruct (window_spec a size i j Hwf Hs Hi Hj)
    as (win & Hwin & Hnr & Hnc & Hwfw & Hat).
  rewrite (clamp_lo_whole size i), (clamp_hi_whole (nrows a) size i) in Hnr by lia.
  rewrite (clamp_lo_whole size j), (clamp_hi_whole (ncols a) size j) in Hnc by lia.
  rewrite (clamp_lo_whole size i), (clamp_lo_whole size j) in Hat by lia.
  split.
  - unfold H'. rewrite (read_view_eq _ _ a) by done. cbn [fst v_index].
    rewrite Hwin. f_equal.
    apply (ndarray_ext 0%Qc); [done|done|lia|lia|].
    intros r c Hr Hc. by rewrite Hat.
  - exists (kernel_mask (nrows a) (ncols a) size i j).
    destruct (kernel_mask_shape (nrows a) (ncols a) size i j) as [Hmh Hmw].
    split_and!; [done|done|done|].
    intros r c Hr Hc.
    destruct (decide ((r, c) = (i, j))) as [Hp|Hp].
    + by apply kernel_mask_centre.
    + pose proof (proj2 (kernel_mask_marked (nrows a) (ncols a) size i j r c
                           Hs Hi Hj Hr Hc)) as Hmark.
      rewrite (clamp_lo_whole size i), (clamp_hi_whole (nrows a) size i),
        (clamp_lo_whole size j), (clamp_hi_whole (ncols a) size j) in Hmark by lia.
      specialize (Hmark ltac:(lia)).
      rewrite kernel_mask_at in Hmark |- * by done.
      rewrite decide_False in Hmark |- * by (intros [-> ->]; by apply Hp).
      case_decide; done.
Qed.

(* ===================================================================== *)
(** ** Further properties of [mean_filter_demo]                           *)
(* ===================================================================== *)

(** *** Every way a call can end *)

Lemma demo_overlays_new a image H : demo_overlays a (mean_filter_demo image) H.
Proof. intros m e He. done. Qed.

Lemma demo_overlays_app a g d H K :
  demo_overlays a d H → demo_overlays a (Demo (d_image d) g (d_cache d)) (H ++ K).
Proof. intros Hov m e He. apply lookup_app_l_Some. by apply Hov. Qed.

Lemma py_index_negative {A} (l : list A) (i : Z) :
  (i < 0)%Z →
  (∃ x, py_index l i = Ok x
        ∧ l !! Z.to_nat (Z.of_nat (length l) + i) = Some x
        ∧ (- Z.of_nat (length l) ≤ i)%Z)
  ∨ (py_index l i = Raise IndexError ∧ (i < - Z.of_nat (length l))%Z).
Proof.
  intros Hi. unfold py_index.
  destruct (Z.ltb_spec i 0); [|lia].
  destruct (Z.ltb_spec (i + Z.of_nat (length l)) 0).
  - right. split; [done|lia].
  - left.
    destruct (lookup_lt_is_Some_2 l (Z.to_nat (i + Z.of_nat (length l))))
      as [x Hx]; [lia|].
    exists x. rewrite Hx. split_and!; [done| |lia].
    by replace (Z.of_nat (length l) + i)%Z with (i + Z.of_nat (length l))%Z by lia.
Qed.

(** One round of the loop ends in one of three ways. *)
Lemma mean_filter_round_outcome image a d H (k : Z) :
  demo_inv image a d H → demo_overlays a d H → wf_ndarray a →
  (Z.of_nat (length (d_cache d)) ≤ k)%Z →
  ∃ res d' K,
    mean_filter_round k d H = (res, d', H ++ K)
    ∧ demo_inv image a d' (H ++ K) ∧ demo_overlays a d' (H ++ K)
    ∧ ((k ≠ 0%Z ∧ length (d_cache d) = 0
        ∧ res = Raise IndexError ∧ d' = d ∧ K = [])
       ∨ ((k = 0%Z ∨ 1 ≤ length (d_cache d))
          ∧ length (d_cache d) < nrows a * ncols a
          ∧ res = Ok () ∧ ∃ e, d_cache d' = d_cache d ++ [e])
       ∨ ((k = 0%Z ∨ 1 ≤ length (d_cache d))
          ∧ length (d_cache d) = nrows a * ncols a
          ∧ res = Raise StopIteration ∧ d_cache d' = d_cache d)).
Proof.
  intros Hinv Hov Hwf Hk. pose proof Hinv as [Himg Hst Hit Hcnt Hfr].
  destruct (decide (k ≠ 0%Z ∧ length (d_cache d) = 0)) as [[Hk0 Hn0]|Hcase].
  - exists (Raise IndexError), d, []. rewrite app_nil_r.
    split_and!; [|done|done|left; done].
    unfold mean_filter_round.
    rewrite round_source_empty; [done|done|].
    by destruct (d_cache d).
  - assert ((k = 0%Z ∧ length (d_cache d) = 0)
            ∨ (k ≠ 0%Z ∧ 1 ≤ length (d_cache d))) as Hsrc by lia.
    destruct (decide (length (d_cache d) < nrows a * ncols a)) as [Hn|Hn].
    + destruct (row_major (ncols a) (length (d_cache d))) as [i j] eqn:Hp.
      eexists _, _, _. split; [by apply (mean_filter_round_ok image a)|].
      split_and!.
      * apply demo_inv_push; [done|done| |].
        -- by apply lookup_app_new.
        -- rewrite length_app. simpl. lia.
      * intros m e He. cbn [d_cache] in He.
        apply lookup_app_Some in He as [He|[Hm He]].
        -- apply lookup_app_l_Some. by apply Hov.
        -- apply list_lookup_singleton_Some in He as [Hm0 <-].
           assert (m = length (d_cache d)) as -> by lia.
           cbn [fst]. rewrite Hp. cbn [fst snd].
           rewrite lookup_app_r by lia.
           by replace (length H + 3 - length H) with 3 by lia.
      * right; left. split_and!; [lia|done|done|]. by eexists.
    + eexists (Raise StopIteration), _, [_]. split_and!.
      * unfold mean_filter_round.
        rewrite (round_source_ok image a) by done.
        rewrite (demo_next_end _ image a (length (d_cache d)));
          [done|done|by apply lookup_app_l_Some|lia].
      * apply demo_inv_raise; [done|]. right; right. split; [lia|done].
      * by apply demo_overlays_app.
      * right; right. split_and!; [lia|lia|done|done].
Qed.

(** The loop, given rounds enough. *)
Lemma mean_filter_while_outcome image a rounds (k : Z) d H :
  demo_inv image a d H → demo_overlays a d H → wf_ndarray a →
  (k + 1 - Z.of_nat (length (d_cache d)) ≤ Z.of_nat rounds)%Z →
  ∃ res d' K new,
    mean_filter_while rounds k d H = (res, d', H ++ K)
    ∧ demo_inv image a d' (H ++ K) ∧ demo_overlays a d' (H ++ K)
    ∧ d_cache d' = d_cache d ++ new
    ∧ (((k < Z.of_nat (length (d_cache d)))%Z ∧ res = Ok () ∧ d' = d ∧ K = [])
       ∨ ((Z.of_nat (length (d_cache d)) ≤ k)%Z ∧ k ≠ 0%Z
          ∧ length (d_cache d) = 0
          ∧ res = Raise IndexError ∧ d' = d ∧ K = [])
       ∨ ((Z.of_nat (length (d_cache d)) ≤ k < Z.of_nat (nrows a * ncols a))%Z
          ∧ (k = 0%Z ∨ 1 ≤ length (d_cache d))
          ∧ res = Ok () ∧ length (d_cache d') = Z.to_nat k + 1)
       ∨ ((Z.of_nat (length (d_cache d)) ≤ k)%Z
          ∧ (Z.of_nat (nrows a * ncols a) ≤ k)%Z
          ∧ (k = 0%Z ∨ 1 ≤ length (d_cache d))
          ∧ res = Raise StopIteration
          ∧ length (d_cache d') = nrows a * ncols a)).
Proof.
  intros Hinv Hov Hwf. revert d H Hinv Hov.
  induction rounds as [|rounds IH]; intros d H Hinv Hov Hfuel.
  - exists (Ok ()), d, [], []. rewrite !app_nil_r.
    split_and!; [|done|done|done|left; split_and!; [lia|done..]].
    simpl. by case_decide.
  - cbn [mean_filter_while]. case_decide as Hcond.
    + destruct (mean_filter_round_outcome image a d H k Hinv Hov Hwf Hcond)
        as (res1 & d1 & K1 & -> & Hinv1 & Hov1 & Hcases).
      destruct Hcases as [(Hk0 & Hn0 & -> & -> & ->)
                         |[(Hfirst & Hn & -> & e1 & Hc1)
                          |(Hfirst & Hn & -> & Hc1)]].
      * exists (Raise IndexError), d, [], []. rewrite !app_nil_r.
        split_and!; [done|done|done|done|].
        right; left. by split_and!.
      * destruct (IH d1 (H ++ K1) Hinv1 Hov1)
          as (res & d' & K & new & -> & Hinv' & Hov' & Hc' & Hcases).
        { rewrite Hc1, length_app. simpl. lia. }
        exists res, d', (K1 ++ K), (e1 :: new). rewrite app_assoc.
        split_and!; [done|done|done| |].
        { rewrite Hc', Hc1. by rewrite <-app_assoc. }
        rewrite Hc1, length_app in Hcases. simpl in Hcases.
        destruct Hcases as [(Hlt & -> & -> & ->)
                           |[(_ & _ & Hz & _)
                            |[(Hin & _ & -> & Hlen)
                             |(Hge & Hend & _ & -> & Hlen)]]].
        -- right; right; left. split_and!; [lia|lia|done|done|].
           rewrite Hc1, length_app. simpl. lia.
        -- lia.
        -- right; right; left. split_and!; [lia|lia|done|done|done].
        -- right; right; right. split_and!; [lia|done|done|done|done].
      * exists (Raise StopIteration), d1, K1, []. rewrite app_nil_r.
        split_and!; [done|done|done|done|].
        right; right; right. split_and!; [lia|lia|done|done|].
        by rewrite Hc1.
    + exists (Ok ()), d, [], []. rewrite !app_nil_r.
      split_and!; [done|done|done|done|left; split_and!; [lia|done..]].
Qed.

(** [mean_filter_step] *)
Lemma mean_filter_step_cases image a (k : Z) d H :
  demo_inv image a d H → demo_overlays a d H → wf_ndarray a →
  ∃ res d' K new,
    mean_filter_step k d H = (res, d', H ++ K)
    ∧ demo_inv image a d' (H ++ K) ∧ demo_overlays a d' (H ++ K)
    ∧ d_cache d' = d_cache d ++ new
    ∧ (((k < 0)%Z ∧ res = py_index (d_cache d) k ∧ d' = d ∧ K = [])
       ∨ ((0 < k)%Z ∧ length (d_cache d) = 0
          ∧ res = Raise IndexError ∧ d' = d ∧ K = [])
       ∨ ((0 ≤ k < Z.of_nat (nrows a * ncols a))%Z
          ∧ (k = 0%Z ∨ 1 ≤ length (d_cache d))
          ∧ (∃ e, res = Ok e ∧ d_cache d' !! Z.to_nat k = Some e)
          ∧ ((k < Z.of_nat (length (d_cache d)))%Z → d' = d ∧ K = [])
          ∧ length (d_cache d') = length (d_cache d) `max` (Z.to_nat k + 1))
       ∨ ((Z.of_nat (nrows a * ncols a) ≤ k)%Z
          ∧ (k = 0%Z ∨ 1 ≤ length (d_cache d))
          ∧ res = Raise StopIteration
          ∧ length (d_cache d') = nrows a * ncols a)).
Proof.
  intros Hinv Hov Hwf. unfold mean_filter_step.
  destruct (mean_filter_while_outcome image a
              (Z.to_nat (k + 1 - Z.of_nat (length (d_cache d)))) k d H
              Hinv Hov Hwf)
    as (res & d' & K & new & -> & Hinv' & Hov' & Hc & Hcases); [lia|].
  pose proof Hinv as [_ _ _ Hcnt _].
  destruct Hcases as [(Hlt & -> & -> & ->)
                     |[(Hge & Hk0 & Hn0 & -> & -> & ->)
                      |[(Hin & Hfirst & -> & Hlen)
                       |(Hge & Hend & Hfirst & -> & Hlen)]]].
  - exists (py_index (d_cache d) k), d, [], new.
    split_and!; [done|done|done|done|].
    destruct (decide (k < 0)%Z) as [Hneg|Hpos]; [left; done|].
    right; right; left. split_and!; [lia|lia|lia| |done|lia].
    destruct (lookup_lt_is_Some_2 (d_cache d) (Z.to_nat k)) as [e He]; [lia|].
    exists e. split; [|done]. apply py_index_inside; [lia|done].
  - exists (Raise IndexError), d, [], new.
    split_and!; [done|done|done|done|]. right; left. split_and!; [lia|done..].
  - exists (py_index (d_cache d') k), d', K, new.
    split_and!; [done|done|done|done|].
    right; right; left. split_and!; [lia|lia|done| |lia|lia].
    destruct (lookup_lt_is_Some_2 (d_cache d') (Z.to_nat k)) as [e He]; [lia|].
    exists e. split; [|done]. apply py_index_inside; [lia|done].
  - exists (Raise StopIteration), d', K, new.
    split_and!; [done|done|done|done|]. right; right; right. done.
Qed.

Lemma mean_filter_steps_overlays image a steps d H :
  demo_inv image a d H → demo_overlays a d H → wf_ndarray a →
  demo_overlays a (mean_filter_steps steps d H).1 (mean_filter_steps steps d H).2.
Proof.
  intros Hinv Hov Hwf. revert d H Hinv Hov.
  induction steps as [|k steps IH]; intros d H Hinv Hov; [done|].
  cbn [mean_filter_steps].
  destruct (mean_filter_step_cases image a k d H Hinv Hov Hwf)
    as (res & d' & K & new & -> & Hinv' & Hov' & _).
  by apply IH.
Qed.

(** X5.  After any calls made before, a call of the step function ends in
    one of three ways, and which one depends only on the step index, on
    the number of frames in the cache and on the number of pixels of the
    image.  It raises [IndexError] when the index is below the negated
    number of frames, or when no frame has been made yet and the index is
    not 0; it raises [StopIteration] when the index is the number of
    pixels or more (and the cache is not empty or the index is 0); in
    every other case it returns a frame of the cache: the frame of that
    index, counted from the end of the cache when the index is
    negative. *)
Theorem mean_filter_step_outcome H0 image a steps (i_step : Z) :
  H0 !! image = Some (CFloat a) → wf_ndarray a →
  let s := mean_filter_steps steps (mean_filter_demo image) H0 in
  let r := mean_filter_step i_step s.1 s.2 in
  let len := Z.of_nat (length (d_cache s.1)) in
  let total := Z.of_nat (nrows a * ncols a) in
  let unstarted := (len = 0 ∧ i_step ≠ 0)%Z in
  (r.1.1 = Raise IndexError ↔ (i_step < - len)%Z ∨ unstarted)
  ∧ (r.1.1 = Raise StopIteration ↔ (total ≤ i_step)%Z ∧ ¬ unstarted)
  ∧ (is_ok r.1.1 = true ↔ (- len ≤ i_step < total)%Z ∧ ¬ unstarted)
  ∧ (∀ e, r.1.1 = Ok e →
       d_cache r.1.2 !! cache_index (length (d_cache s.1)) i_step = Some e).
Proof.
  intros E Hwf s r len total unstarted.
  pose proof (mean_filter_steps_inv image a steps _ _ (demo_inv_new _ _ _ E) Hwf)
    as Hinv.
  pose proof (mean_filter_steps_overlays image a steps _ _
                (demo_inv_new _ _ _ E) (demo_overlays_new _ _ _) Hwf) as Hov.
  fold s in Hinv, Hov. pose proof Hinv as [_ _ _ Hcnt _].
  destruct (mean_filter_step_cases image a i_step _ _ Hinv Hov Hwf)
    as (res & d' & K & new & Hr & _ & _ & Hc & Hcases).
  fold r in Hr. rewrite Hr. cbn [fst snd].
  unfold unstarted, len, total, cache_index.
  destruct Hcases as [(Hneg & -> & -> & ->)
                     |[(Hpos & Hn0 & -> & -> & ->)
                      |[(Hin & Hfirst & (e & -> & He) & _)
                       |(Hend & Hfirst & -> & _)]]].
  - destruct (py_index_negative (d_cache s.1) i_step Hneg)
      as [(x & -> & Hx & Hge)|[-> Hlt]].
    + split_and!.
      * split; [done|]. lia.
      * split; [done|]. lia.
      * split; [intros _|done]. lia.
      * intros e [= <-]. by rewrite decide_True by done.
    + split_and!.
      * split; [intros _; by left|done].
      * split; [done|]. lia.
      * split; [done|]. lia.
      * done.
  - split_and!.
    + split; [intros _; right; lia|done].
    + split; [done|]. lia.
    + split; [done|]. lia.
    + done.
  - split_and!.
    + split; [done|]. lia.
    + split; [done|]. lia.
    + split; [intros _|done]. lia.
    + intros e' [= <-]. by rewrite decide_False by lia.
  - split_and!.
    + split; [done|]. lia.
    + split; [intros _|done]. lia.
    + split; [done|]. lia.
    + done.
Qed.

(** X6.  A call for a step past the end of the sweep, on a cache that is
    not empty, raises [StopIteration], but only after the frames of the
    whole sweep have been made: the cache then holds one frame for each
    pixel, and from then on every step of the sweep is shown from the
    cache, with nothing made and nothing changed. *)
Theorem mean_filter_step_past_end H0 image a steps (i_step : Z) :
  H0 !! image = Some (CFloat a) → wf_ndarray a →
  (Z.of_nat (nrows a * ncols a) ≤ i_step)%Z →
  1 ≤ length (d_cache (mean_filter_steps steps (mean_filter_demo image) H0).1) →
  let s := mean_filter_steps steps (mean_filter_demo image) H0 in
  let r := mean_filter_step i_step s.1 s.2 in
  r.1.1 = Raise StopIteration
  ∧ d_cache s.1 `prefix_of` d_cache r.1.2
  ∧ length (d_cache r.1.2) = nrows a * ncols a
  ∧ ∀ k, (0 ≤ k < Z.of_nat (nrows a * ncols a))%Z →
      let r' := mean_filter_step k r.1.2 r.2 in
      r'.1.2 = r.1.2 ∧ r'.2 = r.2
      ∧ ∃ e, r'.1.1 = Ok e ∧ d_cache r.1.2 !! Z.to_nat k = Some e.
Proof.
  intros E Hwf Hend Hlen s r.
  pose proof (mean_filter_steps_inv image a steps _ _ (demo_inv_new _ _ _ E) Hwf)
    as Hinv.
  pose proof (mean_filter_steps_overlays image a steps _ _
                (demo_inv_new _ _ _ E) (demo_overlays_new _ _ _) Hwf) as Hov.
  fold s in Hinv, Hov, Hlen.
  destruct (mean_filter_step_cases image a i_step _ _ Hinv Hov Hwf)
    as (res & d' & K & new & Hr & Hinv' & Hov' & Hc & Hcases).
  fold r in Hr. rewrite Hr. cbn [fst snd].
  destruct Hcases as [(Hneg & _)
                     |[(_ & Hn0 & _)
                      |[(Hin & _)
                       |(_ & _ & -> & Hfull)]]]; [lia|lia|lia|].
  split_and!; [done|rewrite Hc; by apply prefix_app_r|done|].
  intros k Hk.
  destruct (mean_filter_step_cases image a k _ _ Hinv' Hov' Hwf)
    as (res2 & d2 & K2 & new2 & Hr2 & _ & _ & Hc2 & Hcases2).
  rewrite Hr2. cbn [fst snd].
  destruct Hcases2 as [(Hneg & _)
                      |[(_ & Hn0 & _)
                       |[(_ & _ & (e & -> & He) & Hsame & _)
                        |(Hge & _)]]]; [lia|lia| |lia].
  destruct Hsame as [-> ->]; [lia|]. rewrite app_nil_r.
  split_and!; [done|done|]. by exists e.
Qed.

(** *** What the frames hold *)






(** X9.  After any calls, the overlay of frame [m] is [label2rgb] applied
    to the kernel mask at the [m]-th position in row-major order (2 at the
    position, 1 on the rest of its clamped 3 x 3 neighbourhood, 0
    elsewhere) and to the image as it was given, not to a filtered image;
    the overlay and the filtered image of a frame are different arrays. *)
Theorem mean_filter_overlay H0 image a steps m e :
  H0 !! image = Some (CFloat a) → wf_ndarray a →
  d_cache (mean_filter_steps steps (mean_filter_demo image) H0).1 !! m = Some e →
  let s := mean_filter_steps steps (mean_filter_demo image) H0 in
  let p := row_major (ncols a) m in
  s.2 !! e.1
  = Some (CRgb (label2rgb (direct_mask (nrows a) (ncols a) 1 p.1 p.2) a))
  ∧ e.1 ≠ e.2 ∧ e.1 ≠ image.
Proof.
  intros E Hwf He s p.
  pose proof (mean_filter_steps_inv image a steps _ _ (demo_inv_new _ _ _ E) Hwf)
    as Hinv.
  pose proof (mean_filter_steps_overlays image a steps _ _
                (demo_inv_new _ _ _ E) (demo_overlays_new _ _ _) Hwf) as Hov.
  fold s in Hinv, Hov, He.
  pose proof Hinv as [_ Hst _ Hcnt Hfr].
  destruct (Hfr _ _ He) as (Hf & _).
  assert (m < nrows a * ncols a) as Hm.
  { apply lookup_lt_Some in He. lia. }
  destruct (row_major_in_range _ _ _ Hm) as [Hi Hj]. fold p in Hi, Hj.
  pose proof (Hov _ _ He) as Ho. fold p in Ho.
  rewrite kernel_mask_direct in Ho by (done || lia).
  split_and!; [done| |]; intros Heq; rewrite Heq in Ho; congruence.
Qed.

(* ===================================================================== *)
(** ** The interactive demo                                               *)
(* ===================================================================== *)

Lemma slider_bound_range lo hi v :
  (lo ≤ hi)%Z → (lo ≤ slider_bound lo hi v ≤ hi)%Z.
Proof. unfold slider_bound. lia. Qed.

(** The moves of the slider, once the first frame is in the cache. *)
Lemma slider_moves_ok image a moves w H :
  demo_inv image a (s_demo w) H → demo_overlays a (s_demo w) H →
  wf_ndarray a →
  1 ≤ length (d_cache (s_demo w)) →
  slider_ok (nrows a * ncols a) (s_slider w) →
  (∃ r, last (s_calls w) = Some (sl_value (s_slider w), r)) →
  Forall (λ c, (0 ≤ c.1 < Z.of_nat (nrows a * ncols a))%Z
               ∧ ∃ e, c.2 = Ok e
                      ∧ d_cache (s_demo w) !! Z.to_nat c.1 = Some e)
         (s_calls w) →
  ∃ w' K,
    slider_moves moves w H = (w', H ++ K)
    ∧ demo_inv image a (s_demo w') (H ++ K)
    ∧ slider_ok (nrows a * ncols a) (s_slider w')
    ∧ (∃ r, last (s_calls w') = Some (sl_value (s_slider w'), r))
    ∧ s_calls w `prefix_of` s_calls w'
    ∧ length (s_calls w') ≤ length (s_calls w) + length moves
    ∧ Forall (λ c, (0 ≤ c.1 < Z.of_nat (nrows a * ncols a))%Z
                   ∧ ∃ e, c.2 = Ok e
                          ∧ d_cache (s_demo w') !! Z.to_nat c.1 = Some e)
             (s_calls w').
Proof.
  intros Hinv Hov Hwf Hlen Hs Hlast Hcalls.
  revert w H Hinv Hov Hlen Hs Hlast Hcalls.
  induction moves as [|v moves IH]; intros w H Hinv Hov Hlen Hs Hlast Hcalls.
  - exists w, []. rewrite app_nil_r. cbn [slider_moves length].
    split_and!; [done|done|done|done|done|lia|done].
  - cbn [slider_moves]. cbv zeta. case_decide as Hmove.
    + destruct (IH w H Hinv Hov Hlen Hs Hlast Hcalls)
        as (w' & K & -> & Hinv' & Hs' & Hlast' & Hpre & Hn & Hcalls').
      exists w', K. split_and!; [done|done|done|done|done| |done].
      cbn [length]. lia.
    + destruct Hs as (Hmin & Hmax & Hval).
      set (v' := sl_value (slider_move (s_slider w) v)) in *.
      assert (0 ≤ v' < Z.of_nat (nrows a * ncols a))%Z as Hv'.
      { unfold v', slider_move. cbn [sl_value]. rewrite Hmin, Hmax.
        pose proof (slider_bound_range 0 (Z.of_nat (nrows a * ncols a) - 1) v).
        lia. }
      destruct (mean_filter_step_cases image a v' _ _ Hinv Hov Hwf)
        as (res & d' & K & new & -> & Hinv' & Hov' & Hc & Hcases).
      cbv beta iota.
      destruct Hcases as [(Hneg & _)
                         |[(_ & Hn0 & _)
                          |[(_ & _ & (e & -> & He) & _)
                           |(Hge & _)]]]; [lia|lia| |lia].
      destruct (IH (Session (slider_move (s_slider w) v) d'
                      (s_calls w ++ [(v', Ok e)])) (H ++ K))
        as (w' & K' & -> & Hinv'' & Hs' & Hlast' & Hpre & Hn & Hcalls').
      * done.
      * done.
      * cbn [s_demo]. rewrite Hc, length_app. lia.
      * unfold slider_ok. cbn [s_slider]. fold v'.
        unfold slider_move. cbn [sl_min sl_max]. lia.
      * cbn [s_calls s_slider]. exists (Ok e). by rewrite last_snoc.
      * cbn [s_calls s_demo]. apply Forall_app. split.
        -- eapply Forall_impl; [exact Hcalls|].
           intros c (Hc1 & e' & Hc2 & Hc3). split; [done|].
           exists e'. split; [done|]. rewrite Hc. by apply lookup_app_l_Some.
        -- apply Forall_singleton. cbn [fst snd]. split; [done|]. by exists e.
      * exists w', (K ++ K'). rewrite app_assoc.
        cbn [s_calls] in Hpre, Hn. rewrite length_app in Hn. cbn [length] in *.
        split_and!; [done|done|done|done| |lia|done].
        etrans; [|exact Hpre]. by apply prefix_app_r.
Qed.

(** X10.  Started on an image with at least one pixel, the interactive
    demo never fails: the slider runs from 0 to the number of pixels less
    one, the first call is made with the value 0, and every call made
    after any moves of the slider gets a value of that range and returns
    the frame of that value; the image and the arrays that were there
    before are left as they were.  On an image without pixels the slider
    cannot be made and no call is made. *)
Theorem mean_filter_interactive_demo_slider H image a moves :
  H !! image = Some (CFloat a) → wf_ndarray a →
  let total := nrows a * ncols a in
  let r := mean_filter_interactive_demo image moves H in
  (total = 0 → r = (TraitError, H))
  ∧ (1 ≤ total →
     ∃ w, r.1 = Running w
       ∧ slider_ok total (s_slider w)
       ∧ (∃ e, head (s_calls w) = Some (0%Z, Ok e))
       ∧ (∃ res, last (s_calls w) = Some (sl_value (s_slider w), res))
       ∧ length (s_calls w) ≤ 1 + length moves
       ∧ Forall (λ c, (0 ≤ c.1 < Z.of_nat total)%Z
                      ∧ ∃ e, c.2 = Ok e
                             ∧ d_cache (s_demo w) !! Z.to_nat c.1 = Some e)
                (s_calls w)
       ∧ H `prefix_of` r.2 ∧ r.2 !! image = Some (CFloat a)).
Proof.
  intros E Hwf total r. unfold r, mean_filter_interactive_demo.
  rewrite (read_float_eq _ _ _ E). fold total. unfold new_slider. split.
  - intros Hz. rewrite decide_True by lia. done.
  - intros Hpos. rewrite decide_False by lia.
    assert (slider_bound 0 (Z.of_nat total - 1) 0 = 0%Z) as ->
      by (unfold slider_bound; lia).
    unfold interact. cbn [sl_value].
    destruct (mean_filter_step_cases image a 0 _ _
                (demo_inv_new _ _ _ E) (demo_overlays_new a image H) Hwf)
      as (res & d' & K & new & -> & Hinv' & Hov' & Hc & Hcases).
    cbv beta iota.
    destruct Hcases as [(Hneg & _)
                       |[(Hlt & _)
                        |[(_ & _ & (e & -> & He) & _)
                         |(Hge & _)]]]; [lia|lia| |fold total in Hge; lia].
    destruct (slider_moves_ok image a moves
                (Session (IntSlider 0 (Z.of_nat total - 1) 0) d' [(0%Z, Ok e)])
                (H ++ K))
      as (w' & K' & -> & Hinv'' & Hs' & Hlast' & Hpre & Hn & Hcalls').
    + done.
    + done.
    + done.
    + cbn [s_demo]. apply lookup_lt_Some in He. lia.
    + split_and!; [done|done|cbn [s_slider sl_value]; fold total; lia..].
    + by exists (Ok e).
    + apply Forall_singleton. cbn [fst snd s_demo]. fold total.
      split; [lia|]. by exists e.
    + exists w'. cbn [fst snd]. cbn [s_calls length] in Hn.
      pose proof Hinv'' as [_ Hst _ _ _].
      split_and!; [done|done| |done|lia|done| |done].
      * destruct Hpre as [rest ->]. by exists e.
      * rewrite <-app_assoc. by apply prefix_app_r.
Qed.

(* ===================================================================== *)
(** ** Further properties of [imshow_all]                                 *)
(* ===================================================================== *)

Lemma result_mapM_np_min_empty (l : list (ndarray Qc)) :
  Exists (λ a, ravel a = []) l → result_mapM np_min l = Raise ValueError.
Proof.
  induction l as [|x l IH]; intros Hex.
  - by apply Exists_nil in Hex.
  - cbn [result_mapM]. change (np_min x) with (min_of (ravel x)).
    destruct (ravel x) as [|y ys] eqn:Hx; [done|].
    apply Exists_cons in Hex as [Hex|Hex]; [congruence|].
    simpl. by rewrite (IH Hex).
Qed.

(** X11.  Called with no image at all, or with images one of which has no
    pixel, [imshow_all] raises [ValueError] and draws nothing: the limits
    cannot be computed, and the figure is only made after them. *)
Theorem imshow_all_without_pixels images titles :
  images = [] ∨ Exists (λ img, ravel (img_as_float img) = []) images →
  imshow_all images titles = Raise ValueError.
Proof.
  intros [->|Hex]; [done|].
  unfold imshow_all. rewrite result_mapM_np_min_empty; [done|].
  by apply Exists_fmap.
Qed.

Lemma show_panels_drawn n (images : list (ndarray Qc)) titles vmin vmax k img t :
  k < n → images !! k = Some img → titles !! k = Some t →
  show_panels (replicate n empty_axis) images titles vmin vmax !! k
  = Some (Axis (Some (img, vmin, vmax)) t).
Proof.
  revert images titles k.
  induction n as [|n IH]; intros images titles k Hk Hi Ht; [lia|].
  destruct images as [|i images]; [done|].
  destruct titles as [|t' titles]; [done|].
  destruct k as [|k]; simpl in *.
  - by simplify_eq.
  - apply IH; [lia|done|done].
Qed.

Lemma show_panels_blank n (images : list (ndarray Qc)) titles vmin vmax k :
  length images `min` length titles ≤ k → k < n →
  show_panels (replicate n empty_axis) images titles vmin vmax !! k
  = Some empty_axis.
Proof.
  revert images titles k.
  induction n as [|n IH]; intros images titles k Hmin Hk; [lia|].
  destruct images as [|i images];
    [by apply (lookup_replicate_2 (S n))|].
  destruct titles as [|t' titles];
    [by apply (lookup_replicate_2 (S n))|].
  destruct k as [|k]; simpl in *; [lia|].
  apply IH; lia.
Qed.

(** X12.  Called with two images or more, none of them without pixels,
    [imshow_all] makes one row with a panel for each image, whatever the
    titles are.  An image is drawn, in the panel of its index, only if
    there is a title of that index: when fewer titles than images are
    given, the panels of the images past the last title stay empty, and
    titles past the last image are not used.  Every image drawn gets the
    same two limits, the least and the greatest of the pixels of all the
    images given, drawn or not. *)
Theorem imshow_all_panels images titles :
  2 ≤ length images →
  Forall (λ img, ravel (img_as_float img) ≠ []) images →
  let used := titles_used (length images) titles in
  ∃ vmin vmax panels,
    imshow_all images titles = Ok panels
    ∧ length panels = length images
    ∧ vmin ∈ all_pixels images ∧ vmax ∈ all_pixels images
    ∧ (∀ y, y ∈ all_pixels images → (vmin ≤ y)%Qc ∧ (y ≤ vmax)%Qc)
    ∧ (∀ k img t, images !! k = Some img → used !! k = Some t →
         panels !! k = Some (Axis (Some (img_as_float img, vmin, vmax)) t))
    ∧ (∀ k, length used ≤ k < length images → panels !! k = Some empty_axis)
    ∧ (titles = None → length used = length images
                       ∧ ∀ k t, used !! k = Some t → t = EmptyString).
Proof.
  intros Hlen Hall used.
  assert (images ≠ []) as Hne by (intros ->; simpl in Hlen; lia).
  destruct (global_min images Hne Hall) as (vmin & Hmin & Hmin1 & Hmin2).
  destruct (global_max images Hne Hall) as (vmax & Hmax & Hmax1 & Hmax2).
  exists vmin, vmax. eexists. unfold imshow_all.
  rewrite Hmin. cbn [mbind result_mbind result_bind].
  rewrite Hmax. cbn [mbind result_mbind result_bind].
  rewrite length_fmap. unfold subplots.
  rewrite decide_False by lia. rewrite decide_False by lia.
  cbn [axes_ravel]. split; [done|].
  rewrite Nat.mul_1_l. fold (titles_used (length images) titles). fold used.
  split_and!; [|done|done| | | |].
  - by rewrite length_show_panels, length_replicate.
  - intros y Hy. split; [by apply Hmin2|by apply Hmax2].
  - intros k img t Hk Htk. apply show_panels_drawn.
    + by eapply lookup_lt_Some.
    + by rewrite list_lookup_fmap, Hk.
    + done.
  - intros k [Hk1 Hk2]. apply show_panels_blank; [|done].
    rewrite length_fmap. lia.
  - intros ->. unfold used. cbn [titles_used].
    split; [by rewrite length_replicate|].
    intros k t Ht. by apply lookup_replicate in Ht as [-> _].
Qed.

(* ===================================================================== *)
(** ** The two iterators together                                         *)
(* ===================================================================== *)

(** X13.  [iter_kernel] walks the image as [iter_pixels] does, whatever
    the half-width is: call after call, the positions of its triples are
    the positions of the items of [iter_pixels] on the same image, and it
    ends when [iter_pixels] ends. *)
Theorem iter_kernel_follows_iter_pixels H image a (size : Z) n :
  H !! image = Some (CFloat a) → wf_ndarray a →
  position_of <$> yields_of n (iter_kernel image size) H
  = fst <$> (pixel_pull n (iter_pixels image) H).1.1
  ∧ raised_by n (iter_kernel image size) H
    = (pixel_pull n (iter_pixels image) H).1.2.
Proof.
  intros E Hwf.
  rewrite (yields_of_positions _ _ a), (raised_by_iter_kernel _ _ a) by done.
  rewrite (pixel_pull_new _ _ a) by done. cbn [fst snd].
  split; [|done].
  rewrite <-list_fmap_compose.
  rewrite <-(list_fmap_id (take n _)) at 1. by apply list_fmap_ext.
Qed.


(* ===================================================================== *)
(** ** Two closures on one image                                          *)
(* ===================================================================== *)

Lemma demo_inv_app image a d H K :
  demo_inv image a d H → demo_inv image a d (H ++ K).
Proof.
  intros Hinv. pose proof Hinv as [_ _ Hit _ _].
  destruct d as [img g cache].
  by apply (demo_inv_raise image a (Demo img g cache) H K g).
Qed.

Lemma demo_overlays_more a d H K :
  demo_overlays a d H → demo_overlays a d (H ++ K).
Proof. intros Hov m e He. apply lookup_app_l_Some. by apply Hov. Qed.

(** The number of frames after a call depends on the step, on the number
    of frames before it and on the number of pixels only. *)
Lemma mean_filter_step_length image a (k : Z) d H :
  demo_inv image a d H → demo_overlays a d H → wf_ndarray a →
  length (d_cache (mean_filter_step k d H).1.2)
  = frames_after (nrows a * ncols a) (length (d_cache d)) k.
Proof.
  intros Hinv Hov Hwf. unfold frames_after.
  destruct (mean_filter_step_cases image a k d H Hinv Hov Hwf)
    as (res & d' & K & new & -> & _ & _ & _ & Hcases). cbn [fst snd].
  destruct Hcases as [(Hneg & _ & -> & _)
                     |[(Hpos & Hn0 & _ & -> & _)
                      |[(Hin & Hfirst & _ & _ & Hlen)
                       |(Hend & Hfirst & _ & Hlen)]]].
  - by rewrite decide_True.
  - rewrite decide_False by lia. rewrite decide_True by lia. done.
  - rewrite decide_False by lia. rewrite decide_False by lia.
    by rewrite decide_True by lia.
  - rewrite decide_False by lia. rewrite decide_False by lia.
    by rewrite decide_False by lia.
Qed.

Lemma two_demos_inv image a calls d1 d2 H :
  demo_inv image a d1 H → demo_overlays a d1 H →
  demo_inv image a d2 H → demo_overlays a d2 H → wf_ndarray a →
  ∀ b, demo_inv image a (closure_of b (two_demos calls d1 d2 H).1)
         (two_demos calls d1 d2 H).2
       ∧ demo_overlays a (closure_of b (two_demos calls d1 d2 H).1)
           (two_demos calls d1 d2 H).2.
Proof.
  intros Hinv1 Hov1 Hinv2 Hov2 Hwf.
  revert d1 d2 H Hinv1 Hov1 Hinv2 Hov2.
  induction calls as [|[[] k] calls IH]; intros d1 d2 H Hinv1 Hov1 Hinv2 Hov2.
  - intros []; done.
  - cbn [two_demos].
    destruct (mean_filter_step_cases image a k d1 H Hinv1 Hov1 Hwf)
      as (res & d' & K & new & -> & Hinv' & Hov' & _).
    apply IH; [done|done|by apply demo_inv_app|by apply demo_overlays_more].
  - cbn [two_demos].
    destruct (mean_filter_step_cases image a k d2 H Hinv2 Hov2 Hwf)
      as (res & d' & K & new & -> & Hinv' & Hov' & _).
    apply IH; [by apply demo_inv_app|by apply demo_overlays_more|done|done].
Qed.

Lemma mean_filter_steps_length image a steps d H d' H' :
  demo_inv image a d H → demo_overlays a d H →
  demo_inv image a d' H' → demo_overlays a d' H' → wf_ndarray a →
  length (d_cache d) = length (d_cache d') →
  length (d_cache (mean_filter_steps steps d H).1)
  = length (d_cache (mean_filter_steps steps d' H').1).
Proof.
  intros Hinv Hov Hinv' Hov' Hwf. revert d H d' H' Hinv Hov Hinv' Hov'.
  induction steps as [|k steps IH]; intros d H d' H' Hinv Hov Hinv' Hov' Hlen;
    [done|].
  cbn [mean_filter_steps].
  pose proof (mean_filter_step_length image a k d H Hinv Hov Hwf) as Hl.
  pose proof (mean_filter_step_length image a k d' H' Hinv' Hov' Hwf) as Hl'.
  destruct (mean_filter_step_cases image a k d H Hinv Hov Hwf)
    as (res & d1 & K & new & Hr & Hinv1 & Hov1 & _).
  destruct (mean_filter_step_cases image a k d' H' Hinv' Hov' Hwf)
    as (res' & d1' & K' & new' & Hr' & Hinv1' & Hov1' & _).
  rewrite Hr in Hl |- *. rewrite Hr' in Hl' |- *. cbn [fst snd] in Hl, Hl'.
  apply IH; [done..|]. by rewrite Hl, Hl', Hlen.
Qed.

Lemma two_demos_length image a calls d1 d2 H b dA HA :
  demo_inv image a d1 H → demo_overlays a d1 H →
  demo_inv image a d2 H → demo_overlays a d2 H →
  demo_inv image a dA HA → demo_overlays a dA HA → wf_ndarray a →
  length (d_cache (closure_of b (d1, d2))) = length (d_cache dA) →
  length (d_cache (closure_of b (two_demos calls d1 d2 H).1))
  = length (d_cache (mean_filter_steps (calls_of b calls) dA HA).1).
Proof.
  intros Hinv1 Hov1 Hinv2 Hov2 HinvA HovA Hwf.
  revert d1 d2 H dA HA Hinv1 Hov1 Hinv2 Hov2 HinvA HovA.
  induction calls as [|[b' k] calls IH];
    intros d1 d2 H dA HA Hinv1 Hov1 Hinv2 Hov2 HinvA HovA Hlen; [done|].
  pose proof (mean_filter_step_length image a k d1 H Hinv1 Hov1 Hwf) as Hl1.
  pose proof (mean_filter_step_length image a k d2 H Hinv2 Hov2 Hwf) as Hl2.
  pose proof (mean_filter_step_length image a k dA HA HinvA HovA Hwf) as HlA.
  destruct (mean_filter_step_cases image a k d1 H Hinv1 Hov1 Hwf)
    as (r1 & d1' & K1 & new1 & Hr1 & Hinv1' & Hov1' & _).
  destruct (mean_filter_step_cases image a k d2 H Hinv2 Hov2 Hwf)
    as (r2 & d2' & K2 & new2 & Hr2 & Hinv2' & Hov2' & _).
  destruct (mean_filter_step_cases image a k dA HA HinvA HovA Hwf)
    as (rA & dA' & KA & newA & HrA & HinvA' & HovA' & _).
  rewrite Hr1 in Hl1. rewrite Hr2 in Hl2. rewrite HrA in HlA.
  cbn [fst snd] in Hl1, Hl2, HlA.
  destruct b', b; cbn [two_demos calls_of Bool.eqb mean_filter_steps];
    rewrite ?Hr1, ?Hr2, ?HrA; cbn [closure_of fst snd] in Hlen.
  - apply IH; [done|done|by apply demo_inv_app|by apply demo_overlays_more
              |done|done|].
    cbn [closure_of fst snd]. by rewrite Hl1, HlA, Hlen.
  - apply IH; [done|done|by apply demo_inv_app|by apply demo_overlays_more
              |done|done|done].
  - apply IH; [by apply demo_inv_app|by apply demo_overlays_more|done|done
              |done|done|done].
  - apply IH; [by apply demo_inv_app|by apply demo_overlays_more|done|done
              |done|done|].
    cbn [closure_of fst snd]. by rewrite Hl2, HlA, Hlen.
Qed.

(** X15.  Two closures made by two calls of [mean_filter_demo] on the same
    image do not disturb each other, however their calls are mixed: each
    closure ends with as many frames as if its own calls had been made
    alone, and every frame holds the same filtered image and the same
    overlay as the frame of that index made alone. *)
Theorem mean_filter_demos_independent H0 image a calls b m e e' :
  H0 !! image = Some (CFloat a) → wf_ndarray a →
  let both := two_demos calls (mean_filter_demo image) (mean_filter_demo image) H0 in
  let alone := mean_filter_steps (calls_of b calls) (mean_filter_demo image) H0 in
  length (d_cache (closure_of b both.1)) = length (d_cache alone.1)
  ∧ (d_cache (closure_of b both.1) !! m = Some e →
     d_cache alone.1 !! m = Some e' →
     ∃ fr o,
       both.2 !! e.2 = Some (CFloat fr) ∧ alone.2 !! e'.2 = Some (CFloat fr)
       ∧ both.2 !! e.1 = Some (CRgb o) ∧ alone.2 !! e'.1 = Some (CRgb o)).
Proof.
  intros E Hwf both alone.
  pose proof (demo_inv_new _ _ _ E) as Hnew.
  pose proof (demo_overlays_new a image H0) as Hnov.
  destruct (two_demos_inv image a calls _ _ _ Hnew Hnov Hnew Hnov Hwf b)
    as [Hinv Hov]. fold both in Hinv, Hov.
  pose proof (mean_filter_steps_inv image a (calls_of b calls) _ _ Hnew Hwf)
    as HinvA.
  pose proof (mean_filter_steps_overlays image a (calls_of b calls) _ _
                Hnew Hnov Hwf) as HovA.
  fold alone in HinvA, HovA.
  split.
  - apply (two_demos_length image a); [done..|]. by destruct b.
  - intros He He'.
    pose proof Hinv as [_ _ _ _ Hfr]. pose proof HinvA as [_ _ _ _ HfrA].
    destruct (Hfr _ _ He) as (Hf & _). destruct (HfrA _ _ He') as (Hf' & _).
    eexists _, _. split_and!; [exact Hf|exact Hf'|by apply Hov|by apply HovA].
Qed.

End Notebook.

(* ===================================================================== *)
(** * Examples                                                            *)
(* ===================================================================== *)

(** The examples run in stores whose overlays are blank. *)
Local Abbreviation only := (@single_store unit).

Lemma wf_bright_pixel : wf_ndarray bright_pixel.
Proof. split; [done|]. by repeat constructor. Defined.

Lemma wf_bright_square : wf_ndarray bright_square.
Proof. split; [done|]. by repeat constructor. Defined.


Lemma iter_kernel_mask_corner :
  ∃ m, store_after 6 (iter_kernel 0 1) (only bright_pixel) !! 2 = Some (CInt m)
       ∧ cells m = [[2; 1; 0]; [1; 1; 0]]%Z.
Proof.
  destruct (iter_kernel_mask (only bright_pixel) 0 bright_pixel 1 6 0 0 0 2
              (View 0 (kernel_index 2 3 1 0 0)))
    as (m & Hm & _ & _ & _ & _ & _ & _ & _ & ->).
  - reflexivity.
  - exact wf_bright_pixel.
  - simpl; lia.
  - simpl; lia.
  - lia.
  - reflexivity.
  - exists (direct_mask 2 3 1 0 0). split; [exact Hm|reflexivity].
Defined.

Lemma iter_kernel_window_corner :
  ∃ win, (read_view (View 0 (kernel_index 2 3 1 0 2))
            (store_after 6 (iter_kernel 0 1) (only bright_pixel))).1 = Ok win
         ∧ Z.of_nat (nrows win) = 2%Z ∧ Z.of_nat (ncols win) = 2%Z.
Proof.
  destruct (iter_kernel_window (only bright_pixel) 0 bright_pixel 1 6 2 0 2 6
              (View 0 (kernel_index 2 3 1 0 2)))
    as (win & Hwin & _ & _ & Hr & Hc & _).
  - reflexivity.
  - exact wf_bright_pixel.
  - simpl; lia.
  - simpl; lia.
  - lia.
  - reflexivity.
  - exists win. split; [exact Hwin|]. split; [exact Hr|exact Hc].
Defined.

Lemma iter_kernel_row_major_six :
  length (position_of <$> yields_of 9 (iter_kernel 0 1) (only bright_pixel))
  = 9 `min` 6.
Proof.
  apply (iter_kernel_row_major (only bright_pixel) 0 bright_pixel 1).
  - reflexivity.
  - exact wf_bright_pixel.
  - simpl; lia.
  - simpl; lia.
  - lia.
Defined.

Lemma iter_kernel_size_zero_pixel :
  (read_view (View 0 (kernel_index 2 3 0 1 1))
     (store_after 6 (iter_kernel 0 0) (only bright_pixel))).1
  = Ok (NdArray 1 1 [[at2 0%Qc bright_pixel 1 1]]).
Proof.
  apply (iter_kernel_size_zero (only bright_pixel) 0 bright_pixel 6 4 1 1 10
           (View 0 (kernel_index 2 3 0 1 1))).
  - reflexivity.
  - exact wf_bright_pixel.
  - simpl; lia.
  - simpl; lia.
  - reflexivity.
Defined.

Lemma iter_kernel_deterministic_stores :
  observe (store_after 6 (iter_kernel 0 1) (only bright_pixel))
    <$> yields_of 6 (iter_kernel 0 1) (only bright_pixel)
  = observe (store_after 6 (iter_kernel 1 1)
               (CInt (np_zeros 1 1) :: only bright_pixel))
      <$> yields_of 6 (iter_kernel 1 1) (CInt (np_zeros 1 1) :: only bright_pixel).
Proof.
  apply (iter_kernel_deterministic (only bright_pixel)
           (CInt (np_zeros 1 1) :: only bright_pixel) 0 1 bright_pixel 1 6).
  - reflexivity.
  - reflexivity.
  - exact wf_bright_pixel.
Defined.

Lemma iter_kernel_independent_first_mask :
  yields_of 3 (iter_after 2 (iter_kernel 0 1) (only bright_pixel))
    (<[2 := CInt (np_zeros 1 1)]>
       (store_after 2 (iter_kernel 0 1) (only bright_pixel)))
  = yields_of 3 (iter_after 2 (iter_kernel 0 1) (only bright_pixel))
      (store_after 2 (iter_kernel 0 1) (only bright_pixel)).
Proof.
  apply (iter_kernel_independent (only bright_pixel) 0 bright_pixel 1 2 3 2
           (CInt (np_zeros 1 1))).
  - reflexivity.
  - exact wf_bright_pixel.
  - vm_compute. left.
Defined.

Lemma iter_kernel_no_validation_minus_one :
  raised_by 7 (iter_kernel 0 (-1)) (only bright_pixel) = Some StopIteration
  ∧ length (yields_of 7 (iter_kernel 0 (-1)) (only bright_pixel)) = 6.
Proof.
  destruct (iter_kernel_no_validation (only bright_pixel) 0 bright_pixel (-1) 7)
    as (Hr & Hl & _).
  - reflexivity.
  - exact wf_bright_pixel.
  - left. lia.
  - split; [exact Hr|exact Hl].
Defined.

(** With half-width -1 the first [next] yields a triple and raises
    nothing. *)
Lemma iter_kernel_negative_size_yields :
  yields_of 1 (iter_kernel 0 (-1)) (only bright_pixel)
  = [(0, 0, 2, View 0 (kernel_index 2 3 (-1) 0 0))]
  ∧ raised_by 1 (iter_kernel 0 (-1)) (only bright_pixel) = None.
Proof. split; reflexivity. Qed.



Lemma mean_filter_step_frames_bright_square :
  length (d_cache (mean_filter_step blank_overlay float64 3
            (mean_filter_steps blank_overlay float64 [0; 1]%Z (mean_filter_demo 0)
               (only bright_square)).1
            (mean_filter_steps blank_overlay float64 [0; 1]%Z (mean_filter_demo 0)
               (only bright_square)).2).1.2)
  ≤ 2 `max` Z.to_nat (3 + 1).
Proof.
  apply (mean_filter_step_frames blank_overlay float64 (only bright_square) 0
           bright_square [0; 1]%Z 3).
  - reflexivity.
  - exact wf_bright_square.
Defined.

(** ** Examples for the further properties *)

Lemma iter_pixels_row_major_bright_pixel :
  snd <$> (pixel_pull 6 (iter_pixels 0) (only bright_pixel)).1.1
  = ravel bright_pixel
  ∧ pixel_calls 9 (iter_pixels 0) (only bright_pixel) !! 8
    = Some (Raise StopIteration).
Proof.
  destruct (iter_pixels_row_major (only bright_pixel) 0 bright_pixel)
    as (_ & _ & _ & Hr & _ & Hcalls).
  - reflexivity.
  - exact wf_bright_pixel.
  - split; [exact Hr|]. apply (Hcalls 9 8). lia.
Defined.


Lemma iter_kernel_mask_marks_window_corner :
  ∃ m win,
    store_after 6 (iter_kernel 0 1) (only bright_pixel) !! 2 = Some (CInt m)
    ∧ (read_view (View 0 (kernel_index 2 3 1 0 0))
         (store_after 6 (iter_kernel 0 1) (only bright_pixel))).1 = Ok win
    ∧ (at2 0%Z m 1 2 ≠ 0%Z
       ↔ (0 ≤ 1 < 0 + nrows win) ∧ (0 ≤ 2 < 0 + ncols win)).
Proof.
  destruct (iter_kernel_mask_marks_window (only bright_pixel) 0 bright_pixel
              1 6 0 0 0 2 (View 0 (kernel_index 2 3 1 0 0)))
    as (m & win & Hm & Hwin & Hmark & _).
  - reflexivity.
  - exact wf_bright_pixel.
  - lia.
  - reflexivity.
  - exists m, win. split; [exact Hm|]. split; [exact Hwin|].
    apply Hmark; simpl; lia.
Defined.

Lemma iter_kernel_covers_image_bright_pixel :
  (read_view (View 0 (kernel_index 2 3 2 1 1))
     (store_after 6 (iter_kernel 0 2) (only bright_pixel))).1
  = Ok bright_pixel.
Proof.
  apply (iter_kernel_covers_image (only bright_pixel) 0 bright_pixel 2 6 4 1 1
           10 (View 0 (kernel_index 2 3 2 1 1))).
  - reflexivity.
  - exact wf_bright_pixel.
  - simpl; lia.
  - simpl; lia.
  - reflexivity.
Defined.

Lemma mean_filter_step_outcome_unstarted :
  (mean_filter_step blank_overlay float64 5 (mean_filter_demo 0)
     (only bright_square)).1.1
  = Raise IndexError.
Proof.
  destruct (mean_filter_step_outcome blank_overlay float64 (only bright_square) 0
              bright_square [] 5) as (Hindex & _).
  - reflexivity.
  - exact wf_bright_square.
  - apply Hindex. right. simpl. lia.
Defined.

Lemma mean_filter_step_past_end_bright_pixel :
  (mean_filter_step blank_overlay float64 6
     (mean_filter_steps blank_overlay float64 [0]%Z (mean_filter_demo 0)
        (only bright_pixel)).1
     (mean_filter_steps blank_overlay float64 [0]%Z (mean_filter_demo 0)
        (only bright_pixel)).2).1.1
  = Raise StopIteration.
Proof.
  apply (mean_filter_step_past_end blank_overlay float64 (only bright_pixel) 0
           bright_pixel [0]%Z 6).
  - reflexivity.
  - exact wf_bright_pixel.
  - simpl; lia.
  - vm_compute; lia.
Defined.



Lemma mean_filter_overlay_bright_square :
  (mean_filter_steps blank_overlay float64 [0; 1]%Z (mean_filter_demo 0)
     (only bright_square)).2 !! 4
  = Some (CRgb (blank_overlay (direct_mask 7 7 1 0 0) bright_square)).
Proof.
  apply (mean_filter_overlay blank_overlay float64 (only bright_square) 0
           bright_square [0; 1]%Z 0 (4, 1)).
  - reflexivity.
  - exact wf_bright_square.
  - reflexivity.
Defined.

Lemma mean_filter_interactive_demo_slider_bright_pixel :
  ∃ w,
    (mean_filter_interactive_demo blank_overlay float64 0 [3; 100; -2]%Z
       (only bright_pixel)).1 = Running w
    ∧ length (s_calls w) ≤ 1 + 3.
Proof.
  destruct (mean_filter_interactive_demo_slider blank_overlay float64
              (only bright_pixel) 0 bright_pixel [3; 100; -2]%Z)
    as [_ Hrun].
  - reflexivity.
  - exact wf_bright_pixel.
  - destruct Hrun as (w & Hw & _ & _ & _ & Hn & _); [simpl; lia|].
    exists w. split; [exact Hw|exact Hn].
Defined.

Lemma imshow_all_without_pixels_second :
  imshow_all (λ img : ndarray Qc, img) [bright_pixel; NdArray 0 0 []] None
  = Raise ValueError.
Proof.
  apply (imshow_all_without_pixels (λ img : ndarray Qc, img)).
  right. apply Exists_cons_tl, Exists_cons_hd. reflexivity.
Defined.

Lemma imshow_all_panels_one_title :
  ∃ panels,
    imshow_all (λ img : ndarray Qc, img) [bright_pixel; bright_square]
      (Some ["one"%string]) = Ok panels
    ∧ length panels = 2
    ∧ panels !! 1 = Some empty_axis.
Proof.
  destruct (imshow_all_panels (λ img : ndarray Qc, img)
              [bright_pixel; bright_square] (Some ["one"%string]))
    as (vmin & vmax & panels & Hp & Hl & _ & _ & _ & _ & Hblank & _).
  - simpl; lia.
  - repeat constructor; discriminate.
  - exists panels. split; [exact Hp|]. split; [exact Hl|].
    apply Hblank. simpl; lia.
Defined.

Lemma iter_kernel_follows_iter_pixels_bright_pixel :
  position_of <$> yields_of 4 (iter_kernel 0 (-3)) (only bright_pixel)
  = fst <$> (pixel_pull 4 (iter_pixels 0) (only bright_pixel)).1.1.
Proof.
  apply (iter_kernel_follows_iter_pixels (only bright_pixel) 0 bright_pixel (-3) 4).
  - reflexivity.
  - exact wf_bright_pixel.
Defined.

Lemma mean_filter_demos_independent_bright_pixel :
  length (d_cache (two_demos blank_overlay float64
                     [(true, 0); (false, 0); (false, 2); (true, 1)]%Z
                     (mean_filter_demo 0) (mean_filter_demo 0)
                     (only bright_pixel)).1.1)
  = length (d_cache (mean_filter_steps blank_overlay float64 [0; 1]%Z
                       (mean_filter_demo 0) (only bright_pixel)).1).
Proof.
  apply (mean_filter_demos_independent blank_overlay float64 (only bright_pixel) 0
           bright_pixel [(true, 0); (false, 0); (false, 2); (true, 1)]%Z
           true 0 (0, 0) (0, 0)).
  - reflexivity.
  - exact wf_bright_pixel.
Defined.
